(** * SDN controller: routing and flow admission

    A shallow embedding of [src/main.py] (class [SDNController]) together
    with the parts of the graph library it calls ([Graph.add_node],
    [Graph.add_edge], [Graph.has_edge], [Graph.edges], [edge_subgraph],
    [predecessor], [all_shortest_paths]).

    Node identifiers are strings, bandwidths and priorities are integers,
    Python dictionaries whose iteration order is observable are ordered
    association lists, the other dictionaries are [gmap]s.  Default
    arguments ([node_type='switch'], [bandwidth=100], [priority=0],
    [bandwidth=10]) are passed by the caller.  The attributes
    [link_utilization] and [watermark], which no operation reads or
    writes after [__init__], the drawing and the prompt loop are left
    out. *)

From Stdlib Require Import Ascii.
From stdpp Require Import gmap strings list pretty.

Open Scope Z_scope.
Open Scope string_scope.
Open Scope list_scope.

(** ** Exceptions and results *)

Inductive exn := NodeNotFound | NetworkXNoPath | KeyError | ValueError.

Inductive result (A : Type) :=
  | Ok (a : A)
  | Raise (e : exn).
Arguments Ok {A} a.
Arguments Raise {A} e.

Global Instance result_ret : MRet result := @Ok.
Global Instance result_bind : MBind result := λ A B k r,
  match r with Ok a => k a | Raise e => Raise e end.

(** ** Insertion-ordered dictionaries with string keys *)

Section odict.
Context {V : Type}.

Fixpoint od_get (k : string) (d : list (string * V)) : option V :=
  match d with
  | [] => None
  | (k', v) :: d' => if decide (k = k') then Some v else od_get k d'
  end.

(** [d[k] = v]: an existing key keeps its position, a new key goes last. *)
Fixpoint od_set (k : string) (v : V) (d : list (string * V))
  : list (string * V) :=
  match d with
  | [] => [(k, v)]
  | (k', v') :: d' =>
      if decide (k = k') then (k, v) :: d' else (k', v') :: od_set k v d'
  end.

Definition od_keys (d : list (string * V)) : list string := d.*1.
End odict.

(** ** The topology graph *)

(** The attribute dictionary of a link.  [add_link] is the only place that
    creates one and it always writes the three keys. *)
Record EdgeData := mkEdge {
  e_bandwidth : Z;
  e_utilization : Z;
  e_available : bool
}.

(** An undirected graph as the library stores it: [g_node] maps a node to
    its attributes (here the value of ['type'], if the key is there),
    [g_adj] maps a node to its neighbours, and each neighbour entry holds a
    reference to the attribute dictionary of the link.  The dictionaries
    live in [g_attr]; the two directions of a link hold the same reference,
    so a write through one direction is read through the other. *)
Record Graph := mkGraph {
  g_node : list (string * option string);
  g_adj : list (string * list (string * nat));
  g_attr : list EdgeData
}.

Definition empty_graph : Graph := mkGraph [] [] [].

(** [G.add_node(n, type=ty)] *)
Definition nx_add_node (g : Graph) (n ty : string) : Graph :=
  match od_get n (g_node g) with
  | None =>
      mkGraph (od_set n (Some ty) (g_node g)) (od_set n [] (g_adj g)) (g_attr g)
  | Some _ =>
      mkGraph (od_set n (Some ty) (g_node g)) (g_adj g) (g_attr g)
  end.

(** The node creation done by [add_edge] for an endpoint it does not know:
    an empty adjacency and an empty attribute dictionary. *)
Definition nx_touch_node (g : Graph) (n : string) : Graph :=
  match od_get n (g_node g) with
  | None => mkGraph (od_set n None (g_node g)) (od_set n [] (g_adj g)) (g_attr g)
  | Some _ => g
  end.

(** [self._adj[u][v] = r] *)
Definition adj_set (adj : list (string * list (string * nat)))
    (u v : string) (r : nat) : list (string * list (string * nat)) :=
  od_set u (od_set v r (default [] (od_get u adj))) adj.

(** [G.add_edge(u, v, **d)]: the attribute dictionary already stored under
    [adj[u][v]] is updated in place, otherwise a new one is allocated; both
    directions are then (re)assigned the same dictionary. *)
Definition nx_add_edge (g : Graph) (u v : string) (d : EdgeData) : Graph :=
  let g1 := nx_touch_node (nx_touch_node g u) v in
  match od_get u (g_adj g1) ≫= od_get v with
  | Some r =>
      mkGraph (g_node g1) (adj_set (adj_set (g_adj g1) u v r) v u r)
              (<[r := d]> (g_attr g1))
  | None =>
      let r := length (g_attr g1) in
      mkGraph (g_node g1) (adj_set (adj_set (g_adj g1) u v r) v u r)
              (g_attr g1 ++ [d])
  end.

(** [G.has_edge(u, v)] *)
Definition nx_has_edge (g : Graph) (u v : string) : bool :=
  match od_get u (g_adj g) with
  | Some nbrs => bool_decide (is_Some (od_get v nbrs))
  | None => false
  end.

(** The reference held by [G[u][v]], and the dictionary it points to;
    [None] is Python's [KeyError]. *)
Definition nx_edge_ref (g : Graph) (u v : string) : option nat :=
  od_get u (g_adj g) ≫= od_get v.

Definition nx_edge (g : Graph) (u v : string) : option EdgeData :=
  nx_edge_ref g u v ≫= λ r, g_attr g !! r.

(** [G[u][v][key] = ...], as a function applied to the shared dictionary. *)
Definition nx_edge_update (g : Graph) (u v : string)
    (f : EdgeData → EdgeData) : option Graph :=
  match nx_edge_ref g u v with
  | Some r =>
      match g_attr g !! r with
      | Some d => Some (mkGraph (g_node g) (g_adj g) (<[r := f d]> (g_attr g)))
      | None => None
      end
  | None => None
  end.

(** [G.edges(data=True)]: the nodes in insertion order, each with those of
    its neighbours that have not been iterated themselves; the third
    component is the reference to the link's dictionary. *)
Fixpoint nx_edges_go (seen : list string)
    (adj : list (string * list (string * nat))) : list (string * string * nat) :=
  match adj with
  | [] => []
  | (n, nbrs) :: adj' =>
      omap (λ '(nbr, r), if decide (nbr ∈ seen) then None else Some (n, nbr, r))
           nbrs
      ++ nx_edges_go (n :: seen) adj'
  end.

Definition nx_edges (g : Graph) : list (string * string * nat) :=
  nx_edges_go [] (g_adj g).

(** ** Edge-induced subgraph views *)

(** [G.edge_subgraph(edges)] is a view on [G]: it keeps the graph and two
    filters, the set of endpoints of [edges] and the set [edges] itself. *)
Record View := mkView {
  v_graph : Graph;
  v_nodes : list string;
  v_edges : list (string * string)
}.

Definition edge_subgraph (g : Graph) (es : list (string * string)) : View :=
  mkView g (flat_map (λ e, [e.1; e.2]) es) es.

Definition NODE_OK (G : View) (n : string) : bool :=
  bool_decide (n ∈ v_nodes G).

Definition EDGE_OK (G : View) (u v : string) : bool :=
  bool_decide ((u, v) ∈ v_edges G) || bool_decide ((v, u) ∈ v_edges G).

(** [n in G] *)
Definition view_contains (G : View) (n : string) : bool :=
  bool_decide (is_Some (od_get n (g_node (v_graph G)))) && NODE_OK G n.

(** The iteration [for w in G[v]]: the neighbours of [v] in the underlying
    graph, in their order there, that pass both filters.  The search below
    only evaluates it on nodes of the view; on any other node (a
    [KeyError] in Python) it is empty. *)
Definition view_neighbors (G : View) (v : string) : list string :=
  match od_get v (g_adj (v_graph G)) with
  | Some nbrs =>
      if NODE_OK G v
      then filter (λ w, NODE_OK G w && EDGE_OK G v w = true) (od_keys nbrs)
      else []
  | None => []
  end.

(** ** Breadth-first predecessors *)

(** The three variables of [predecessor(G, source)]: [seen] maps a node to
    the level at which the search met it, [pred] to its predecessors on
    shortest paths, [nextlevel] is the frontier under construction. *)
Record bfs_state := mkBfs {
  bfs_seen : gmap string nat;
  bfs_pred : gmap string (list string);
  bfs_next : list string
}.

(** The body of [for w in G[v]]. *)
Definition bfs_visit (level : nat) (v : string) (st : bfs_state) (w : string)
  : bfs_state :=
  match bfs_seen st !! w with
  | None =>
      mkBfs (<[w := level]> (bfs_seen st)) (<[w := [v]]> (bfs_pred st))
            (bfs_next st ++ [w])
  | Some l =>
      if decide (l = level)
      then mkBfs (bfs_seen st) (alter (λ ps, ps ++ [v]) w (bfs_pred st))
                 (bfs_next st)
      else st
  end.

(** The body of [for v in thislevel]. *)
Definition bfs_scan (nbrs : string → list string) (level : nat)
    (st : bfs_state) (v : string) : bfs_state :=
  foldl (bfs_visit level v) st (nbrs v).

(** One round of [while nextlevel]: the frontier becomes [thislevel] and
    the new frontier starts empty. *)
Definition bfs_level (nbrs : string → list string) (level : nat)
    (st : bfs_state) : bfs_state :=
  foldl (bfs_scan nbrs level)
        (mkBfs (bfs_seen st) (bfs_pred st) []) (bfs_next st).

(** [while nextlevel: level = level + 1; ...], at most [fuel] rounds. *)
Fixpoint bfs_loop (nbrs : string → list string) (fuel level : nat)
    (st : bfs_state) : bfs_state :=
  match fuel with
  | O => st
  | S fuel' =>
      match bfs_next st with
      | [] => st
      | _ :: _ => bfs_loop nbrs fuel' (S level) (bfs_level nbrs (S level) st)
      end
  end.

Definition bfs_init (source : string) : bfs_state :=
  mkBfs {[source := 0%nat]} {[source := []]} [source].

(** [nx.predecessor(G, source)].  Every round but the last one adds a node
    to [seen], so the loop makes at most as many rounds as the underlying
    graph has nodes. *)
Definition predecessor (G : View) (source : string)
  : result (gmap string (list string)) :=
  if view_contains G source
  then Ok (bfs_pred (bfs_loop (view_neighbors G)
                              (length (g_adj (v_graph G))) 0 (bfs_init source)))
  else Raise NodeNotFound.

(** ** Enumerating the paths of a predecessor map *)

(** The depth-first loop of [_build_paths_from_predecessors], written as a
    recursion on its stack.  [stack] holds the chain from the current node
    (its head) back to the target; the nodes on it are the loop's [seen]
    set.  Every round of the loop that finds a source on top of the stack
    yields the stack: once before each predecessor of the top and once
    more when they are exhausted.  The predecessors are tried in order,
    skipping those on the stack.  A node without an entry in [pred] (a
    [KeyError] in Python) has no predecessors here.  The stack never
    repeats a node, so its depth is at most the number of keys of
    [pred]. *)
Fixpoint build_paths (fuel : nat) (pred : gmap string (list string))
    (sources : list string) (stack : list string) : list (list string) :=
  match fuel, stack with
  | S fuel', node :: _ =>
      let here := if decide (node ∈ sources) then [stack] else [] in
      flat_map (λ next,
           here ++
           if decide (next ∈ stack) then []
           else build_paths fuel' pred sources (next :: stack))
         (default [] (pred !! node))
      ++ here
  | _, _ => []
  end.

Definition _build_paths_from_predecessors (sources : list string)
    (target : string) (pred : gmap string (list string))
  : result (list (list string)) :=
  match pred !! target with
  | None => Raise NetworkXNoPath
  | Some _ => Ok (build_paths (size pred) pred sources [target])
  end.

(** [list(nx.all_shortest_paths(G, source, target))] *)
Definition all_shortest_paths (G : View) (source target : string)
  : result (list (list string)) :=
  pred ← predecessor G source;
  _build_paths_from_predecessors [source] target pred.

(** ** The controller *)

(** The action dictionary [{"action": ..., "path": ...}]. *)
Record Action := mkAction {
  a_action : string;
  a_path : list string
}.

(** An entry of [active_flows]. *)
Record Flow := mkFlow {
  f_id : string;
  f_src : string;
  f_dst : string;
  f_primary_path : list string;
  f_backup_path : option (list string);
  f_bandwidth : Z;
  f_priority : Z
}.

Record SDNController := mkController {
  topology : Graph;
  flow_tables : gmap string (gmap string Action);
  active_flows : list Flow
}.

Definition init : SDNController := mkController empty_graph ∅ [].

Definition with_topology (c : SDNController) (g : Graph) : SDNController :=
  mkController g (flow_tables c) (active_flows c).

Definition add_node (c : SDNController) (node_id node_type : string)
  : SDNController :=
  with_topology c (nx_add_node (topology c) node_id node_type).

Definition add_link (c : SDNController) (node1 node2 : string) (bandwidth : Z)
  : SDNController :=
  with_topology c
    (nx_add_edge (topology c) node1 node2 (mkEdge bandwidth 0 true)).

Definition set_available (b : bool) (d : EdgeData) : EdgeData :=
  mkEdge (e_bandwidth d) (e_utilization d) b.

Definition remove_link (c : SDNController) (node1 node2 : string)
  : SDNController :=
  if nx_has_edge (topology c) node1 node2
  then match nx_edge_update (topology c) node1 node2 (set_available false) with
       | Some g => with_topology c g
       | None => c
       end
  else c.

Definition restore_link (c : SDNController) (node1 node2 : string)
  : SDNController :=
  if nx_has_edge (topology c) node1 node2
  then match nx_edge_update (topology c) node1 node2 (set_available true) with
       | Some g => with_topology c g
       | None => c
       end
  else c.

(** [[(u, v) for u, v, d in self.topology.edges(data=True) if d['available']]] *)
Definition available_edges (g : Graph) : list (string * string) :=
  omap (λ '(u, v, r),
          match g_attr g !! r with
          | Some d => if e_available d then Some (u, v) else None
          | None => None
          end)
       (nx_edges g).

Definition live_subgraph (c : SDNController) : View :=
  edge_subgraph (topology c) (available_edges (topology c)).

(** The consecutive node pairs [(path[i], path[i+1])]. *)
Fixpoint hops (path : list string) : list (string * string) :=
  match path with
  | u :: ((v :: _) as rest) => (u, v) :: hops rest
  | _ => []
  end.

Definition _path_utilization (c : SDNController) (path : list string)
  : result Z :=
  foldl (λ total '(u, v),
           t ← total;
           match nx_edge (topology c) u v with
           | Some d => Ok (t + e_utilization d)
           | None => Raise KeyError
           end)
        (Ok 0) (hops path).

(** [min(l, key=...)] on the elements paired with their keys: the first
    element whose key is not above any other. *)
Fixpoint min_from {A} (best : A * Z) (l : list (A * Z)) : A :=
  match l with
  | [] => best.1
  | x :: l' => if bool_decide (x.2 < best.2) then min_from x l'
               else min_from best l'
  end.

Definition py_min {A} (key : A → result Z) (l : list A) : result A :=
  keys ← mapM key l;
  match zip l keys with
  | [] => Raise ValueError
  | x :: l' => Ok (min_from x l')
  end.

Definition compute_paths (c : SDNController) (src dst : string) (priority : Z)
  : result (list (list string)) :=
  let subgraph := live_subgraph c in
  match all_shortest_paths subgraph src dst with
  | Ok all_paths =>
      if bool_decide (priority > 0)
      then p ← py_min (_path_utilization c) all_paths; Ok [p]
      else Ok (take 2 all_paths)
  | Raise NetworkXNoPath => Ok []
  | Raise e => Raise e
  end.

(** [self.flow_tables[switch_id][flow] = action]; [flow_tables] is a
    [defaultdict(dict)], a missing switch starts from the empty table. *)
Definition install_flow (ft : gmap string (gmap string Action))
    (switch_id flow : string) (action : Action)
  : gmap string (gmap string Action) :=
  <[switch_id := <[flow := action]> (default ∅ (ft !! switch_id))]> ft.

(** [path[1:-1]] *)
Definition interior (path : list string) : list string :=
  take (length path - 2) (drop 1 path).

(** The loop [self.topology[u][v]['utilization'] += bandwidth] over the hops
    of the primary path; a missing link stops it with the graph as updated
    so far. *)
Fixpoint add_utilization (g : Graph) (hs : list (string * string))
    (bandwidth : Z) : Graph * result unit :=
  match hs with
  | [] => (g, Ok ())
  | (u, v) :: hs' =>
      match nx_edge_update g u v
              (λ d, mkEdge (e_bandwidth d) (e_utilization d + bandwidth)
                           (e_available d)) with
      | Some g' => add_utilization g' hs' bandwidth
      | None => (g, Raise KeyError)
      end
  end.

Definition flow_id_of (src dst : string) (n : nat) : string :=
  src +:+ "-" +:+ dst +:+ "-" +:+ pretty n.

Definition install_path (ft : gmap string (gmap string Action))
    (flow_id : string) (path : list string)
  : gmap string (gmap string Action) :=
  foldl (λ ft switch, install_flow ft switch flow_id (mkAction "forward" path))
        ft (interior path).

(** [inject_flow]: the controller afterwards and what the call gives back,
    [Ok (Some flow_id)], [Ok None] for the bare [return] after the
    "No available path!" message, or the exception that left it. *)
Definition inject_flow (c : SDNController) (src dst : string)
    (priority bandwidth : Z) : SDNController * result (option string) :=
  match compute_paths c src dst priority with
  | Raise e => (c, Raise e)
  | Ok [] => (c, Ok None)
  | Ok ((primary_path :: _) as paths) =>
      let backup_path :=
        if bool_decide (priority > 1) && bool_decide (1 < length paths)%nat
        then paths !! 1%nat else None in
      match add_utilization (topology c) (hops primary_path) bandwidth with
      | (g, Raise e) => (with_topology c g, Raise e)
      | (g, Ok _) =>
          let flow_id := flow_id_of src dst (length (active_flows c)) in
          let ft1 := install_path (flow_tables c) flow_id primary_path in
          let ft2 :=
            match backup_path with
            | Some ((_ :: _) as bp) => install_path ft1 flow_id bp
            | _ => ft1
            end in
          (mkController g ft2
             (active_flows c ++
                [mkFlow flow_id src dst primary_path backup_path
                        bandwidth priority]),
           Ok (Some flow_id))
      end
  end.

(** ** The example topology of the [__main__] block *)

Definition example : SDNController :=
  let c := foldl (λ c n, add_node c n "switch") init
             ["s1"; "s2"; "s3"; "s4"; "h1"; "h2"] in
  foldl (λ c '(a, b), add_link c a b 100) c
    [("s1", "s2"); ("s1", "s3"); ("s2", "s4"); ("s3", "s4");
     ("h1", "s1"); ("h2", "s4")].

(** ** Hop-count reachability

    [reach nbrs source k w]: some walk of [k] hops leads from [source] to
    [w], each hop going from a node to one of its neighbours. *)
Inductive reach (nbrs : string → list string) (source : string)
  : nat → string → Prop :=
  | reach_O : reach nbrs source 0 source
  | reach_S k v w :
      reach nbrs source k v → w ∈ nbrs v → reach nbrs source (S k) w.

(** The predecessors that the pairs [P] (node, neighbour), scanned in this
    order, give to [w]. *)
Definition preds_in (P : list (string * string)) (w : string) : list string :=
  (filter (λ p, p.2 = w) P).*1.

(** The state of the search after the round of level [k]. *)
Record bfs_inv (nbrs : string → list string) (source : string)
    (k : nat) (st : bfs_state) : Prop := mkBfsInv {
  inv_sound : ∀ w d, bfs_seen st !! w = Some d →
    reach nbrs source d w ∧ (d ≤ k)%nat;
  inv_complete : ∀ w j, reach nbrs source j w → (j ≤ k)%nat →
    ∃ d, bfs_seen st !! w = Some d ∧ (d ≤ j)%nat;
  inv_next : ∀ w, w ∈ bfs_next st ↔ bfs_seen st !! w = Some k;
  inv_pred : ∀ w d, bfs_seen st !! w = Some d →
    ∃ ps, bfs_pred st !! w = Some ps ∧
      ∀ v, v ∈ ps ↔
        ∃ d', d = S d' ∧ bfs_seen st !! v = Some d' ∧ w ∈ nbrs v;
  inv_dom : ∀ w, bfs_seen st !! w = None → bfs_pred st !! w = None;
  inv_size : ∀ w d, bfs_seen st !! w = Some d → (d < size (bfs_seen st))%nat
}.

(** The pairs (node, neighbour) that one round scans, in scan order. *)
Definition scanned (nbrs : string → list string) (thislevel : list string)
  : list (string * string) :=
  thislevel ≫= λ v, (λ w, (v, w)) <$> nbrs v.

(** What the search has established when it stops: [seen] gives every
    reachable node its hop distance and [pred] lists, for each of them, the
    neighbours one hop closer to the source. *)
Record bfs_done (nbrs : string → list string) (source : string)
    (seen : gmap string nat) (pred : gmap string (list string)) : Prop :=
  mkBfsDone {
  done_sound : ∀ w d, seen !! w = Some d → reach nbrs source d w;
  done_min : ∀ w j, reach nbrs source j w →
    ∃ d, seen !! w = Some d ∧ (d ≤ j)%nat;
  done_pred : ∀ w d, seen !! w = Some d →
    ∃ ps, pred !! w = Some ps ∧
      ∀ v, v ∈ ps ↔ ∃ d', d = S d' ∧ seen !! v = Some d' ∧ w ∈ nbrs v;
  done_dom : ∀ w, seen !! w = None → pred !! w = None;
  done_size : ∀ w d, seen !! w = Some d → (d < size seen)%nat
}.

(** [path_in nbrs s t p]: the node sequence [p] leads from [s] to [t] and
    each of its hops goes from a node to one of its neighbours. *)
Definition path_in (nbrs : string → list string) (s t : string)
    (p : list string) : Prop :=
  head p = Some s ∧ last p = Some t ∧ ∀ u v, (u, v) ∈ hops p → v ∈ nbrs u.

(** The sequences that follow a predecessor map from the source on. *)
Inductive pchain (pred : gmap string (list string)) (source : string)
  : list string → string → Prop :=
  | pchain_source : pchain pred source [source] source
  | pchain_step p v w ps :
      pchain pred source p v → pred !! w = Some ps → v ∈ ps →
      pchain pred source (p ++ [w]) w.

(** A path no longer than any other between the same nodes. *)
Definition shortest_in (nbrs : string → list string) (s t : string)
    (p : list string) : Prop :=
  path_in nbrs s t p ∧ ∀ q, path_in nbrs s t q → (length p ≤ length q)%nat.

(** ** Well-formed graphs

    What [add_node] and [add_edge] maintain: the dictionaries have no
    repeated key, [g_node] and [g_adj] have the same keys, the two
    directions of a link hold the same reference, every reference points
    into the store, and different links hold different references. *)
Record graph_wf (g : Graph) : Prop := mkGraphWf {
  wf_adj_keys : NoDup (od_keys (g_adj g));
  wf_nbr_keys : ∀ n nbrs, od_get n (g_adj g) = Some nbrs → NoDup (od_keys nbrs);
  wf_node_adj : ∀ n,
    is_Some (od_get n (g_node g)) ↔ is_Some (od_get n (g_adj g));
  wf_sym : ∀ u v r, nx_edge_ref g u v = Some r → nx_edge_ref g v u = Some r;
  wf_ref : ∀ u v r, nx_edge_ref g u v = Some r → (r < length (g_attr g))%nat;
  wf_inj : ∀ a b u v r,
    nx_edge_ref g a b = Some r → nx_edge_ref g u v = Some r →
    (a = u ∧ b = v) ∨ (a = v ∧ b = u)
}.

(** ** Links, live paths and their utilization *)

(** [self.topology[u][v]['available']], false when there is no such link. *)
Definition link_available (c : SDNController) (u v : string) : bool :=
  match nx_edge (topology c) u v with
  | Some d => e_available d
  | None => false
  end.

(** [self.topology[u][v]['utilization']], 0 when there is no such link. *)
Definition link_util (c : SDNController) (u v : string) : Z :=
  match nx_edge (topology c) u v with
  | Some d => e_utilization d
  | None => 0
  end.

(** A node of the live subgraph is an endpoint of an available link. *)
Definition live_node (c : SDNController) (n : string) : Prop :=
  ∃ m, link_available c n m = true.

(** A path of the live subgraph: it starts at a node of the live subgraph
    and every hop is an available link. *)
Definition live_path (c : SDNController) (src dst : string)
    (p : list string) : Prop :=
  live_node c src ∧ head p = Some src ∧ last p = Some dst ∧
  ∀ u v, (u, v) ∈ hops p → link_available c u v = true.

Definition shortest_live_path (c : SDNController) (src dst : string)
    (p : list string) : Prop :=
  live_path c src dst p ∧
  ∀ q, live_path c src dst q → (length p ≤ length q)%nat.

(** The sum of the utilization of the links of a path. *)
Definition total_utilization (c : SDNController) (p : list string) : Z :=
  foldl (λ total h, total + link_util c h.1 h.2) 0 (hops p).

(** How many of the hops [hs] run over the link between [a] and [b], in
    either direction. *)
Definition crossings (hs : list (string * string)) (a b : string) : nat :=
  length (filter (λ h, h = (a, b) ∨ h = (b, a)) hs).

(** [m] is the first element of [l] whose key is minimal: no element has a
    smaller key and every earlier element has a larger one. *)
Definition first_min {A} (key : A → Z) (l : list A) (m : A) : Prop :=
  ∃ i, l !! i = Some m ∧
       (∀ y, y ∈ l → (key m ≤ key y)%Z) ∧
       (∀ j y, (j < i)%nat → l !! j = Some y → (key m < key y)%Z).

(** ** Reachable controller states

    The operations that change the controller; [compute_paths] only reads
    it.  A state is reachable when a sequence of operations leads to it
    from the initial one. *)
Inductive Op :=
  | OpAddNode (node_id node_type : string)
  | OpAddLink (node1 node2 : string) (bandwidth : Z)
  | OpRemoveLink (node1 node2 : string)
  | OpRestoreLink (node1 node2 : string)
  | OpInjectFlow (src dst : string) (priority bandwidth : Z).

Definition run_op (c : SDNController) (o : Op) : SDNController :=
  match o with
  | OpAddNode n t => add_node c n t
  | OpAddLink a b bw => add_link c a b bw
  | OpRemoveLink a b => remove_link c a b
  | OpRestoreLink a b => restore_link c a b
  | OpInjectFlow s d p bw => (inject_flow c s d p bw).1
  end.

Definition reachable (c : SDNController) : Prop :=
  ∃ ops, c = foldl run_op init ops.

(** [self.flow_tables[switch][flow]], if there is such an entry. *)
Definition flow_entry (c : SDNController) (switch flow : string)
  : option Action :=
  flow_tables c !! switch ≫= λ t, t !! flow.

(** What the operations maintain besides the shape of the graph: the flow
    at position [i] of [active_flows] carries the identifier made from its
    endpoints and [i], every flow-table entry belongs to a recorded flow,
    a recorded primary path leads from the source to the destination of
    its flow, and no flow has a backup path. *)
Record ctrl_inv (c : SDNController) : Prop := mkCtrlInv {
  inv_graph : graph_wf (topology c);
  inv_ids : ∀ i f, active_flows c !! i = Some f →
    f_id f = flow_id_of (f_src f) (f_dst f) i;
  inv_entries : ∀ sw fid a, flow_entry c sw fid = Some a →
    ∃ f, f ∈ active_flows c ∧ f_id f = fid;
  inv_paths : ∀ f, f ∈ active_flows c →
    head (f_primary_path f) = Some (f_src f) ∧
    last (f_primary_path f) = Some (f_dst f) ∧
    f_backup_path f = None
}.

(** A string without the character [-]. *)
Fixpoint dash_free (s : string) : Prop :=
  match s with
  | EmptyString => True
  | String a s' => a ≠ "-"%char ∧ dash_free s'
  end.

(** The number of injections that returned a flow identifier while [ops]
    ran from the state [c]. *)
Fixpoint injected (c : SDNController) (ops : list Op) : nat :=
  match ops with
  | [] => 0
  | o :: ops' =>
      (match o with
       | OpInjectFlow s d p bw =>
           match (inject_flow c s d p bw).2 with
           | Ok (Some _) => 1
           | _ => 0
           end
       | _ => 0
       end + injected (run_op c o) ops')%nat
  end.

(** ** Links and the load of the flows *)

(** [same_link a b u v]: the pairs name the same undirected link. *)
Definition same_link (a b u v : string) : Prop :=
  (u = a ∧ v = b) ∨ (u = b ∧ v = a).

Global Instance same_link_dec a b u v : Decision (same_link a b u v).
Proof. unfold same_link. apply _. Defined.

(** Flow [f] is routed over the link between [a] and [b]. *)
Definition uses_link (f : Flow) (a b : string) : Prop :=
  (a, b) ∈ hops (f_primary_path f) ∨ (b, a) ∈ hops (f_primary_path f).

(** The bandwidth that the flows [fs] put on the link between [a] and
    [b]. *)
Definition flow_load (fs : list Flow) (a b : string) : Z :=
  foldr (λ f total,
           ((if decide (uses_link f a b) then f_bandwidth f else 0) + total)%Z)
        0%Z fs.

(** The operation is an [add_link] on the link between [a] and [b]. *)
Definition relinks (a b : string) (o : Op) : bool :=
  match o with
  | OpAddLink x y _ => bool_decide (same_link x y a b)
  | _ => false
  end.

(** * Ordered dictionaries *)

Section odict_facts.
Context {V : Type}.
Implicit Types (d : list (string * V)) (k : string) (v : V).

Lemma od_get_set d k k' v :
  od_get k' (od_set k v d) = if decide (k' = k) then Some v else od_get k' d.
Proof.
  induction d as [|[k0 v0] d IH]; simpl.
  - by destruct (decide (k' = k)).
  - destruct (decide (k = k0)); simpl; rewrite ?IH;
      repeat case_decide; congruence.
Qed.

Lemma od_get_Some_elem d k v : od_get k d = Some v → (k, v) ∈ d.
Proof.
  induction d as [|[k0 v0] d IH]; simpl; [done|].
  destruct (decide (k = k0)) as [->|?].
  - intros [= ->]. left.
  - intros ?. right. auto.
Qed.

Lemma od_get_is_Some d k : is_Some (od_get k d) ↔ k ∈ od_keys d.
Proof.
  unfold od_keys. induction d as [|[k0 v0] d IH]; simpl.
  - rewrite elem_of_nil. split; [by intros [? ?]|done].
  - rewrite elem_of_cons. destruct (decide (k = k0)) as [->|?].
    + split; [by left|eauto].
    + rewrite IH. naive_solver.
Qed.

Lemma od_elem_get d k v : NoDup (od_keys d) → (k, v) ∈ d → od_get k d = Some v.
Proof.
  unfold od_keys. induction d as [|[k0 v0] d IH]; simpl.
  - by intros _ ?%elem_of_nil.
  - intros [Hk0 Hnd]%NoDup_cons [[= -> ->]|Hin]%elem_of_cons.
    + by rewrite decide_True.
    + rewrite decide_False; [by apply IH|].
      intros ->. apply Hk0. apply list_elem_of_fmap. by exists (k0, v).
Qed.

Lemma od_keys_set d k v :
  od_keys (od_set k v d)
  = if decide (k ∈ od_keys d) then od_keys d else od_keys d ++ [k].
Proof.
  unfold od_keys. induction d as [|[k0 v0] d IH].
  - rewrite decide_False; [done|]. by intros ?%elem_of_nil.
  - cbn [od_set]. destruct (decide (k = k0)) as [->|Hne]; rewrite !fmap_cons.
    + rewrite decide_True; [done|left].
    + rewrite IH. cbn [fst]. destruct (decide (k ∈ d.*1)) as [Hin|Hout].
      * rewrite decide_True; [done|by right].
      * rewrite decide_False; [done|]. by intros [?|?]%elem_of_cons.
Qed.

Lemma od_set_NoDup d k v : NoDup (od_keys d) → NoDup (od_keys (od_set k v d)).
Proof.
  intros Hnd. rewrite od_keys_set. destruct (decide (k ∈ od_keys d)); [done|].
  apply NoDup_app. split_and!; [done| |apply NoDup_singleton].
  intros x Hx ->%list_elem_of_singleton. done.
Qed.

End odict_facts.

(** * Breadth-first search *)

Lemma size_list_to_set_le (l : list string) :
  (size (list_to_set l : gset string) ≤ length l)%nat.
Proof.
  induction l as [|x l IH].
  - rewrite list_to_set_nil, size_empty. simpl. lia.
  - rewrite list_to_set_cons, size_union_alt, size_singleton. simpl.
    assert (size (list_to_set l ∖ {[x]} : gset string)
            ≤ size (list_to_set l : gset string))%nat.
    { apply subseteq_size. set_solver. }
    lia.
Qed.

Section bfs.
Variable nbrs : string → list string.
Variable source : string.

Lemma elem_of_scanned thislevel v w :
  (v, w) ∈ scanned nbrs thislevel ↔ v ∈ thislevel ∧ w ∈ nbrs v.
Proof.
  unfold scanned. rewrite list_elem_of_bind. split.
  - intros (v' & Hin & Hv'). apply list_elem_of_fmap in Hin as (w' & Heq & Hw').
    by simplify_eq.
  - intros [Hv Hw]. exists v. split; [|done].
    apply list_elem_of_fmap. by exists w.
Qed.

Lemma bfs_scan_pairs level thislevel st :
  foldl (bfs_scan nbrs level) st thislevel
  = foldl (λ st p, bfs_visit level p.1 st p.2) st (scanned nbrs thislevel).
Proof.
  revert st. induction thislevel as [|v l IH]; intros st; [done|].
  unfold scanned. simpl. rewrite foldl_app. rewrite <-IH. f_equal.
  unfold bfs_scan. generalize (nbrs v). intros ws. revert st.
  induction ws as [|w ws IHw]; intros st; simpl; [done|]. by rewrite IHw.
Qed.

Lemma elem_of_preds_in P v w : v ∈ preds_in P w ↔ (v, w) ∈ P.
Proof.
  unfold preds_in. rewrite list_elem_of_fmap. split.
  - intros ([v' w'] & -> & Hin). apply list_elem_of_filter in Hin as [Hw Hin].
    simpl in *. by subst.
  - intros Hin. exists (v, w). split; [done|].
    apply list_elem_of_filter. by split.
Qed.

Lemma preds_in_snoc P v w w' :
  preds_in (P ++ [(v, w)]) w'
  = preds_in P w' ++ (if decide (w = w') then [v] else []).
Proof.
  unfold preds_in. rewrite filter_app, fmap_app. f_equal.
  rewrite filter_cons. simpl. by destruct (decide (w = w')).
Qed.

(** What scanning the pairs [P] at level [L] does to a state whose [seen]
    levels are all below [L]. *)
Lemma bfs_visit_pairs L seen0 pred0 P :
  (∀ w d, seen0 !! w = Some d → d ≠ L) →
  let st := foldl (λ st p, bfs_visit L p.1 st p.2) (mkBfs seen0 pred0 []) P in
  (∀ w, bfs_seen st !! w =
     match seen0 !! w with
     | Some d => Some d
     | None => if decide (preds_in P w = []) then None else Some L
     end) ∧
  (∀ w, bfs_pred st !! w =
     match seen0 !! w with
     | Some _ => pred0 !! w
     | None => if decide (preds_in P w = []) then pred0 !! w
               else Some (preds_in P w)
     end) ∧
  (∀ w, w ∈ bfs_next st ↔ seen0 !! w = None ∧ preds_in P w ≠ []).
Proof.
  intros Hlt. cbv zeta. induction P as [|[v w0] P IH] using rev_ind; simpl.
  { split_and!; intros w; simpl.
    - by destruct (seen0 !! w).
    - by destruct (seen0 !! w).
    - rewrite elem_of_nil. naive_solver. }
  rewrite foldl_app. simpl.
  set (st := foldl _ _ P) in *. clearbody st. destruct IH as (IHs & IHp & IHn).
  unfold bfs_visit.
  destruct (bfs_seen st !! w0) as [l|] eqn:Hw0.
  - destruct (decide (l = L)) as [Heq|Hne]; [subst l|]; simpl.
    + (* [w0] was met in this round: one more predecessor *)
      pose proof (IHs w0) as Hs0. rewrite Hw0 in Hs0.
      destruct (seen0 !! w0) as [d|] eqn:Hold.
      { exfalso. eapply Hlt; [exact Hold|]. congruence. }
      destruct (decide (preds_in P w0 = [])) as [|Hne0]; [done|].
      split_and!; intros w; rewrite ?preds_in_snoc.
      * rewrite IHs. destruct (seen0 !! w); [done|].
        destruct (decide (w0 = w)) as [->|]; [|by rewrite app_nil_r].
        destruct (decide (preds_in P w = [])); [done|].
        destruct (decide (preds_in P w ++ [v] = [])) as [Hnil|]; [|done].
        by apply app_eq_nil in Hnil as [? ?].
      * destruct (decide (w0 = w)) as [->|Hw].
        -- rewrite lookup_alter_eq, IHp, Hold.
           destruct (decide (preds_in P w = [])); [done|]. simpl.
           destruct (decide (preds_in P w ++ [v] = [])) as [Hnil|]; [|done].
           by apply app_eq_nil in Hnil as [? ?].
        -- rewrite lookup_alter_ne by done. rewrite IHp, app_nil_r. done.
      * rewrite IHn. destruct (decide (w0 = w)) as [->|]; [|by rewrite app_nil_r].
        split; intros [? ?]; split; try done.
        intros Hnil. by apply app_eq_nil in Hnil as [? ?].
    + (* [w0] was met in an earlier round *)
      pose proof (IHs w0) as Hs0. rewrite Hw0 in Hs0.
      destruct (seen0 !! w0) as [d|] eqn:Hold.
      2:{ destruct (decide (preds_in P w0 = [])); simplify_eq. }
      split_and!; intros w; rewrite ?preds_in_snoc.
      * rewrite IHs. destruct (decide (w0 = w)) as [->|]; [|by rewrite app_nil_r].
        by rewrite Hold.
      * rewrite IHp. destruct (decide (w0 = w)) as [->|]; [|by rewrite app_nil_r].
        by rewrite Hold.
      * rewrite IHn. destruct (decide (w0 = w)) as [->|]; [|by rewrite app_nil_r].
        rewrite Hold. naive_solver.
  - (* [w0] is new *)
    pose proof (IHs w0) as Hs0. rewrite Hw0 in Hs0.
    destruct (seen0 !! w0) as [d|] eqn:Hold; [done|].
    destruct (decide (preds_in P w0 = [])) as [Hnil0|]; [|done].
    split_and!; intros w; simpl; rewrite ?preds_in_snoc.
    + destruct (decide (w0 = w)) as [->|Hw].
      * rewrite lookup_insert_eq, Hold, Hnil0. done.
      * rewrite lookup_insert_ne by done. by rewrite IHs, app_nil_r.
    + destruct (decide (w0 = w)) as [->|Hw].
      * rewrite lookup_insert_eq, Hold, Hnil0. done.
      * rewrite lookup_insert_ne by done. by rewrite IHp, app_nil_r.
    + rewrite elem_of_app, list_elem_of_singleton, IHn.
      destruct (decide (w0 = w)) as [->|Hw].
      * rewrite Hnil0. simpl. naive_solver.
      * rewrite app_nil_r. naive_solver.
Qed.

Lemma preds_in_nil P w : preds_in P w = [] ↔ ∀ v, (v, w) ∉ P.
Proof.
  split.
  - intros Hnil v Hin. apply elem_of_preds_in in Hin. rewrite Hnil in Hin.
    by apply elem_of_nil in Hin.
  - intros Hno. destruct (preds_in P w) as [|v l] eqn:Heq; [done|].
    destruct (Hno v). apply elem_of_preds_in. rewrite Heq. left.
Qed.

Lemma preds_in_cons P w : preds_in P w ≠ [] ↔ ∃ v, (v, w) ∈ P.
Proof.
  split.
  - destruct (preds_in P w) as [|v l] eqn:Heq; [done|]. intros _. exists v.
    apply elem_of_preds_in. rewrite Heq. left.
  - intros [v Hv] Hnil. by apply (proj1 (preds_in_nil P w) Hnil v).
Qed.

Lemma bfs_init_inv : bfs_inv nbrs source 0 (bfs_init source).
Proof.
  split; simpl.
  - intros w d Hw. apply lookup_singleton_Some in Hw as [<- <-].
    split; [constructor|lia].
  - intros w j Hr Hj. assert (j = 0%nat) as -> by lia. inversion Hr; subst.
    exists 0%nat. by rewrite lookup_singleton_eq.
  - intros w. rewrite list_elem_of_singleton, lookup_singleton_Some. naive_solver.
  - intros w d Hw. apply lookup_singleton_Some in Hw as [<- <-].
    exists []. rewrite lookup_singleton_eq. split; [done|].
    intros v. rewrite elem_of_nil. naive_solver.
  - intros w Hw. apply lookup_singleton_None in Hw.
    by apply lookup_singleton_None.
  - intros w d Hw. apply lookup_singleton_Some in Hw as [<- <-].
    rewrite map_size_singleton. lia.
Qed.

Lemma bfs_level_inv k st :
  bfs_inv nbrs source k st →
  bfs_inv nbrs source (S k) (bfs_level nbrs (S k) st).
Proof.
  intros [Hsound Hcompl Hnext Hpred Hdom Hsize].
  unfold bfs_level. rewrite bfs_scan_pairs.
  destruct (bfs_visit_pairs (S k) (bfs_seen st) (bfs_pred st)
              (scanned nbrs (bfs_next st))) as (Hs & Hp & Hn).
  { intros w d Hw. apply Hsound in Hw. lia. }
  set (P := scanned nbrs (bfs_next st)) in *.
  set (st' := foldl _ _ P) in *. clearbody st'.
  assert (HP : ∀ v w, (v, w) ∈ P ↔ bfs_seen st !! v = Some k ∧ w ∈ nbrs v).
  { intros v w. unfold P. by rewrite elem_of_scanned, Hnext. }
  assert (Hkeep : ∀ v d, bfs_seen st !! v = Some d → bfs_seen st' !! v = Some d).
  { intros v d Hv. by rewrite Hs, Hv. }
  assert (Hnew : ∀ v d, bfs_seen st' !! v = Some d →
            bfs_seen st !! v = Some d ∨
            (bfs_seen st !! v = None ∧ d = S k ∧ ∃ u, (u, v) ∈ P)).
  { intros v d. rewrite Hs. destruct (bfs_seen st !! v); [by left|].
    destruct (decide (preds_in P v = [])) as [|Hne]; [done|].
    intros [= <-]. right. by apply preds_in_cons in Hne. }
  assert (Hlow : ∀ v d, (d ≤ k)%nat →
            bfs_seen st' !! v = Some d ↔ bfs_seen st !! v = Some d).
  { intros v d Hd. split; [|apply Hkeep].
    intros [?|(_ & -> & _)]%Hnew; [done|lia]. }
  split.
  - intros w d [Hw|(Hw & -> & u & [Hu Hin]%HP)]%Hnew.
    + apply Hsound in Hw as [? ?]. split; [done|lia].
    + split; [|lia]. apply Hsound in Hu as [Hu _]. by econstructor.
  - intros w j Hr Hj. destruct (decide (j ≤ k)%nat) as [Hle|Hgt].
    { destruct (Hcompl w j Hr Hle) as (d & Hd & ?). exists d. auto. }
    assert (j = S k) as -> by lia. inversion Hr as [|k0 v w0 Hrv Hin]; subst.
    destruct (Hcompl v k Hrv) as (dv & Hdv & Hle); [lia|].
    destruct (bfs_seen st !! w) as [d|] eqn:Hw.
    { exists d. split; [by apply Hkeep|]. apply Hsound in Hw. lia. }
    destruct (decide (dv = k)) as [->|Hne].
    + exists (S k). split; [|lia]. rewrite Hs, Hw.
      destruct (decide (preds_in P w = [])) as [Hnil|]; [|done].
      destruct (proj1 (preds_in_nil P w) Hnil v). by apply HP.
    + apply Hsound in Hdv as [Hdv _].
      destruct (Hcompl w (S dv)) as (d & Hd & _); [by econstructor|lia|].
      congruence.
  - intros w. rewrite Hn. split.
    + intros [Hw Hne]. rewrite Hs, Hw.
      by destruct (decide (preds_in P w = [])).
    + intros [Hw|(Hw & _ & Hex)]%Hnew.
      * apply Hsound in Hw. lia.
      * split; [done|]. by apply preds_in_cons.
  - intros w d Hw'. rewrite Hp.
    apply Hnew in Hw' as [Hw|(Hw & -> & Hex)]; rewrite Hw.
    + destruct (Hpred w d Hw) as (ps & Hps & Hspec). exists ps. split; [done|].
      intros v. rewrite Hspec. apply Hsound in Hw as [_ Hd].
      split; intros (d' & -> & Hv & Hin); exists d';
        (split; [done|split; [|done]]); apply Hlow; (lia || done).
    + apply preds_in_cons in Hex.
      destruct (decide (preds_in P w = [])); [done|].
      eexists. split; [done|]. intros v. rewrite elem_of_preds_in, HP.
      split.
      * intros [Hv Hin]. exists k. split_and!; [done| |done]. by apply Hkeep.
      * intros (d' & [= <-] & Hv & Hin). split; [|done]. by apply Hlow.
  - intros w. rewrite Hs, Hp. destruct (bfs_seen st !! w) eqn:Hw; [done|].
    destruct (decide (preds_in P w = [])); [|done]. intros _. by apply Hdom.
  - intros w d [Hw|(Hw & -> & u & [Hu Hin]%HP)]%Hnew.
    + apply Hsize in Hw. eapply Nat.lt_le_trans; [done|].
      apply map_subseteq_size, map_subseteq_spec. done.
    + pose proof (Hsize u k Hu) as Hlt.
      assert (size (<[w := S k]> (bfs_seen st)) ≤ size (bfs_seen st'))%nat.
      { apply map_subseteq_size, map_subseteq_spec. intros v d.
        rewrite lookup_insert_Some. intros [[Hwv Hd]|[_ Hv]]; [|by apply Hkeep].
        subst v d. rewrite Hs, Hw. destruct (decide (preds_in P w = [])) as [Hnil|]; [|done].
        destruct (proj1 (preds_in_nil P w) Hnil u). by apply HP. }
      rewrite map_size_insert_None in * by done. lia.
Qed.

Lemma bfs_loop_inv fuel k st :
  bfs_inv nbrs source k st →
  ∃ k', bfs_inv nbrs source k' (bfs_loop nbrs fuel k st) ∧
        (bfs_next (bfs_loop nbrs fuel k st) = [] ∨ (fuel + k ≤ k')%nat).
Proof.
  revert k st. induction fuel as [|fuel IH]; intros k st Hinv; simpl.
  { exists k. split; [done|]. right. lia. }
  destruct (bfs_next st) as [|v l] eqn:Hnext.
  { exists k. split; [done|]. by left. }
  destruct (IH (S k) (bfs_level nbrs (S k) st)) as (k' & Hinv' & Hk').
  { by apply bfs_level_inv. }
  exists k'. split; [done|]. destruct Hk'; [by left|right; lia].
Qed.

(** With as many rounds as there are nodes the loop has run to its end. *)
Lemma bfs_loop_done (V : list string) (N : nat) :
  (∀ j w, reach nbrs source j w → w ∈ V) →
  (length V ≤ N)%nat →
  let st := bfs_loop nbrs N 0 (bfs_init source) in
  bfs_done nbrs source (bfs_seen st) (bfs_pred st).
Proof.
  intros HV HN st.
  destruct (bfs_loop_inv N 0 (bfs_init source) bfs_init_inv) as (k & Hinv & Hk).
  fold st in Hinv, Hk. destruct Hinv as [Hsound Hcompl Hnext Hpred Hdom Hsize].
  assert (Hbound : (size (bfs_seen st) ≤ N)%nat).
  { etrans; [|exact HN]. rewrite <-size_dom.
    etrans; [|apply size_list_to_set_le].
    apply subseteq_size. intros w [d Hd]%elem_of_dom.
    apply elem_of_list_to_set. apply Hsound in Hd as [Hd _]. by eapply HV. }
  assert (Hnone : ∀ w, bfs_seen st !! w ≠ Some k).
  { intros w Hw. destruct Hk as [Hnil|Hk].
    - apply Hnext in Hw. rewrite Hnil in Hw. by apply elem_of_nil in Hw.
    - apply Hsize in Hw. lia. }
  assert (Hall : ∀ j w, reach nbrs source j w →
            ∃ d, bfs_seen st !! w = Some d ∧ (d ≤ j)%nat).
  { intros j w Hr. induction Hr as [|j v w Hr (dv & Hdv & Hle) Hin].
    - apply Hcompl; [constructor|lia].
    - destruct (Hsound v dv Hdv) as [Hrv Hk'].
      assert (dv ≠ k) by (intros ->; by apply (Hnone v)).
      destruct (Hcompl w (S dv)) as (d & Hd & ?); [by econstructor|lia|].
      exists d. split; [done|lia]. }
  split; [|intros w j; apply Hall|exact Hpred|exact Hdom|exact Hsize].
  intros w d Hw. by apply Hsound in Hw as [? _].
Qed.

End bfs.

(** * Paths of a predecessor map *)

Lemma hops_snoc p v w : last p = Some v → hops (p ++ [w]) = hops p ++ [(v, w)].
Proof.
  induction p as [|x [|y p] IH]; intros Hlast; simplify_eq/=; [done|].
  f_equal. by apply IH.
Qed.

Lemma hops_cons_elem x p u v : (u, v) ∈ hops p → (u, v) ∈ hops (x :: p).
Proof. destruct p; simpl; [by intros ?%elem_of_nil|]. by right. Qed.

Lemma pchain_last pred source p w : pchain pred source p w → last p = Some w.
Proof. destruct 1; [done|]. by rewrite last_snoc. Qed.

Lemma pchain_inv pred source p w :
  pchain pred source p w →
  (p = [source] ∧ w = source) ∨
  ∃ p' v ps, p = p' ++ [w] ∧ pchain pred source p' v ∧
             pred !! w = Some ps ∧ v ∈ ps.
Proof. destruct 1; [by left|right; eauto 10]. Qed.

Section walks.
Variable nbrs : string → list string.
Variable source : string.

Lemma path_in_nonempty s t p : path_in nbrs s t p → (0 < length p)%nat.
Proof. intros [Hhead _]. destruct p; [done|simpl; lia]. Qed.

Lemma path_in_snoc s p v w :
  path_in nbrs s v p → w ∈ nbrs v → path_in nbrs s w (p ++ [w]).
Proof.
  intros (Hhead & Hlast & Hhops) Hw. split_and!.
  - destruct p; by simplify_eq/=.
  - by rewrite last_snoc.
  - intros u1 u2. rewrite (hops_snoc _ v) by done.
    rewrite elem_of_app, list_elem_of_singleton.
    intros [?|[= -> ->]]; [by apply Hhops|done].
Qed.

Lemma path_in_snoc_inv s w p x :
  p ≠ [] → path_in nbrs s w (p ++ [x]) →
  x = w ∧ ∃ v, path_in nbrs s v p ∧ w ∈ nbrs v.
Proof.
  intros Hp (Hhead & Hlast & Hhops). rewrite last_snoc in Hlast.
  simplify_eq. split; [done|].
  destruct (last p) as [v|] eqn:Hv; [|by apply last_None in Hv].
  exists v. rewrite (hops_snoc _ v) in Hhops by done.
  split; [unfold path_in; split_and!|].
  - destruct p; by simplify_eq/=.
  - done.
  - intros u1 u2 Hin. apply Hhops, elem_of_app. by left.
  - apply Hhops, elem_of_app. right. left.
Qed.

Lemma reach_path k w :
  reach nbrs source k w → ∃ p, path_in nbrs source w p ∧ length p = S k.
Proof.
  induction 1 as [|k v w _ (p & Hp & Hlen) Hw].
  - exists [source]. split; [|done]. unfold path_in. split_and!; try done.
    intros u v. simpl. by intros ?%elem_of_nil.
  - exists (p ++ [w]). split; [by eapply path_in_snoc|].
    rewrite length_app. simpl. lia.
Qed.

Lemma path_reach p w :
  path_in nbrs source w p → reach nbrs source (length p - 1) w.
Proof.
  revert w. induction p as [|x p IH] using rev_ind; intros w Hp.
  { apply path_in_nonempty in Hp. simpl in Hp. lia. }
  destruct (decide (p = [])) as [->|Hne].
  - destruct Hp as (Hhead & Hlast & _). simplify_eq/=. constructor.
  - apply path_in_snoc_inv in Hp as (-> & v & Hp & Hw); [|done].
    rewrite length_app. simpl.
    replace (length p + 1 - 1)%nat with (S (length p - 1)).
    + econstructor; [by apply IH|done].
    + apply path_in_nonempty in Hp. lia.
Qed.

End walks.

Section paths.
Variable nbrs : string → list string.
Variable source : string.
Variable seen : gmap string nat.
Variable pred : gmap string (list string).
Hypothesis Hdone : bfs_done nbrs source seen pred.

Lemma seen_source : seen !! source = Some 0%nat.
Proof.
  destruct (done_min _ _ _ _ Hdone source 0%nat) as (d & Hd & Hle);
    [constructor|].
  by assert (d = 0%nat) as -> by lia.
Qed.

Lemma seen_zero w : seen !! w = Some 0%nat → w = source.
Proof. intros Hw%(done_sound _ _ _ _ Hdone). by inversion Hw. Qed.

Lemma pred_source : pred !! source = Some [].
Proof.
  destruct (done_pred _ _ _ _ Hdone source 0%nat seen_source)
    as (ps & Hps & Hspec).
  destruct ps as [|v ps]; [done|].
  destruct (proj1 (Hspec v)) as (d' & ? & _); [left|done].
Qed.

Lemma pred_elem w d ps v :
  seen !! w = Some d → pred !! w = Some ps →
  v ∈ ps ↔ ∃ d', d = S d' ∧ seen !! v = Some d' ∧ w ∈ nbrs v.
Proof.
  intros Hw Hps.
  destruct (done_pred _ _ _ _ Hdone w d Hw) as (ps' & Hps' & Hspec).
  by simplify_eq.
Qed.

(** The enumeration: from a stack whose top lies [d] hops from the source
    and whose other nodes lie no closer, it yields the chains to the top,
    each continued by the rest of the stack. *)
Lemma build_paths_spec fuel node rest d :
  seen !! node = Some d → (d < fuel)%nat →
  (∀ x, x ∈ node :: rest → ∃ dx, seen !! x = Some dx ∧ (d ≤ dx)%nat) →
  ∀ path, path ∈ build_paths fuel pred [source] (node :: rest)
          ↔ ∃ p, pchain pred source p node ∧ path = p ++ rest.
Proof.
  revert node rest d. induction fuel as [|fuel IH];
    intros node rest d Hnode Hfuel Hstack path; [lia|].
  simpl. destruct d as [|d'].
  - apply seen_zero in Hnode as ->. rewrite pred_source. simpl.
    rewrite decide_True by left. rewrite list_elem_of_singleton.
    split.
    + intros ->. exists [source]. split; [constructor|done].
    + intros (p & [[-> _]|(p' & v & ps & _ & _ & Hps & Hv)]%pchain_inv & ->);
        [done|].
      rewrite pred_source in Hps. simplify_eq. by apply elem_of_nil in Hv.
  - assert (node ≠ source) as Hne.
    { intros ->. rewrite seen_source in Hnode. done. }
    rewrite decide_False by (by rewrite list_elem_of_singleton).
    destruct (done_pred _ _ _ _ Hdone node (S d') Hnode) as (ps & Hps & Hspec).
    rewrite Hps, app_nil_r. simpl. rewrite list_elem_of_bind. split.
    + intros (next & Hpath & Hnext).
      destruct (proj1 (Hspec next) Hnext) as (d0 & [= <-] & Hd0 & Hin).
      destruct (decide (next ∈ node :: rest)) as [Hon|Hoff].
      { by apply elem_of_nil in Hpath. }
      assert (Hstack' : ∀ x, x ∈ next :: node :: rest →
                ∃ dx, seen !! x = Some dx ∧ (d' ≤ dx)%nat).
      { intros x [->|Hx]%elem_of_cons; [by eauto|].
        destruct (Hstack x Hx) as (dx & Hdx & ?). exists dx. split; [done|lia]. }
      apply (IH next (node :: rest) d' Hd0 ltac:(lia) Hstack') in Hpath
        as (p & Hp & ->).
      exists (p ++ [node]). split; [by econstructor|].
      by rewrite <-app_assoc.
    + intros (p & Hp & ->). apply pchain_inv in Hp
        as [[-> ->]|(p' & v & ps' & -> & Hp' & Hps' & Hv)]; [done|].
      simplify_eq. exists v. split; [|done].
      destruct (proj1 (Hspec v) Hv) as (d0 & [= <-] & Hd0 & Hin).
      assert (Hstack' : ∀ x, x ∈ v :: node :: rest →
                ∃ dx, seen !! x = Some dx ∧ (d' ≤ dx)%nat).
      { intros x [->|Hx]%elem_of_cons; [by eauto|].
        destruct (Hstack x Hx) as (dx & Hdx & ?). exists dx. split; [done|lia]. }
      rewrite decide_False.
      * apply (IH v (node :: rest) d' Hd0 ltac:(lia) Hstack').
        exists p'. split; [done|]. by rewrite <-app_assoc.
      * intros Hon. destruct (Hstack v Hon) as (dx & Hdx & ?).
        simplify_eq. lia.
Qed.

Lemma pchain_path p w :
  pchain pred source p w →
  path_in nbrs source w p ∧ ∃ d, seen !! w = Some d ∧ length p = S d.
Proof.
  induction 1 as [|p v w ps _ (Hp & dv & Hdv & Hlen) Hps Hv].
  - split; [|exists 0%nat; by rewrite seen_source].
    unfold path_in. split_and!; try done.
    intros u v. simpl. by intros ?%elem_of_nil.
  - destruct (seen !! w) as [d|] eqn:Hw.
    2:{ apply (done_dom _ _ _ _ Hdone) in Hw. congruence. }
    apply (pred_elem w d ps v Hw Hps) in Hv as (d' & Hd & Hd' & Hin).
    assert (d' = dv) as -> by congruence.
    split; [by eapply path_in_snoc|].
    exists d. split; [done|]. rewrite length_app. simpl. lia.
Qed.

Lemma path_pchain p w d :
  path_in nbrs source w p → seen !! w = Some d → length p = S d →
  pchain pred source p w.
Proof.
  revert w d. induction p as [|x p IH] using rev_ind; intros w d Hp Hw Hlen.
  { done. }
  destruct (decide (p = [])) as [->|Hne].
  - destruct Hp as (Hhead & Hlast & _). simplify_eq/=. constructor.
  - apply path_in_snoc_inv in Hp as (-> & v & Hp & Hin); [|done].
    rewrite length_app in Hlen. simpl in Hlen.
    pose proof (path_in_nonempty _ _ _ _ Hp) as Hpos.
    destruct (done_min _ _ _ _ Hdone v _ (path_reach _ _ _ _ Hp))
      as (dv & Hdv & Hle).
    pose proof (done_sound _ _ _ _ Hdone v dv Hdv) as Hrv.
    destruct (done_min _ _ _ _ Hdone w (S dv)) as (d'' & Hd'' & Hle');
      [by econstructor|].
    simplify_eq. assert (d = S dv) as -> by lia.
    destruct (done_pred _ _ _ _ Hdone w (S dv) Hw) as (ps & Hps & Hspec).
    eapply pchain_step; [|done|].
    + eapply IH; [done..|lia].
    + apply Hspec. eauto.
Qed.

Lemma shortest_in_length t d p :
  seen !! t = Some d →
  shortest_in nbrs source t p ↔ path_in nbrs source t p ∧ length p = S d.
Proof.
  intros Ht. split.
  - intros [Hp Hmin]. split; [done|].
    destruct (reach_path nbrs source d t) as (q & Hq & Hlen).
    { by eapply done_sound. }
    apply Hmin in Hq.
    destruct (done_min _ _ _ _ Hdone t _ (path_reach _ _ _ _ Hp))
      as (d' & Hd' & Hle).
    pose proof (path_in_nonempty _ _ _ _ Hp). simplify_eq. lia.
  - intros [Hp Hlen]. split; [done|]. intros q Hq.
    destruct (done_min _ _ _ _ Hdone t _ (path_reach _ _ _ _ Hq))
      as (d' & Hd' & Hle).
    pose proof (path_in_nonempty _ _ _ _ Hq). simplify_eq. lia.
Qed.

Lemma pchain_levels p w :
  pchain pred source p w → ∀ i x, p !! i = Some x → seen !! x = Some i.
Proof.
  induction 1 as [|p v w ps Hp IH Hps Hv]; intros i x Hi.
  - apply list_lookup_singleton_Some in Hi as [-> <-]. apply seen_source.
  - destruct (pchain_path (p ++ [w]) w) as (_ & d & Hd & Hlen);
      [by econstructor|].
    rewrite length_app in Hlen. simpl in Hlen.
    apply lookup_app_Some in Hi as [Hi|[Hge Hi]]; [by apply IH|].
    apply list_lookup_singleton_Some in Hi as [Hi <-].
    rewrite Hd. f_equal. lia.
Qed.

(** A shortest path visits no node twice. *)
Lemma shortest_in_NoDup t p : shortest_in nbrs source t p → NoDup p.
Proof.
  intros Hp. pose proof Hp as [Hpath _].
  destruct (done_min _ _ _ _ Hdone t _ (path_reach _ _ _ _ Hpath))
    as (d & Hd & _).
  apply (shortest_in_length t d) in Hp as [_ Hlen]; [|done].
  pose proof (pchain_levels p t (path_pchain p t d Hpath Hd Hlen)) as Hlev.
  apply NoDup_alt. intros i j x Hi Hj.
  apply Hlev in Hi, Hj. congruence.
Qed.

Lemma pred_lookup_None t :
  pred !! t = None ↔ ∀ p, ¬ path_in nbrs source t p.
Proof.
  split.
  - intros Ht p Hp.
    destruct (done_min _ _ _ _ Hdone t _ (path_reach _ _ _ _ Hp))
      as (d & Hd & _).
    destruct (done_pred _ _ _ _ Hdone t d Hd) as (ps & Hps & _). congruence.
  - intros Hno. apply (done_dom _ _ _ _ Hdone).
    destruct (seen !! t) as [d|] eqn:Ht; [|done].
    apply (done_sound _ _ _ _ Hdone), reach_path in Ht as (p & Hp & _).
    by destruct (Hno p).
Qed.

(** [_build_paths_from_predecessors] on the map of a finished search:
    no path, or the non-empty list of exactly the shortest paths. *)
Lemma build_paths_from_predecessors_spec t :
  match _build_paths_from_predecessors [source] t pred with
  | Ok ps => ps ≠ [] ∧ ∀ p, p ∈ ps ↔ shortest_in nbrs source t p
  | Raise e => e = NetworkXNoPath ∧ ∀ p, ¬ path_in nbrs source t p
  end.
Proof.
  unfold _build_paths_from_predecessors.
  destruct (pred !! t) as [ps0|] eqn:Ht.
  2:{ split; [done|]. by apply pred_lookup_None. }
  destruct (seen !! t) as [d|] eqn:Hd.
  2:{ apply (done_dom _ _ _ _ Hdone) in Hd. congruence. }
  assert (Hfuel : (d < size pred)%nat).
  { eapply Nat.lt_le_trans; [by eapply done_size|].
    rewrite <-!size_dom. apply subseteq_size.
    intros w [dw Hw]%elem_of_dom. apply elem_of_dom.
    destruct (done_pred _ _ _ _ Hdone w dw Hw) as (ps & Hps & _). eauto. }
  assert (Hspec : ∀ p, p ∈ build_paths (size pred) pred [source] [t]
                       ↔ shortest_in nbrs source t p).
  { intros p. rewrite (shortest_in_length t d) by done.
    rewrite (build_paths_spec (size pred) t [] d Hd Hfuel).
    - split.
      + intros (p' & Hp' & ->). rewrite app_nil_r.
        apply pchain_path in Hp' as (? & d' & ? & ?). by simplify_eq.
      + intros [Hp Hlen]. exists p. rewrite app_nil_r.
        split; [by eapply path_pchain|done].
    - intros x ->%list_elem_of_singleton. eauto. }
  split; [|done].
  destruct (reach_path nbrs source d t) as (q & Hq & Hlen).
  { by eapply done_sound. }
  intros Hnil. assert (q ∈ build_paths (size pred) pred [source] [t]) as Hin.
  { apply Hspec, (shortest_in_length t d); done. }
  rewrite Hnil in Hin. by apply elem_of_nil in Hin.
Qed.

End paths.

(** * The topology graph *)

Lemma adj_set_ref adj u v r a b :
  od_get a (adj_set adj u v r) ≫= od_get b
  = if decide (a = u ∧ b = v) then Some r else od_get a adj ≫= od_get b.
Proof.
  unfold adj_set. rewrite od_get_set.
  destruct (decide (a = u)) as [->|Hne]; simpl.
  - rewrite od_get_set. destruct (decide (b = v)) as [->|Hb].
    + by rewrite decide_True.
    + rewrite decide_False by naive_solver. by destruct (od_get u adj).
  - by rewrite decide_False by naive_solver.
Qed.

Lemma adj_set_is_Some adj u v r a :
  is_Some (od_get a (adj_set adj u v r)) ↔ a = u ∨ is_Some (od_get a adj).
Proof.
  unfold adj_set. rewrite od_get_set. destruct (decide (a = u)); naive_solver.
Qed.

Lemma adj_set_NoDup adj u v r :
  NoDup (od_keys adj) → NoDup (od_keys (adj_set adj u v r)).
Proof. apply od_set_NoDup. Qed.

Lemma adj_set_nbr_NoDup adj u v r :
  (∀ n nbrs, od_get n adj = Some nbrs → NoDup (od_keys nbrs)) →
  ∀ n nbrs, od_get n (adj_set adj u v r) = Some nbrs → NoDup (od_keys nbrs).
Proof.
  intros Hnd n nbrs. unfold adj_set. rewrite od_get_set.
  destruct (decide (n = u)) as [->|?]; [|by apply Hnd].
  intros [= <-]. apply od_set_NoDup.
  destruct (od_get u adj) as [nb|] eqn:Hu; simpl; [by eapply Hnd|].
  apply NoDup_nil_2.
Qed.

Lemma nx_touch_node_attr g n : g_attr (nx_touch_node g n) = g_attr g.
Proof. unfold nx_touch_node. by destruct (od_get n (g_node g)). Qed.

Lemma nx_touch_node_node g n a :
  od_get a (g_node (nx_touch_node g n))
  = match od_get a (g_node g) with
    | Some t => Some t
    | None => if decide (a = n) then Some None else None
    end.
Proof.
  unfold nx_touch_node. destruct (od_get n (g_node g)) as [t|] eqn:Hn; simpl.
  - destruct (od_get a (g_node g)) eqn:Ha; [done|].
    rewrite decide_False; [done|]. intros ->. congruence.
  - rewrite od_get_set. destruct (decide (a = n)) as [->|?].
    + by rewrite Hn.
    + by destruct (od_get a (g_node g)).
Qed.

Lemma nx_touch_node_ref g n a b :
  graph_wf g → nx_edge_ref (nx_touch_node g n) a b = nx_edge_ref g a b.
Proof.
  intros Hwf. unfold nx_touch_node, nx_edge_ref.
  destruct (od_get n (g_node g)) as [t|] eqn:Hn; simpl; [done|].
  rewrite od_get_set. destruct (decide (a = n)) as [->|?]; [|done].
  simpl. destruct (od_get n (g_adj g)) as [nb|] eqn:Hadj; [|done].
  assert (is_Some (od_get n (g_node g))) as [? ?]; [|congruence].
  apply (wf_node_adj _ Hwf). eauto.
Qed.

Lemma nx_touch_node_wf g n : graph_wf g → graph_wf (nx_touch_node g n).
Proof.
  intros Hwf. split.
  - unfold nx_touch_node. destruct (od_get n (g_node g)); simpl;
      [|apply od_set_NoDup]; apply (wf_adj_keys _ Hwf).
  - intros m nbrs. unfold nx_touch_node.
    destruct (od_get n (g_node g)); simpl; [apply (wf_nbr_keys _ Hwf)|].
    rewrite od_get_set. destruct (decide (m = n)).
    + intros [= <-]. apply NoDup_nil_2.
    + apply (wf_nbr_keys _ Hwf).
  - intros m. rewrite nx_touch_node_node. unfold nx_touch_node.
    destruct (od_get n (g_node g)) as [t|] eqn:Hn; simpl.
    + rewrite <-(wf_node_adj _ Hwf).
      destruct (od_get m (g_node g)) eqn:Hm; [done|].
      rewrite decide_False; [done|]. intros ->. congruence.
    + rewrite od_get_set. destruct (decide (m = n)) as [->|?].
      * rewrite Hn. split; eauto.
      * rewrite <-(wf_node_adj _ Hwf). by destruct (od_get m (g_node g)).
  - intros u v r. rewrite !nx_touch_node_ref by done. apply (wf_sym _ Hwf).
  - intros u v r. rewrite nx_touch_node_ref, nx_touch_node_attr by done.
    apply (wf_ref _ Hwf).
  - intros a b u v r. rewrite !nx_touch_node_ref by done. apply (wf_inj _ Hwf).
Qed.

Lemma nx_add_node_wf g n ty : graph_wf g → graph_wf (nx_add_node g n ty).
Proof.
  intros Hwf. unfold nx_add_node.
  destruct (od_get n (g_node g)) as [t|] eqn:Hn.
  - split; simpl; try apply Hwf.
    intros m. rewrite od_get_set, <-(wf_node_adj _ Hwf).
    destruct (decide (m = n)) as [->|?]; [|done]. rewrite Hn. split; eauto.
  - assert (Hadj : od_get n (g_adj g) = None).
    { destruct (od_get n (g_adj g)) eqn:Hadj; [|done].
      assert (is_Some (od_get n (g_node g))) as [? ?]; [|congruence].
      apply (wf_node_adj _ Hwf). eauto. }
    assert (Href : ∀ a b,
      od_get a (od_set n [] (g_adj g)) ≫= od_get b = nx_edge_ref g a b).
    { intros a b. unfold nx_edge_ref. rewrite od_get_set.
      destruct (decide (a = n)) as [->|?]; [|done]. by rewrite Hadj. }
    split; simpl.
    + apply od_set_NoDup, Hwf.
    + intros m nbrs. rewrite od_get_set. destruct (decide (m = n)).
      * intros [= <-]. apply NoDup_nil_2.
      * apply (wf_nbr_keys _ Hwf).
    + intros m. rewrite !od_get_set.
      destruct (decide (m = n)); [split; eauto|apply (wf_node_adj _ Hwf)].
    + intros u v r. unfold nx_edge_ref. simpl. rewrite !Href.
      apply (wf_sym _ Hwf).
    + intros u v r. unfold nx_edge_ref. simpl. rewrite Href.
      apply (wf_ref _ Hwf).
    + intros a b u v r. unfold nx_edge_ref. simpl. rewrite !Href.
      apply (wf_inj _ Hwf).
Qed.

(** The references after [add_edge]: [r] in both directions of the link,
    the old ones elsewhere. *)
Lemma nx_add_edge_ref g u v d a b :
  graph_wf g →
  ∃ r, nx_edge_ref (nx_add_edge g u v d) u v = Some r ∧
       g_attr (nx_add_edge g u v d) !! r = Some d ∧
       (nx_edge_ref g u v = Some r ∨
        (nx_edge_ref g u v = None ∧ r = length (g_attr g))) ∧
       nx_edge_ref (nx_add_edge g u v d) a b
       = if decide ((a = u ∧ b = v) ∨ (a = v ∧ b = u)) then Some r
         else nx_edge_ref g a b.
Proof.
  intros Hwf. unfold nx_add_edge.
  set (g1 := nx_touch_node (nx_touch_node g u) v).
  assert (Hwf1 : graph_wf g1) by by do 2 apply nx_touch_node_wf.
  assert (Href1 : ∀ x y, nx_edge_ref g1 x y = nx_edge_ref g x y).
  { intros x y. unfold g1. rewrite !nx_touch_node_ref; [done..|].
    by apply nx_touch_node_wf. }
  assert (Hattr1 : g_attr g1 = g_attr g).
  { unfold g1. by rewrite !nx_touch_node_attr. }
  assert (Hnew : ∀ r x y,
    od_get x (adj_set (adj_set (g_adj g1) u v r) v u r) ≫= od_get y
    = if decide ((x = u ∧ y = v) ∨ (x = v ∧ y = u)) then Some r
      else nx_edge_ref g x y).
  { intros r x y. rewrite !adj_set_ref. fold (nx_edge_ref g1 x y).
    rewrite Href1. repeat case_decide; naive_solver. }
  fold (nx_edge_ref g1 u v). rewrite Href1.
  destruct (nx_edge_ref g u v) as [r|] eqn:Hr.
  - exists r. split_and!.
    + unfold nx_edge_ref. simpl. rewrite Hnew. by rewrite decide_True by auto.
    + simpl. rewrite Hattr1. apply list_lookup_insert_eq. by eapply wf_ref.
    + by left.
    + unfold nx_edge_ref at 1. simpl. by rewrite Hnew.
  - exists (length (g_attr g)). split_and!.
    + unfold nx_edge_ref. simpl. rewrite Hattr1, Hnew.
      by rewrite decide_True by auto.
    + simpl. rewrite Hattr1, lookup_app_r by done. by rewrite Nat.sub_diag.
    + by right.
    + unfold nx_edge_ref at 1. simpl. by rewrite Hattr1, Hnew.
Qed.

Lemma nx_add_edge_node g u v d a :
  od_get a (g_node (nx_add_edge g u v d))
  = match od_get a (g_node g) with
    | Some t => Some t
    | None => if decide (a = u ∨ a = v) then Some None else None
    end.
Proof.
  assert (g_node (nx_add_edge g u v d)
          = g_node (nx_touch_node (nx_touch_node g u) v)) as ->.
  { unfold nx_add_edge. by destruct (_ ≫= _). }
  rewrite !nx_touch_node_node. destruct (od_get a (g_node g)); [done|].
  repeat case_decide; naive_solver.
Qed.

Lemma nx_add_edge_attr_length g u v d :
  (length (g_attr g) ≤ length (g_attr (nx_add_edge g u v d)))%nat.
Proof.
  unfold nx_add_edge. destruct (_ ≫= _); simpl;
    rewrite ?length_insert, ?length_app, !nx_touch_node_attr; lia.
Qed.

Lemma nx_add_edge_wf g u v d : graph_wf g → graph_wf (nx_add_edge g u v d).
Proof.
  intros Hwf.
  set (g1 := nx_touch_node (nx_touch_node g u) v).
  assert (Hwf1 : graph_wf g1) by by do 2 apply nx_touch_node_wf.
  assert (∃ r, g_adj (nx_add_edge g u v d)
               = adj_set (adj_set (g_adj g1) u v r) v u r) as [r0 Hadj].
  { unfold nx_add_edge. fold g1. destruct (_ ≫= _); simpl; eauto. }
  assert (Hnode : g_node (nx_add_edge g u v d) = g_node g1).
  { unfold nx_add_edge. fold g1. by destruct (_ ≫= _). }
  split.
  - rewrite Hadj. do 2 apply adj_set_NoDup. apply Hwf1.
  - rewrite Hadj. do 2 apply adj_set_nbr_NoDup. apply Hwf1.
  - intros m. rewrite Hadj, Hnode, !adj_set_is_Some, <-(wf_node_adj _ Hwf1).
    unfold g1. rewrite !nx_touch_node_node.
    destruct (od_get m (g_node g)); [naive_solver|].
    repeat case_decide; naive_solver.
  - intros a b r.
    destruct (nx_add_edge_ref g u v d a b Hwf) as (r1 & Hr1 & _ & _ & ->).
    destruct (nx_add_edge_ref g u v d b a Hwf) as (r2 & Hr2 & _ & _ & ->).
    assert (r2 = r1) as -> by congruence.
    destruct (decide ((a = u ∧ b = v) ∨ (a = v ∧ b = u))) as [Hab|Hab].
    + intros [= <-]. rewrite decide_True by naive_solver. done.
    + rewrite decide_False by naive_solver. apply (wf_sym _ Hwf).
  - intros a b r.
    destruct (nx_add_edge_ref g u v d a b Hwf) as (r1 & _ & Hd & _ & ->).
    apply lookup_lt_Some in Hd. case_decide.
    + by intros [= <-].
    + intros Hr%(wf_ref _ Hwf). pose proof (nx_add_edge_attr_length g u v d). lia.
  - intros a b x y r.
    destruct (nx_add_edge_ref g u v d a b Hwf) as (r1 & Hr1 & _ & Hold & ->).
    destruct (nx_add_edge_ref g u v d x y Hwf) as (r2 & Hr2 & _ & _ & ->).
    assert (r2 = r1) as -> by congruence.
    assert (Hfresh : ∀ a' b', nx_edge_ref g a' b' = Some r1 →
              (a' = u ∧ b' = v) ∨ (a' = v ∧ b' = u)).
    { intros a' b' Hr'. destruct Hold as [Hold|[_ ->]].
      - by apply (wf_inj _ Hwf _ _ _ _ _ Hr' Hold).
      - apply (wf_ref _ Hwf) in Hr'. lia. }
    repeat case_decide.
    + intros _ _. naive_solver.
    + intros [= <-] Hxy. apply Hfresh in Hxy. naive_solver.
    + intros Hab [= <-]. apply Hfresh in Hab. naive_solver.
    + apply (wf_inj _ Hwf).
Qed.

Lemma nx_edge_update_Some g u v f g' :
  nx_edge_update g u v f = Some g' →
  g_node g' = g_node g ∧ g_adj g' = g_adj g ∧
  length (g_attr g') = length (g_attr g).
Proof.
  unfold nx_edge_update. destruct (nx_edge_ref g u v); [|done].
  destruct (g_attr g !! _); [|done]. intros [= <-]. simpl.
  by rewrite length_insert.
Qed.

Lemma graph_wf_same_shape g g' :
  g_node g' = g_node g → g_adj g' = g_adj g →
  length (g_attr g') = length (g_attr g) →
  graph_wf g → graph_wf g'.
Proof.
  intros Hnode Hadj Hlen [H1 H2 H3 H4 H5 H6].
  split; unfold nx_edge_ref in *; rewrite ?Hnode, ?Hadj, ?Hlen; done.
Qed.

Lemma nx_edge_update_wf g u v f g' :
  nx_edge_update g u v f = Some g' → graph_wf g → graph_wf g'.
Proof.
  intros (? & ? & ?)%nx_edge_update_Some. by apply graph_wf_same_shape.
Qed.

Lemma add_utilization_shape g hs bw :
  g_node (add_utilization g hs bw).1 = g_node g ∧
  g_adj (add_utilization g hs bw).1 = g_adj g ∧
  length (g_attr (add_utilization g hs bw).1) = length (g_attr g).
Proof.
  revert g. induction hs as [|[u v] hs IH]; intros g; simpl; [done|].
  destruct (nx_edge_update g u v _) as [g'|] eqn:Hupd; [|done].
  apply nx_edge_update_Some in Hupd as (Hn & Ha & Hl).
  destruct (IH g') as (? & ? & ?). split_and!; congruence.
Qed.

Lemma add_utilization_wf g hs bw :
  graph_wf g → graph_wf (add_utilization g hs bw).1.
Proof.
  destruct (add_utilization_shape g hs bw) as (? & ? & ?).
  by apply graph_wf_same_shape.
Qed.

Lemma empty_graph_wf : graph_wf empty_graph.
Proof.
  split; simpl; try done. apply NoDup_nil_2.
Qed.

(** * The live subgraph *)

Lemma nx_edges_go_elem seen adj u v r :
  (u, v, r) ∈ nx_edges_go seen adj →
  ∃ nbrs, (u, nbrs) ∈ adj ∧ (v, r) ∈ nbrs.
Proof.
  revert seen. induction adj as [|[n nbrs] adj IH]; intros seen; simpl.
  { by intros ?%elem_of_nil. }
  rewrite elem_of_app, list_elem_of_omap.
  intros [([nbr r'] & Hin & Heq)|Hin].
  - destruct (decide (nbr ∈ seen)); simplify_eq. exists nbrs. split; [left|done].
  - apply IH in Hin as (nbrs' & ? & ?). exists nbrs'. split; [by right|done].
Qed.

Lemma nx_edges_go_cover seen adj u v r nu nv :
  NoDup (od_keys adj) → (∀ x, x ∈ seen → x ∉ od_keys adj) →
  (u, nu) ∈ adj → (v, r) ∈ nu → (v, nv) ∈ adj → (u, r) ∈ nv →
  (u, v, r) ∈ nx_edges_go seen adj ∨ (v, u, r) ∈ nx_edges_go seen adj.
Proof.
  unfold od_keys. revert seen.
  induction adj as [|[n nbrs] adj IH]; intros seen Hnd Hseen Hu Hvr Hv Hur.
  { by apply elem_of_nil in Hu. }
  simpl in *. apply NoDup_cons in Hnd as [Hn Hnd].
  assert (Hkey : ∀ x (y : list (string * nat)),
            (x, y) ∈ (n, nbrs) :: adj → x ∉ seen).
  { intros x y Hin Hx. apply (Hseen x Hx).
    apply (list_elem_of_fmap_2 fst) in Hin. done. }
  rewrite !elem_of_app, !list_elem_of_omap.
  apply elem_of_cons in Hu as [[= <- <-]|Hu].
  { left. left. exists (v, r). split; [done|].
    rewrite decide_False; [done|]. by eapply Hkey. }
  apply elem_of_cons in Hv as [[= <- <-]|Hv].
  { right. left. exists (u, r). split; [done|].
    rewrite decide_False; [done|]. eapply Hkey. by right. }
  destruct (IH (n :: seen)) as [?|?]; auto.
  intros x [->|Hx]%elem_of_cons; [done|].
  intros Hin. apply (Hseen x Hx). by right.
Qed.

Lemma nx_edge_ref_elem g u v r :
  graph_wf g →
  nx_edge_ref g u v = Some r ↔
  ∃ nbrs, (u, nbrs) ∈ g_adj g ∧ (v, r) ∈ nbrs.
Proof.
  intros Hwf. unfold nx_edge_ref. split.
  - destruct (od_get u (g_adj g)) as [nbrs|] eqn:Hu; [|done]. simpl.
    intros Hv. exists nbrs. split; by apply od_get_Some_elem.
  - intros (nbrs & Hu & Hv).
    apply od_elem_get in Hu; [|apply Hwf]. rewrite Hu. simpl.
    apply od_elem_get; [|done]. by eapply wf_nbr_keys.
Qed.

Lemma nx_edges_ref g u v r :
  graph_wf g → (u, v, r) ∈ nx_edges g → nx_edge_ref g u v = Some r.
Proof.
  intros Hwf Hin. apply nx_edge_ref_elem; [done|].
  by eapply nx_edges_go_elem.
Qed.

Lemma nx_edges_cover g u v r :
  graph_wf g → nx_edge_ref g u v = Some r →
  (u, v, r) ∈ nx_edges g ∨ (v, u, r) ∈ nx_edges g.
Proof.
  intros Hwf Huv. pose proof (wf_sym _ Hwf _ _ _ Huv) as Hvu.
  apply nx_edge_ref_elem in Huv as (nu & ? & ?); [|done].
  apply nx_edge_ref_elem in Hvu as (nv & ? & ?); [|done].
  eapply nx_edges_go_cover; eauto; [apply Hwf|].
  by intros x ?%elem_of_nil.
Qed.

Lemma elem_of_available_edges g u v :
  (u, v) ∈ available_edges g ↔
  ∃ r d, (u, v, r) ∈ nx_edges g ∧ g_attr g !! r = Some d ∧ e_available d = true.
Proof.
  unfold available_edges. rewrite list_elem_of_omap. split.
  - intros ([[u' v'] r] & Hin & Heq).
    destruct (g_attr g !! r) as [d|] eqn:Hd; [|done].
    destruct (e_available d) eqn:Hav; simplify_eq. eauto.
  - intros (r & d & Hin & Hd & Hav). exists (u, v, r). split; [done|].
    by rewrite Hd, Hav.
Qed.

(** Under both filters of the live subgraph, a pair of nodes is an
    available link of the topology. *)
Lemma available_edges_spec g u v :
  graph_wf g →
  ((u, v) ∈ available_edges g ∨ (v, u) ∈ available_edges g) ↔
  ∃ d, nx_edge g u v = Some d ∧ e_available d = true.
Proof.
  intros Hwf. rewrite !elem_of_available_edges. unfold nx_edge. split.
  - intros [(r & d & Hin & Hd & Hav)|(r & d & Hin & Hd & Hav)];
      apply nx_edges_ref in Hin; try done.
    + exists d. by rewrite Hin.
    + apply (wf_sym _ Hwf) in Hin. exists d. by rewrite Hin.
  - intros (d & Hd & Hav).
    destruct (nx_edge_ref g u v) as [r|] eqn:Hr; [|done]. simpl in Hd.
    apply nx_edges_cover in Hr as [?|?]; [left|right|done]; eauto.
Qed.

Lemma elem_of_endpoints (es : list (string * string)) n :
  n ∈ flat_map (λ e, [e.1; e.2]) es ↔
  ∃ m, (n, m) ∈ es ∨ (m, n) ∈ es.
Proof.
  rewrite list_elem_of_In, in_flat_map. split.
  - intros ([a b] & Hin%list_elem_of_In & Hn). simpl in Hn.
    destruct Hn as [<-|[<-|[]]]; eauto.
  - intros (m & [Hin|Hin]); apply list_elem_of_In in Hin;
      eexists; (split; [exact Hin|]); simpl; auto.
Qed.

Lemma live_neighbors g v w :
  graph_wf g →
  w ∈ view_neighbors (edge_subgraph g (available_edges g)) v ↔
  ∃ d, nx_edge g v w = Some d ∧ e_available d = true.
Proof.
  intros Hwf. rewrite <-available_edges_spec by done.
  unfold view_neighbors, NODE_OK, EDGE_OK. simpl. split.
  - destruct (od_get v (g_adj g)) as [nbrs|]; [|by intros ?%elem_of_nil].
    case_bool_decide; [|by intros ?%elem_of_nil].
    intros [Hok _]%list_elem_of_filter.
    apply andb_true_iff in Hok as [_ Hok]. apply orb_true_iff in Hok.
    by rewrite !bool_decide_eq_true in Hok.
  - intros Hes.
    assert (∃ d, nx_edge g v w = Some d ∧ e_available d = true) as (d & Hd & _).
    { by apply available_edges_spec. }
    unfold nx_edge, nx_edge_ref in Hd.
    destruct (od_get v (g_adj g)) as [nbrs|]; [|done]. simpl in Hd.
    destruct (od_get w nbrs) as [r|] eqn:Hw; [|done].
    rewrite bool_decide_eq_true_2.
    2:{ apply elem_of_endpoints. exists w. tauto. }
    apply list_elem_of_filter. split.
    + apply andb_true_iff. split.
      * apply bool_decide_eq_true, elem_of_endpoints. exists v. tauto.
      * apply orb_true_iff. by rewrite !bool_decide_eq_true.
    + apply od_get_is_Some. eauto.
Qed.

Lemma live_contains g n :
  graph_wf g →
  view_contains (edge_subgraph g (available_edges g)) n = true ↔
  ∃ m d, nx_edge g n m = Some d ∧ e_available d = true.
Proof.
  intros Hwf. unfold view_contains, NODE_OK. simpl.
  rewrite andb_true_iff, !bool_decide_eq_true, elem_of_endpoints. split.
  - intros [_ (m & Hm)]. exists m. by apply available_edges_spec.
  - intros (m & d & Hd & Hav). split.
    + apply (wf_node_adj _ Hwf). unfold nx_edge, nx_edge_ref in Hd.
      destruct (od_get n (g_adj g)); [eauto|done].
    + exists m. apply available_edges_spec; eauto.
Qed.

Lemma live_reach_keys g s j w :
  graph_wf g →
  view_contains (edge_subgraph g (available_edges g)) s = true →
  reach (view_neighbors (edge_subgraph g (available_edges g))) s j w →
  w ∈ od_keys (g_adj g).
Proof.
  intros Hwf Hs Hr. apply od_get_is_Some. destruct Hr as [|j v w _ Hw].
  - apply (wf_node_adj _ Hwf). unfold view_contains in Hs.
    apply andb_true_iff in Hs as [Hs _]. by apply bool_decide_eq_true in Hs.
  - apply live_neighbors in Hw as (d & Hd & _); [|done].
    unfold nx_edge in Hd. destruct (nx_edge_ref g v w) as [r|] eqn:Hr; [|done].
    apply (wf_sym _ Hwf) in Hr. unfold nx_edge_ref in Hr.
    destruct (od_get w (g_adj g)); [eauto|done].
Qed.

(** The search only asks for the neighbours of nodes of the view. *)
Lemma live_reach_node_ok g s j w :
  view_contains (edge_subgraph g (available_edges g)) s = true →
  reach (view_neighbors (edge_subgraph g (available_edges g))) s j w →
  NODE_OK (edge_subgraph g (available_edges g)) w = true.
Proof.
  intros Hs Hr. destruct Hr as [|j v w _ Hw].
  - unfold view_contains in Hs. by apply andb_true_iff in Hs as [_ Hs].
  - unfold view_neighbors in Hw.
    destruct (od_get v _); [|by apply elem_of_nil in Hw].
    destruct (NODE_OK _ v); [|by apply elem_of_nil in Hw].
    apply list_elem_of_filter in Hw as [Hok _].
    by apply andb_true_iff in Hok as [Hok _].
Qed.

Lemma live_bfs_done g s :
  graph_wf g →
  let G := edge_subgraph g (available_edges g) in
  view_contains G s = true →
  let st := bfs_loop (view_neighbors G) (length (g_adj g)) 0 (bfs_init s) in
  bfs_done (view_neighbors G) s (bfs_seen st) (bfs_pred st).
Proof.
  intros Hwf G Hs. apply (bfs_loop_done _ _ (od_keys (g_adj g))).
  - intros j w. by apply live_reach_keys.
  - unfold od_keys. by rewrite length_fmap.
Qed.

(** [all_shortest_paths] on the live subgraph of a well-formed graph. *)
Lemma all_shortest_paths_live g s t :
  graph_wf g →
  let G := edge_subgraph g (available_edges g) in
  match all_shortest_paths G s t with
  | Ok ps => view_contains G s = true ∧ ps ≠ [] ∧
             ∀ p, p ∈ ps ↔ shortest_in (view_neighbors G) s t p
  | Raise e =>
      (e = NodeNotFound ∧ view_contains G s = false) ∨
      (e = NetworkXNoPath ∧ view_contains G s = true ∧
       ∀ p, ¬ path_in (view_neighbors G) s t p)
  end.
Proof.
  intros Hwf G. unfold all_shortest_paths, predecessor.
  destruct (view_contains G s) eqn:Hs; simpl; [|by left].
  set (st := bfs_loop _ _ _ _).
  assert (Hdone : bfs_done (view_neighbors G) s (bfs_seen st) (bfs_pred st))
    by exact (live_bfs_done g s Hwf Hs).
  pose proof (build_paths_from_predecessors_spec _ _ _ _ Hdone t) as Hspec.
  destruct (_build_paths_from_predecessors [s] t (bfs_pred st)) as [ps|e].
  - by destruct Hspec.
  - destruct Hspec as [-> ?]. by right.
Qed.

(** * Path selection *)

Section controller.
Variable c : SDNController.
Hypothesis Hwf : graph_wf (topology c).

Lemma link_available_true u v :
  link_available c u v = true ↔
  ∃ d, nx_edge (topology c) u v = Some d ∧ e_available d = true.
Proof.
  unfold link_available. destruct (nx_edge (topology c) u v); naive_solver.
Qed.

Lemma live_node_contains s :
  live_node c s ↔ view_contains (live_subgraph c) s = true.
Proof.
  unfold live_subgraph. rewrite live_contains by done. unfold live_node.
  by setoid_rewrite link_available_true.
Qed.

Lemma live_path_in s t p :
  live_path c s t p ↔
  live_node c s ∧ path_in (view_neighbors (live_subgraph c)) s t p.
Proof.
  unfold live_path, path_in, live_subgraph.
  setoid_rewrite live_neighbors; [|done].
  setoid_rewrite link_available_true. naive_solver.
Qed.

Lemma shortest_live_path_in s t p :
  shortest_live_path c s t p ↔
  live_node c s ∧ shortest_in (view_neighbors (live_subgraph c)) s t p.
Proof.
  unfold shortest_live_path, shortest_in. setoid_rewrite live_path_in.
  naive_solver.
Qed.

(** What the search gives [compute_paths]: an exception when there is no
    path, otherwise the shortest paths of the live subgraph. *)
Lemma all_paths_spec s t :
  match all_shortest_paths (live_subgraph c) s t with
  | Ok ps => ps ≠ [] ∧ ∀ p, p ∈ ps ↔ shortest_live_path c s t p
  | Raise e =>
      (e = NodeNotFound ∧ ¬ live_node c s) ∨
      (e = NetworkXNoPath ∧ live_node c s ∧ ∀ p, ¬ live_path c s t p)
  end.
Proof.
  pose proof (all_shortest_paths_live (topology c) s t Hwf) as Hspec.
  simpl in Hspec. fold (live_subgraph c) in Hspec.
  destruct (all_shortest_paths (live_subgraph c) s t) as [ps|e].
  - destruct Hspec as (Hs & Hne & Hps). split; [done|]. intros p.
    rewrite Hps, shortest_live_path_in, live_node_contains. naive_solver.
  - destruct Hspec as [[-> Hs]|(-> & Hs & Hno)]; [left|right].
    + split; [done|]. rewrite live_node_contains. congruence.
    + rewrite live_node_contains. split_and!; [done..|].
      intros p [_ Hp]%live_path_in. by eapply Hno.
Qed.

Lemma shortest_live_path_NoDup s t p : shortest_live_path c s t p → NoDup p.
Proof.
  intros [Hs Hp]%shortest_live_path_in. apply live_node_contains in Hs.
  eapply shortest_in_NoDup; [|exact Hp].
  by apply (live_bfs_done (topology c) s Hwf).
Qed.

Lemma path_utilization_total p :
  (∀ u v, (u, v) ∈ hops p → link_available c u v = true) →
  _path_utilization c p = Ok (total_utilization c p).
Proof.
  unfold _path_utilization, total_utilization. generalize 0.
  induction (hops p) as [|[u v] hs IH]; intros z Hav; simpl; [done|].
  destruct (proj1 (link_available_true u v)) as (d & Hd & _).
  { apply Hav. left. }
  unfold link_util. simpl. rewrite Hd. apply IH.
  intros u' v' Hin. apply Hav. by right.
Qed.

End controller.

Lemma mapM_Ok {A B} (f : A → result B) (g : A → B) (l : list A) :
  (∀ x, x ∈ l → f x = Ok (g x)) → mapM f l = Ok (g <$> l).
Proof.
  induction l as [|x l IH]; intros Hf; simpl; [done|].
  rewrite (Hf x) by left. simpl. rewrite IH; [done|].
  intros y Hy. apply Hf. by right.
Qed.

Lemma min_from_spec {A} (best : A * Z) (l : list (A * Z)) :
  ∃ i km, (best :: l) !! i = Some (min_from best l, km) ∧
          (∀ y, y ∈ best :: l → (km ≤ y.2)%Z) ∧
          (∀ j y, (j < i)%nat → (best :: l) !! j = Some y → km < y.2).
Proof.
  revert best. induction l as [|x l IH]; intros [b kb]; simpl.
  { exists 0%nat, kb. split_and!; [done| |lia].
    intros y ->%list_elem_of_singleton. simpl. lia. }
  case_bool_decide as Hlt; simpl in Hlt.
  - destruct (IH x) as (i & km & Hi & Hall & Hfirst).
    exists (S i), km. split_and!; [done| |].
    + intros y [->|Hy]%elem_of_cons; [|by apply Hall].
      simpl. specialize (Hall x ltac:(left)). lia.
    + intros [|j] y Hj; simpl.
      * intros [= <-]. simpl. specialize (Hall x ltac:(left)). lia.
      * apply Hfirst. lia.
  - destruct (IH (b, kb)) as (i & km & Hi & Hall & Hfirst).
    assert (Hb : (km ≤ kb)%Z) by apply (Hall (b, kb) ltac:(left)).
    destruct i as [|i].
    + simpl in Hi. exists 0%nat, km. split_and!; [done| |lia].
      simplify_eq. intros y [->|[->|Hy]%elem_of_cons]%elem_of_cons.
      * simpl. lia.
      * lia.
      * apply Hall. by right.
    + simpl in Hi. exists (S (S i)), km. split_and!; [done| |].
      * intros y [->|[->|Hy]%elem_of_cons]%elem_of_cons.
        -- done.
        -- lia.
        -- apply Hall. by right.
      * pose proof (Hfirst 0%nat (b, kb) ltac:(lia) eq_refl) as Hb0.
        simpl in Hb0. intros [|[|j]] y Hj; simpl.
        -- by intros [= <-].
        -- intros [= <-]. lia.
        -- intros Hy. apply (Hfirst (S j)); [lia|done].
Qed.

Lemma zip_with_keys {A} (k : A → Z) (l : list A) :
  zip l (k <$> l) = (λ x, (x, k x)) <$> l.
Proof. induction l as [|x l IH]; [done|]. cbn. by f_equal. Qed.

(** [min] with a key that never fails picks the first minimal element. *)
Lemma py_min_spec {A} (key : A → result Z) (k : A → Z) (l : list A) :
  l ≠ [] → (∀ x, x ∈ l → key x = Ok (k x)) →
  ∃ m, py_min key l = Ok m ∧ first_min k l m.
Proof.
  intros Hne Hkey. unfold py_min. rewrite (mapM_Ok key k) by done. simpl.
  rewrite zip_with_keys. destruct l as [|x l]; [done|]. simpl.
  destruct (min_from_spec (x, k x) ((λ x, (x, k x)) <$> l))
    as (i & km & Hi & Hall & Hfirst).
  change ((x, k x) :: ((λ x, (x, k x)) <$> l))
    with ((λ x, (x, k x)) <$> (x :: l)) in *.
  eexists. split; [done|].
  rewrite list_lookup_fmap in Hi.
  destruct ((x :: l) !! i) as [m|] eqn:Hm; simplify_eq/=.
  exists i. split_and!; [done| |].
  - intros y Hy. apply (Hall (y, k y)).
    by apply (list_elem_of_fmap_2 (λ x, (x, k x)) (x :: l)).
  - intros j y Hj Hy. apply (Hfirst j (y, k y) Hj).
    change ((x, k x) :: ((λ x, (x, k x)) <$> l))
      with ((λ x, (x, k x)) <$> (x :: l)).
    by rewrite list_lookup_fmap, Hy.
Qed.

(** What [compute_paths] returns in a well-formed state. *)
Lemma compute_paths_spec c s d prio :
  graph_wf (topology c) →
  match compute_paths c s d prio with
  | Ok ps =>
      match all_shortest_paths (live_subgraph c) s d with
      | Ok all =>
          all ≠ [] ∧ (∀ p, p ∈ all ↔ shortest_live_path c s d p) ∧
          if bool_decide (prio > 0)
          then ∃ m, ps = [m] ∧ first_min (total_utilization c) all m
          else ps = take 2 all
      | Raise e =>
          e = NetworkXNoPath ∧ ps = [] ∧ live_node c s ∧
          ∀ p, ¬ live_path c s d p
      end
  | Raise e =>
      e = NodeNotFound ∧ ¬ live_node c s ∧
      all_shortest_paths (live_subgraph c) s d = Raise NodeNotFound
  end.
Proof.
  intros Hwf. unfold compute_paths.
  pose proof (all_paths_spec c Hwf s d) as Hspec.
  destruct (all_shortest_paths (live_subgraph c) s d) as [all|e].
  - destruct Hspec as [Hne Hall].
    destruct (py_min_spec (_path_utilization c) (total_utilization c) all Hne)
      as (m & Hm & Hmin).
    { intros p Hp. apply path_utilization_total.
      apply Hall in Hp as [(_ & _ & _ & Hav) _]. done. }
    case_bool_decide; simpl.
    + rewrite Hm. simpl. split_and!; [done..|]. eauto.
    + done.
  - destruct Hspec as [[-> Hs]|(-> & Hs & Hno)]; done.
Qed.

(** Every path that [compute_paths] returns is a shortest path of the
    live subgraph. *)
Lemma compute_paths_elem c s d prio ps p :
  graph_wf (topology c) →
  compute_paths c s d prio = Ok ps → p ∈ ps → shortest_live_path c s d p.
Proof.
  intros Hwf Hcp Hp. pose proof (compute_paths_spec c s d prio Hwf) as Hspec.
  rewrite Hcp in Hspec.
  destruct (all_shortest_paths (live_subgraph c) s d) as [all|e].
  2:{ destruct Hspec as (_ & -> & _). by apply elem_of_nil in Hp. }
  destruct Hspec as (Hne & Hall & Hps). apply Hall. case_bool_decide.
  - destruct Hps as (m & -> & (i & Hi & _)).
    apply list_elem_of_singleton in Hp as ->. by eapply list_elem_of_lookup_2.
  - subst ps. apply elem_of_take in Hp as (i & Hi & _).
    by eapply list_elem_of_lookup_2.
Qed.

(** [compute_paths] raises exactly when the source is not a node of the
    live subgraph, and returns the empty list exactly when it is one and
    no path leads from it to the destination. *)
Lemma compute_paths_outcome c s d prio :
  graph_wf (topology c) →
  (compute_paths c s d prio = Raise NodeNotFound ↔ ¬ live_node c s) ∧
  (compute_paths c s d prio = Ok [] ↔
   live_node c s ∧ ∀ p, ¬ live_path c s d p).
Proof.
  intros Hwf. pose proof (compute_paths_spec c s d prio Hwf) as Hspec.
  pose proof (all_paths_spec c Hwf s d) as Hall.
  destruct (compute_paths c s d prio) as [ps|e].
  - destruct (all_shortest_paths (live_subgraph c) s d) as [all|e].
    + destruct Hspec as (Hne & Hps & Hsel).
      assert (∃ p, p ∈ all) as [p Hp] by (destruct all; [done|eexists; left]).
      assert (Hlive : live_path c s d p) by by apply Hps.
      assert (ps ≠ []).
      { case_bool_decide; [by destruct Hsel as (? & -> & _)|].
        subst ps. by destruct all. }
      split; split.
      * done.
      * intros Hno. by destruct Hlive as [? _].
      * intros [= ->]. done.
      * intros [_ Hno]. by destruct (Hno p).
    + destruct Hspec as (_ & -> & Hs & Hno). split; split; done.
  - destruct Hspec as (-> & Hs & _). split; split; try done.
    intros [? _]. done.
Qed.

(** * Flow identifiers *)

Lemma string_app_cons a s t : String a s +:+ t = String a (s +:+ t).
Proof. done. Qed.

Lemma string_app_assoc s t u : (s +:+ t) +:+ u = s +:+ (t +:+ u).
Proof.
  induction s as [|a s IH]; [done|]. by rewrite !string_app_cons, IH.
Qed.

Lemma dash_free_no_dash p x q : dash_free p → p ≠ x +:+ String "-" q.
Proof.
  revert x. induction p as [|a p IH]; intros x Hp.
  - by destruct x.
  - destruct Hp as [Ha Hp]. destruct x as [|b x].
    + intros [= -> _]. done.
    + rewrite string_app_cons. intros [= _ Heq]. by eapply IH.
Qed.

(** The text after the last [-] of a string. *)
Lemma suffix_after_dash x1 x2 p1 p2 :
  dash_free p1 → dash_free p2 →
  x1 +:+ String "-" p1 = x2 +:+ String "-" p2 → p1 = p2.
Proof.
  intros Hp1 Hp2. revert x2.
  induction x1 as [|a x1 IH]; intros [|b x2]; rewrite ?string_app_cons.
  - by intros [= ->].
  - intros [= _ Heq]. by apply dash_free_no_dash in Heq.
  - intros [= _ Heq]. symmetry in Heq. by apply dash_free_no_dash in Heq.
  - intros [= _ Heq]. by eapply IH.
Qed.

Lemma pretty_N_go_dash_free x s : dash_free s → dash_free (pretty_N_go x s).
Proof.
  revert s. induction (N.lt_wf_0 x) as [x _ IH]; intros s Hs.
  assert (x = 0 ∨ 0 < x)%N as [->|Hpos] by lia.
  - by rewrite pretty_N_go_0.
  - rewrite pretty_N_go_step by done. apply IH; [by apply N.div_lt|].
    simpl. split; [|done]. unfold pretty_N_char. by repeat case_match.
Qed.

Lemma pretty_nat_dash_free (n : nat) : dash_free (pretty n).
Proof.
  unfold pretty, pretty_nat, pretty, pretty_N. case_decide.
  - simpl. split; [|done]. discriminate.
  - by apply pretty_N_go_dash_free.
Qed.

Lemma flow_id_of_split s d n :
  flow_id_of s d n = (s +:+ String "-" d) +:+ String "-" (pretty n).
Proof. unfold flow_id_of. by rewrite string_app_assoc. Qed.

(** A flow identifier determines the sequence number it ends with. *)
Lemma flow_id_of_inj s d n s' d' n' :
  flow_id_of s d n = flow_id_of s' d' n' → n = n'.
Proof.
  rewrite !flow_id_of_split. intros Heq. apply (inj pretty).
  eapply suffix_after_dash; [apply pretty_nat_dash_free..|done].
Qed.

(** * Flow admission *)

Lemma add_utilization_Ok g hs bw :
  graph_wf g →
  (∀ u v, (u, v) ∈ hs → is_Some (nx_edge_ref g u v)) →
  (add_utilization g hs bw).2 = Ok ().
Proof.
  revert g. induction hs as [|[u v] hs IH]; intros g Hwf Hhs; simpl; [done|].
  destruct (Hhs u v) as [r Hr]; [left|].
  unfold nx_edge_update. rewrite Hr.
  destruct (lookup_lt_is_Some_2 (g_attr g) r) as [d Hd]; [by eapply wf_ref|].
  rewrite Hd. apply IH.
  - eapply graph_wf_same_shape; [..|exact Hwf]; simpl; try done.
    by rewrite length_insert.
  - intros u' v' Hin. unfold nx_edge_ref. simpl. apply Hhs. by right.
Qed.

Lemma install_flow_entry ft sw fid a sw' fid' :
  install_flow ft sw fid a !! sw' ≫= (λ t, t !! fid')
  = if decide (sw' = sw ∧ fid' = fid) then Some a
    else ft !! sw' ≫= (λ t, t !! fid').
Proof.
  unfold install_flow. destruct (decide (sw' = sw)) as [->|Hsw].
  - rewrite lookup_insert_eq. simpl. destruct (decide (fid' = fid)) as [->|Hf].
    + rewrite lookup_insert_eq. by rewrite decide_True.
    + rewrite lookup_insert_ne by done. rewrite decide_False by naive_solver.
      destruct (ft !! sw); simpl; [done|apply lookup_empty].
  - rewrite lookup_insert_ne by done. by rewrite decide_False by naive_solver.
Qed.

Lemma install_path_entry ft fid p sw' fid' :
  install_path ft fid p !! sw' ≫= (λ t, t !! fid')
  = if decide (fid' = fid ∧ sw' ∈ interior p) then Some (mkAction "forward" p)
    else ft !! sw' ≫= (λ t, t !! fid').
Proof.
  unfold install_path. generalize (interior p). intros l. revert ft.
  induction l as [|x l IH]; intros ft; simpl.
  - rewrite decide_False; [done|]. intros [_ ?%elem_of_nil]. done.
  - rewrite IH, install_flow_entry.
    destruct (decide (fid' = fid ∧ sw' ∈ l)) as [[-> ?]|Hl].
    + rewrite decide_True; [done|]. split; [done|by right].
    + destruct (decide (sw' = x ∧ fid' = fid)) as [[-> ->]|Hx].
      * rewrite decide_True; [done|]. split; [done|left].
      * rewrite decide_False; [done|].
        intros [-> [->|?]%elem_of_cons]; naive_solver.
Qed.

(** [inject_flow] in a well-formed state, by what [compute_paths] says:
    nothing happens without a path, and with one the flow is routed on the
    first path returned and never gets a backup path. *)
Lemma inject_flow_eq c s d prio bw :
  graph_wf (topology c) →
  inject_flow c s d prio bw =
  match compute_paths c s d prio with
  | Raise e => (c, Raise e)
  | Ok [] => (c, Ok None)
  | Ok (p :: _) =>
      let fid := flow_id_of s d (length (active_flows c)) in
      (mkController (add_utilization (topology c) (hops p) bw).1
         (install_path (flow_tables c) fid p)
         (active_flows c ++ [mkFlow fid s d p None bw prio]),
       Ok (Some fid))
  end.
Proof.
  intros Hwf. unfold inject_flow.
  pose proof (compute_paths_spec c s d prio Hwf) as Hspec.
  destruct (compute_paths c s d prio) as [[|p ps]|e] eqn:Hcp; [done| |done].
  assert (Hp : shortest_live_path c s d p).
  { eapply compute_paths_elem; [done..|left]. }
  assert (Hbackup : (if bool_decide (prio > 1) &&
                        bool_decide (1 < length (p :: ps))%nat
                     then (p :: ps) !! 1%nat else None) = None).
  { destruct (bool_decide (prio > 1)) eqn:Hprio; [|done].
    apply bool_decide_eq_true in Hprio.
    destruct (all_shortest_paths (live_subgraph c) s d) as [all|e];
      [|by destruct Hspec as (_ & ? & _)].
    destruct Hspec as (_ & _ & Hps).
    rewrite bool_decide_eq_true_2 in Hps by lia.
    destruct Hps as (m & [= -> ->] & _). done. }
  rewrite Hbackup.
  pose proof (add_utilization_Ok (topology c) (hops p) bw Hwf) as Hok.
  destruct (add_utilization (topology c) (hops p) bw) as [g r]. simpl in *.
  rewrite Hok; [done|]. intros u v Huv.
  destruct Hp as [(_ & _ & _ & Hav) _].
  apply Hav, link_available_true in Huv as (e & He & _).
  unfold nx_edge in He. destruct (nx_edge_ref (topology c) u v); [eauto|done].
Qed.

Lemma hops_elem_nodes p u v : (u, v) ∈ hops p → u ∈ p ∧ v ∈ p.
Proof.
  induction p as [|x [|y p] IH]; simpl; try by intros ?%elem_of_nil.
  intros [[= -> ->]|Hin]%elem_of_cons.
  - split; [left|right; left].
  - destruct (IH Hin). split; by right.
Qed.

(** A path without repeated nodes runs over each of its links once. *)
Lemma crossings_NoDup p a b :
  NoDup p →
  crossings (hops p) a b
  = if decide ((a, b) ∈ hops p ∨ (b, a) ∈ hops p) then 1%nat else 0%nat.
Proof.
  unfold crossings. induction p as [|x [|y p] IH]; intros Hnd.
  - change (hops []) with (@nil (string * string)).
    rewrite filter_nil, decide_False; [done|].
    by intros [?%elem_of_nil|?%elem_of_nil].
  - change (hops [x]) with (@nil (string * string)).
    rewrite filter_nil, decide_False; [done|].
    by intros [?%elem_of_nil|?%elem_of_nil].
  - apply NoDup_cons in Hnd as [Hx Hnd]. specialize (IH Hnd).
    change (hops (x :: y :: p)) with ((x, y) :: hops (y :: p)).
    rewrite filter_cons.
    assert (Hrest : ∀ u v, (u, v) ∈ hops (y :: p) → u ≠ x ∧ v ≠ x).
    { intros u v [? ?]%hops_elem_nodes. split; congruence. }
    destruct (decide ((x, y) = (a, b) ∨ (x, y) = (b, a))) as [Hxy|Hxy].
    + rewrite decide_True by (rewrite !elem_of_cons; naive_solver).
      cbn [length]. rewrite IH, decide_False; [done|].
      intros [[? ?]%Hrest|[? ?]%Hrest]; naive_solver.
    + rewrite IH. apply decide_ext. rewrite !elem_of_cons. naive_solver.
Qed.

(** The graph after the utilization loop: each link has gained the
    bandwidth once for every hop that runs over it. *)
Lemma add_utilization_util g hs bw a b :
  graph_wf g →
  (∀ u v, (u, v) ∈ hs → is_Some (nx_edge_ref g u v)) →
  e_utilization <$> nx_edge (add_utilization g hs bw).1 a b
  = (λ d, e_utilization d + bw * Z.of_nat (crossings hs a b))
    <$> nx_edge g a b.
Proof.
  unfold crossings. revert g.
  induction hs as [|[u v] hs IH]; intros g Hwf Hhs; simpl.
  { destruct (nx_edge g a b); simpl; [|done]. f_equal. lia. }
  destruct (Hhs u v) as [r Hr]; [left|].
  unfold nx_edge_update. rewrite Hr.
  destruct (lookup_lt_is_Some_2 (g_attr g) r) as [d Hd]; [by eapply wf_ref|].
  rewrite Hd.
  set (g1 := mkGraph _ _ _).
  assert (Hwf1 : graph_wf g1).
  { eapply graph_wf_same_shape; [..|exact Hwf]; simpl; try done.
    by rewrite length_insert. }
  rewrite IH; [|done|].
  2:{ intros u' v' Hin. unfold nx_edge_ref. simpl. apply Hhs. by right. }
  rewrite filter_cons. unfold nx_edge, nx_edge_ref. simpl.
  fold (nx_edge_ref g a b).
  destruct (nx_edge_ref g a b) as [r'|] eqn:Hab; simpl; [|done].
  destruct (decide ((u, v) = (a, b) ∨ (u, v) = (b, a))) as [Hsame|Hdiff].
  - assert (r' = r) as ->.
    { destruct Hsame as [[= <- <-]|[= <- <-]]; [congruence|].
      apply (wf_sym _ Hwf) in Hab. congruence. }
    rewrite list_lookup_insert_eq by by eapply lookup_lt_Some.
    rewrite Hd. simpl. f_equal. lia.
  - assert (r' ≠ r).
    { intros ->. destruct (wf_inj _ Hwf _ _ _ _ _ Hr Hab); naive_solver. }
    by rewrite list_lookup_insert_ne by done.
Qed.

(** * Invariants of the reachable states *)

Lemma ctrl_inv_init : ctrl_inv init.
Proof.
  split; simpl.
  - apply empty_graph_wf.
  - intros i f. by rewrite lookup_nil.
  - intros sw fid a. unfold flow_entry. simpl. by rewrite lookup_empty.
  - intros f ?%elem_of_nil. done.
Qed.

Lemma ctrl_inv_with_topology c g :
  ctrl_inv c → graph_wf g → ctrl_inv (with_topology c g).
Proof. intros [H1 H2 H3 H4] Hg. by split. Qed.

Lemma ctrl_inv_set_link c a b f :
  ctrl_inv c →
  ctrl_inv (if nx_has_edge (topology c) a b
            then match nx_edge_update (topology c) a b f with
                 | Some g => with_topology c g
                 | None => c
                 end
            else c).
Proof.
  intros Hinv. destruct (nx_has_edge (topology c) a b); [|done].
  destruct (nx_edge_update (topology c) a b f) as [g|] eqn:Hupd; [|done].
  apply ctrl_inv_with_topology; [done|].
  eapply nx_edge_update_wf; [done|apply Hinv].
Qed.

Lemma ctrl_inv_inject_flow c s d prio bw :
  ctrl_inv c → ctrl_inv (inject_flow c s d prio bw).1.
Proof.
  intros Hinv. pose proof (inv_graph _ Hinv) as Hwf.
  rewrite inject_flow_eq by done.
  destruct (compute_paths c s d prio) as [[|p ps]|e] eqn:Hcp; [done| |done].
  assert (Hp : shortest_live_path c s d p).
  { eapply compute_paths_elem; [done..|left]. }
  destruct Hp as [(_ & Hhead & Hlast & _) _].
  split; simpl.
  - by apply add_utilization_wf.
  - intros i f Hf. apply lookup_app_Some in Hf as [Hf|[Hi Hf]].
    + by apply (inv_ids _ Hinv).
    + apply list_lookup_singleton_Some in Hf as [Hi' <-]. simpl.
      f_equal. lia.
  - intros sw fid a. unfold flow_entry. simpl. rewrite install_path_entry.
    case_decide as Hnew.
    + intros _. destruct Hnew as [-> _]. eexists.
      split; [apply elem_of_app; right; left|done].
    + intros (f & Hf & Hid)%(inv_entries _ Hinv). exists f.
      split; [|done]. apply elem_of_app. by left.
  - intros f [Hf|Hf%list_elem_of_singleton]%elem_of_app.
    + by apply (inv_paths _ Hinv).
    + by subst f.
Qed.

Lemma ctrl_inv_run_op c o : ctrl_inv c → ctrl_inv (run_op c o).
Proof.
  intros Hinv. destruct o as [n t|a b bw|a b|a b|s d prio bw]; simpl.
  - apply ctrl_inv_with_topology; [done|]. apply nx_add_node_wf, Hinv.
  - apply ctrl_inv_with_topology; [done|]. apply nx_add_edge_wf, Hinv.
  - by apply ctrl_inv_set_link.
  - by apply ctrl_inv_set_link.
  - by apply ctrl_inv_inject_flow.
Qed.

Lemma ctrl_inv_run_ops c ops : ctrl_inv c → ctrl_inv (foldl run_op c ops).
Proof.
  revert c. induction ops as [|o ops IH]; intros c Hinv; simpl; [done|].
  by apply IH, ctrl_inv_run_op.
Qed.

Lemma reachable_inv c : reachable c → ctrl_inv c.
Proof. intros [ops ->]. apply ctrl_inv_run_ops, ctrl_inv_init. Qed.

Lemma reachable_run_op c o : reachable c → reachable (run_op c o).
Proof.
  intros [ops ->]. exists (ops ++ [o]). by rewrite foldl_app.
Qed.

(** The effect of a successful injection on link utilization: the links of
    the primary path, in either direction, gain the bandwidth, and every
    other link keeps its utilization. *)
Lemma inject_flow_utilization c s d prio bw fid :
  reachable c →
  (inject_flow c s d prio bw).2 = Ok (Some fid) →
  ∃ p ps, compute_paths c s d prio = Ok (p :: ps) ∧
    ∀ a b, link_util (inject_flow c s d prio bw).1 a b
           = (link_util c a b
              + if decide ((a, b) ∈ hops p ∨ (b, a) ∈ hops p) then bw else 0)%Z.
Proof.
  intros Hinv%reachable_inv. pose proof (inv_graph _ Hinv) as Hwf.
  rewrite inject_flow_eq by done.
  destruct (compute_paths c s d prio) as [[|p ps]|e] eqn:Hcp; try done.
  intros _. exists p, ps. split; [done|]. intros a b. simpl.
  assert (Hp : shortest_live_path c s d p).
  { eapply compute_paths_elem; [done..|left]. }
  pose proof (add_utilization_util (topology c) (hops p) bw a b Hwf) as Hutil.
  rewrite (crossings_NoDup p a b) in Hutil
    by by eapply shortest_live_path_NoDup.
  unfold link_util. simpl.
  destruct (nx_edge (add_utilization (topology c) (hops p) bw).1 a b)
    as [d'|] eqn:Hd';
    destruct (nx_edge (topology c) a b) as [d0|] eqn:Hd0;
    simpl in Hutil.
  - injection Hutil as ->; [by case_decide; lia|].
    intros u v Huv. destruct Hp as [(_ & _ & _ & Hav) _].
    apply Hav, link_available_true in Huv as (e & He & _).
    unfold nx_edge in He. destruct (nx_edge_ref (topology c) u v); [eauto|done].
  - discriminate Hutil.
    intros u v Huv. destruct Hp as [(_ & _ & _ & Hav) _].
    apply Hav, link_available_true in Huv as (e & He & _).
    unfold nx_edge in He. destruct (nx_edge_ref (topology c) u v); [eauto|done].
  - discriminate Hutil.
    intros u v Huv. destruct Hp as [(_ & _ & _ & Hav) _].
    apply Hav, link_available_true in Huv as (e & He & _).
    unfold nx_edge in He. destruct (nx_edge_ref (topology c) u v); [eauto|done].
  - rewrite decide_False; [lia|]. intros [Hin|Hin];
      destruct Hp as [(_ & _ & _ & Hav) _];
      apply Hav, link_available_true in Hin as (e & He & _).
    + congruence.
    + unfold nx_edge in *.
      destruct (nx_edge_ref (topology c) b a) as [r|] eqn:Hr; [|done].
      apply (wf_sym _ Hwf) in Hr. rewrite Hr in Hd0. simpl in *. congruence.
Qed.


(** * The example topology *)

Lemma example_reachable : reachable example.
Proof.
  exists [OpAddNode "s1" "switch"; OpAddNode "s2" "switch";
          OpAddNode "s3" "switch"; OpAddNode "s4" "switch";
          OpAddNode "h1" "switch"; OpAddNode "h2" "switch";
          OpAddLink "s1" "s2" 100; OpAddLink "s1" "s3" 100;
          OpAddLink "s2" "s4" 100; OpAddLink "s3" "s4" 100;
          OpAddLink "h1" "s1" 100; OpAddLink "h2" "s4" 100].
  reflexivity.
Qed.

Lemma example_live_path :
  live_path example "h1" "h2" ["h1"; "s1"; "s2"; "s4"; "h2"].
Proof.
  split_and!; [by exists "s1"|done..|].
  intros u v Hin. simpl in Hin.
  repeat (apply elem_of_cons in Hin as [[= -> ->]|Hin]; [reflexivity|]).
  by apply elem_of_nil in Hin.
Qed.

(** * Properties of path computation *)

(** C1: in every reachable state, every hop of every path returned by
    [compute_paths] is a link of the topology whose [available] flag is
    true. *)
Theorem compute_paths_only_available_links c src dst priority paths p u v :
  reachable c →
  compute_paths c src dst priority = Ok paths →
  p ∈ paths → (u, v) ∈ hops p →
  link_available c u v = true.
Proof.
  intros Hinv%reachable_inv Hcp Hp Huv.
  destruct (compute_paths_elem c src dst priority paths p (inv_graph _ Hinv)
              Hcp Hp) as [(_ & _ & _ & Hav) _].
  by apply Hav.
Qed.

Lemma compute_paths_only_available_links_witness :
  compute_paths example "h1" "h2" 0
  = Ok [["h1"; "s1"; "s2"; "s4"; "h2"]; ["h1"; "s1"; "s3"; "s4"; "h2"]] ∧
  link_available example "s3" "s4" = true.
Proof.
  split; [reflexivity|].
  apply (compute_paths_only_available_links example "h1" "h2" 0
           [["h1"; "s1"; "s2"; "s4"; "h2"]; ["h1"; "s1"; "s3"; "s4"; "h2"]]
           ["h1"; "s1"; "s3"; "s4"; "h2"]).
  - apply example_reachable.
  - reflexivity.
  - right. left.
  - simpl. right. right. left.
Defined.

(** C2: with a positive priority and at least one path between the two
    nodes in the live subgraph, [compute_paths] returns exactly one path;
    it is a shortest path of the live subgraph, no shortest path has a
    smaller total utilization, and among the shortest paths in the order of
    the search it is the first one of minimal total utilization. *)
Theorem compute_paths_priority_least_utilized c src dst priority :
  reachable c → priority > 0 → (∃ q, live_path c src dst q) →
  ∃ p all,
    compute_paths c src dst priority = Ok [p] ∧
    shortest_live_path c src dst p ∧
    (∀ q, shortest_live_path c src dst q →
          (total_utilization c p ≤ total_utilization c q)%Z) ∧
    _path_utilization c p = Ok (total_utilization c p) ∧
    all_shortest_paths (live_subgraph c) src dst = Ok all ∧
    first_min (total_utilization c) all p.
Proof.
  intros Hinv%reachable_inv Hprio [q Hq].
  pose proof (inv_graph _ Hinv) as Hwf.
  pose proof (compute_paths_spec c src dst priority Hwf) as Hspec.
  destruct (compute_paths c src dst priority) as [ps|e] eqn:Hcp.
  2:{ destruct Hspec as (_ & Hno & _). by destruct Hq as [? _]. }
  destruct (all_shortest_paths (live_subgraph c) src dst) as [all|e].
  2:{ destruct Hspec as (_ & _ & _ & Hno). by destruct (Hno q). }
  destruct Hspec as (Hne & Hall & Hps).
  rewrite bool_decide_eq_true_2 in Hps by done.
  destruct Hps as (m & -> & Hmin). exists m, all.
  assert (Hm : shortest_live_path c src dst m).
  { destruct Hmin as (i & Hi & _). by eapply Hall, list_elem_of_lookup_2. }
  split_and!; try done.
  - intros q' Hq'%Hall. destruct Hmin as (_ & _ & Hle & _). by apply Hle.
  - apply path_utilization_total. by destruct Hm as [(_ & _ & _ & Hav) _].
Qed.

Lemma compute_paths_priority_least_utilized_witness :
  ∃ p all,
    compute_paths example "h1" "h2" 1 = Ok [p] ∧
    shortest_live_path example "h1" "h2" p ∧
    (∀ q, shortest_live_path example "h1" "h2" q →
          (total_utilization example p ≤ total_utilization example q)%Z) ∧
    _path_utilization example p = Ok (total_utilization example p) ∧
    all_shortest_paths (live_subgraph example) "h1" "h2" = Ok all ∧
    first_min (total_utilization example) all p.
Proof.
  apply (compute_paths_priority_least_utilized example "h1" "h2" 1).
  - apply example_reachable.
  - lia.
  - exists ["h1"; "s1"; "s2"; "s4"; "h2"]. apply example_live_path.
Defined.

(** C3: with priority 0, [compute_paths] returns the first two paths that
    the shortest-path search of the live subgraph produced, in that order
    (all of them when there are fewer, none when there is no path); each is
    a shortest path of the live subgraph, so all have the same, minimal,
    number of hops. *)
Theorem compute_paths_balancing_first_two c src dst paths :
  reachable c →
  compute_paths c src dst 0 = Ok paths →
  (length paths ≤ 2)%nat ∧
  (∀ p, p ∈ paths → shortest_live_path c src dst p) ∧
  (∀ p q, p ∈ paths → q ∈ paths → length p = length q) ∧
  paths = take 2 (match all_shortest_paths (live_subgraph c) src dst with
                  | Ok all => all
                  | Raise _ => []
                  end).
Proof.
  intros Hinv%reachable_inv Hcp. pose proof (inv_graph _ Hinv) as Hwf.
  assert (Hshort : ∀ p, p ∈ paths → shortest_live_path c src dst p).
  { intros p. by apply (compute_paths_elem c src dst 0 paths p Hwf). }
  pose proof (compute_paths_spec c src dst 0 Hwf) as Hspec.
  rewrite Hcp in Hspec.
  assert (Heq : paths = take 2 (match all_shortest_paths (live_subgraph c)
                                        src dst with
                                | Ok all => all
                                | Raise _ => []
                                end)).
  { destruct (all_shortest_paths (live_subgraph c) src dst) as [all|e].
    - by destruct Hspec as (_ & _ & Hps).
    - by destruct Hspec as (_ & -> & _). }
  split_and!; [|done| |done].
  - rewrite Heq, length_take. lia.
  - intros p q [Hp Hpmin]%Hshort [Hq Hqmin]%Hshort.
    apply Hpmin in Hq. apply Hqmin in Hp. lia.
Qed.

Lemma compute_paths_balancing_first_two_witness :
  let paths :=
    [["h1"; "s1"; "s2"; "s4"; "h2"]; ["h1"; "s1"; "s3"; "s4"; "h2"]] in
  (length paths ≤ 2)%nat ∧
  (∀ p, p ∈ paths → shortest_live_path example "h1" "h2" p) ∧
  (∀ p q, p ∈ paths → q ∈ paths → length p = length q) ∧
  paths = take 2 (match all_shortest_paths (live_subgraph example) "h1" "h2"
                  with
                  | Ok all => all
                  | Raise _ => []
                  end).
Proof.
  apply (compute_paths_balancing_first_two example "h1" "h2").
  - apply example_reachable.
  - reflexivity.
Defined.

(** * Properties of flow admission *)

(** In every reachable state, when the live subgraph has no path from the
    source to the destination, [inject_flow] leaves the controller as it
    was (link utilization, flow tables and active flows) and gives back no
    flow identifier.  It reaches its "No available path!" message and its
    bare [return] only when the source is a node of the live subgraph;
    when it is not, the call is left by the [NodeNotFound] of the
    search. *)
Lemma inject_flow_no_path_no_mutation c src dst priority bandwidth :
  reachable c → (∀ p, ¬ live_path c src dst p) →
  (inject_flow c src dst priority bandwidth).1 = c ∧
  ((inject_flow c src dst priority bandwidth).2 = Ok None ∧ live_node c src ∨
   (inject_flow c src dst priority bandwidth).2 = Raise NodeNotFound ∧
   ¬ live_node c src).
Proof.
  intros Hinv%reachable_inv Hno. pose proof (inv_graph _ Hinv) as Hwf.
  rewrite inject_flow_eq by done.
  pose proof (compute_paths_spec c src dst priority Hwf) as Hspec.
  destruct (compute_paths c src dst priority) as [[|p ps]|e] eqn:Hcp; simpl.
  - split; [done|]. left. split; [done|].
    destruct (all_shortest_paths (live_subgraph c) src dst) as [all|e].
    + destruct Hspec as (Hne & Hall & Hps). case_bool_decide.
      * by destruct Hps as (? & ? & _).
      * by destruct all.
    + by destruct Hspec as (_ & _ & ? & _).
  - destruct (compute_paths_elem c src dst priority _ p Hwf Hcp) as [Hp _];
      [left|].
    by destruct (Hno p).
  - destruct Hspec as (-> & ? & _). auto.
Qed.

Lemma inject_flow_no_path_no_mutation_witness :
  let c := remove_link example "h2" "s4" in
  (inject_flow c "h1" "h2" 0 10).1 = c ∧
  ((inject_flow c "h1" "h2" 0 10).2 = Ok None ∧ live_node c "h1" ∨
   (inject_flow c "h1" "h2" 0 10).2 = Raise NodeNotFound ∧
   ¬ live_node c "h1").
Proof.
  apply (inject_flow_no_path_no_mutation (remove_link example "h2" "s4")).
  - apply (reachable_run_op example (OpRemoveLink "h2" "s4")).
    apply example_reachable.
  - intros p Hp.
    assert (Hcp : compute_paths (remove_link example "h2" "s4") "h1" "h2" 0
                  = Ok []) by reflexivity.
    pose proof (compute_paths_spec (remove_link example "h2" "s4")
                  "h1" "h2" 0) as Hspec.
    rewrite Hcp in Hspec.
    assert (Hall : all_shortest_paths
                     (live_subgraph (remove_link example "h2" "s4")) "h1" "h2"
                   = Raise NetworkXNoPath) by reflexivity.
    rewrite Hall in Hspec. destruct Hspec as (_ & _ & _ & Hno).
    + apply reachable_inv.
      apply (reachable_run_op example (OpRemoveLink "h2" "s4")).
      apply example_reachable.
    + by apply (Hno p).
Defined.

(** C5: with no path in the live subgraph [inject_flow] mutates nothing,
    but it does not always report the failure.  Once the only link of
    [h1] has failed no path of available links leads from [h1] to [h2],
    and [inject_flow h1 h2] is left by the [NodeNotFound] of the search:
    it neither prints "No available path!" nor returns, though the state
    is as before.  The same pair in the other direction, whose source
    [h2] is still in the live subgraph, is reported as the code means
    to. *)
Theorem inject_flow_absent_source_not_reported :
  let c := remove_link example "h1" "s1" in
  (∀ p, ¬ live_path c "h1" "h2" p) ∧
  inject_flow c "h1" "h2" 0 10 = (c, Raise NodeNotFound) ∧
  (∀ p, ¬ live_path c "h2" "h1" p) ∧
  inject_flow c "h2" "h1" 0 10 = (c, Ok None).
Proof.
  intros c.
  assert (Hwf : graph_wf (topology c)).
  { apply inv_graph, reachable_inv.
    exact (reachable_run_op example (OpRemoveLink "h1" "s1")
             example_reachable). }
  split_and!.
  - intros p [Hsrc _]. revert Hsrc.
    apply (compute_paths_outcome c "h1" "h2" 0 Hwf). vm_compute. reflexivity.
  - vm_compute. reflexivity.
  - apply (compute_paths_outcome c "h2" "h1" 0 Hwf). vm_compute. reflexivity.
  - vm_compute. reflexivity.
Qed.

Lemma active_flows_set_link c a b f :
  active_flows (if nx_has_edge (topology c) a b
                then match nx_edge_update (topology c) a b f with
                     | Some g => with_topology c g
                     | None => c
                     end
                else c) = active_flows c ∧
  flow_tables (if nx_has_edge (topology c) a b
               then match nx_edge_update (topology c) a b f with
                    | Some g => with_topology c g
                    | None => c
                    end
               else c) = flow_tables c.
Proof.
  destruct (nx_has_edge (topology c) a b); [|done].
  by destruct (nx_edge_update (topology c) a b f).
Qed.

(** The active-flow list grows by one with each successful injection and
    with nothing else. *)
Lemma injected_length c ops :
  ctrl_inv c →
  length (active_flows (foldl run_op c ops))
  = (length (active_flows c) + injected c ops)%nat.
Proof.
  revert c. induction ops as [|o ops IH]; intros c Hinv; simpl; [lia|].
  rewrite IH by by apply ctrl_inv_run_op.
  destruct o as [n t|a b bw|a b|a b|s d prio bw]; simpl; try lia.
  - unfold remove_link. destruct (active_flows_set_link c a b
      (set_available false)) as [-> _]. lia.
  - unfold restore_link. destruct (active_flows_set_link c a b
      (set_available true)) as [-> _]. lia.
  - rewrite inject_flow_eq by apply Hinv.
    destruct (compute_paths c s d prio) as [[|p ps]|e]; simpl; try lia.
    rewrite length_app. simpl. lia.
Qed.

Lemma flow_ids_NoDup c : ctrl_inv c → NoDup (f_id <$> active_flows c).
Proof.
  intros Hinv. apply NoDup_alt. intros i j x.
  rewrite !list_lookup_fmap.
  destruct (active_flows c !! i) as [fi|] eqn:Hi; [|done].
  destruct (active_flows c !! j) as [fj|] eqn:Hj; [|done].
  simpl. intros [= <-] [= Heq].
  rewrite (inv_ids _ Hinv i fi Hi), (inv_ids _ Hinv j fj Hj) in Heq.
  symmetry. by eapply flow_id_of_inj.
Qed.

(** C7: after any sequence of operations, a successful injection returns
    the string made of its source, a dash, its destination, a dash and
    the decimal numeral of the number of injections that succeeded before
    it (failed ones are not counted); that string is the identifier of
    the record it appends, and the identifiers of the active-flow list
    are pairwise distinct. *)
Theorem flow_ids_sequential_unique ops src dst priority bandwidth flow_id :
  (inject_flow (foldl run_op init ops) src dst priority bandwidth).2
  = Ok (Some flow_id) →
  flow_id = src +:+ "-" +:+ dst +:+ "-" +:+ pretty (injected init ops) ∧
  f_id <$> last (active_flows
                   (inject_flow (foldl run_op init ops) src dst priority
                      bandwidth).1)
  = Some flow_id ∧
  length (active_flows (foldl run_op init ops)) = injected init ops ∧
  NoDup (f_id <$> active_flows
           (inject_flow (foldl run_op init ops) src dst priority bandwidth).1).
Proof.
  intros Hres.
  assert (Hinv : ctrl_inv (foldl run_op init ops)).
  { apply ctrl_inv_run_ops, ctrl_inv_init. }
  pose proof (injected_length init ops ctrl_inv_init) as Hlen. simpl in Hlen.
  split_and!; [| |done|by apply flow_ids_NoDup, ctrl_inv_inject_flow];
    revert Hres; rewrite inject_flow_eq by apply Hinv;
    destruct (compute_paths _ src dst priority) as [[|p ps]|e];
    intros Hres; simplify_eq/=.
  - by rewrite Hlen.
  - by rewrite last_snoc.
Qed.

Lemma flow_ids_sequential_unique_witness :
  let ops := [OpAddLink "a" "b" 100; OpInjectFlow "a" "zz" 0 10;
              OpInjectFlow "a" "b" 0 10] in
  "a-b-1" = "a" +:+ "-" +:+ "b" +:+ "-" +:+ pretty (injected init ops) ∧
  f_id <$> last (active_flows (inject_flow (foldl run_op init ops) "a" "b" 1 5).1)
  = Some "a-b-1" ∧
  length (active_flows (foldl run_op init ops)) = injected init ops ∧
  NoDup (f_id <$> active_flows
           (inject_flow (foldl run_op init ops) "a" "b" 1 5).1).
Proof.
  apply (flow_ids_sequential_unique
           [OpAddLink "a" "b" 100; OpInjectFlow "a" "zz" 0 10;
            OpInjectFlow "a" "b" 0 10] "a" "b" 1 5 "a-b-1").
  reflexivity.
Defined.

Lemma flow_entry_run_op c o sw fid a :
  ctrl_inv c → flow_entry c sw fid = Some a →
  flow_entry (run_op c o) sw fid = Some a.
Proof.
  intros Hinv Ha. destruct o as [n t|x y bw|x y|x y|s d prio bw]; simpl;
    try done.
  - unfold flow_entry, remove_link.
    by destruct (active_flows_set_link c x y (set_available false)) as [_ ->].
  - unfold flow_entry, restore_link.
    by destruct (active_flows_set_link c x y (set_available true)) as [_ ->].
  - rewrite inject_flow_eq by apply Hinv.
    destruct (compute_paths c s d prio) as [[|p ps]|e]; simpl; try done.
    unfold flow_entry. simpl. rewrite install_path_entry.
    rewrite decide_False; [done|]. intros [-> _].
    destruct (inv_entries _ Hinv _ _ _ Ha) as (f & Hf & Hid).
    apply list_elem_of_lookup in Hf as [i Hi].
    rewrite (inv_ids _ Hinv i f Hi) in Hid.
    apply flow_id_of_inj in Hid. apply lookup_lt_Some in Hi. lia.
Qed.

(** C9: in every reachable state, a flow-table entry stored under a
    (switch, flow identifier) key is still there, with the same action
    record, after any further sequence of operations: no operation
    rewrites or deletes it. *)
Theorem flow_entries_never_change c ops switch flow action :
  reachable c →
  flow_entry c switch flow = Some action →
  flow_entry (foldl run_op c ops) switch flow = Some action.
Proof.
  intros Hinv%reachable_inv. revert c Hinv.
  induction ops as [|o ops IH]; intros c Hinv Ha; simpl; [done|].
  apply IH; [by apply ctrl_inv_run_op|by apply flow_entry_run_op].
Qed.

Lemma flow_entries_never_change_witness :
  let c := run_op example (OpInjectFlow "h1" "h2" 0 10) in
  flow_entry
    (foldl run_op c [OpInjectFlow "h1" "h2" 1 20; OpRemoveLink "s1" "s2";
                     OpInjectFlow "h1" "h2" 2 5; OpAddLink "s1" "s2" 10])
    "s2" "h1-h2-0"
  = Some (mkAction "forward" ["h1"; "s1"; "s2"; "s4"; "h2"]).
Proof.
  apply (flow_entries_never_change
           (run_op example (OpInjectFlow "h1" "h2" 0 10))).
  - apply reachable_run_op, example_reachable.
  - reflexivity.
Defined.

(** C10, as the code has it: in every reachable state, the primary path of
    every active-flow record leads from the source of the flow to its
    destination; it has at least one node, and at least two when source
    and destination differ.  No record has a backup path. *)
Theorem active_flow_paths_shape c f :
  reachable c → f ∈ active_flows c →
  head (f_primary_path f) = Some (f_src f) ∧
  last (f_primary_path f) = Some (f_dst f) ∧
  (1 ≤ length (f_primary_path f))%nat ∧
  (f_src f ≠ f_dst f → (2 ≤ length (f_primary_path f))%nat) ∧
  f_backup_path f = None.
Proof.
  intros Hinv%reachable_inv Hf.
  destruct (inv_paths _ Hinv f Hf) as (Hhead & Hlast & Hbackup).
  split_and!; try done.
  - destruct (f_primary_path f); [done|simpl; lia].
  - intros Hne. destruct (f_primary_path f) as [|x [|y l]]; simplify_eq/=.
    lia.
Qed.

Lemma active_flow_paths_shape_witness :
  let c := run_op example (OpInjectFlow "h1" "h2" 0 10) in
  let f := mkFlow "h1-h2-0" "h1" "h2" ["h1"; "s1"; "s2"; "s4"; "h2"] None
                  10 0 in
  head (f_primary_path f) = Some (f_src f) ∧
  last (f_primary_path f) = Some (f_dst f) ∧
  (1 ≤ length (f_primary_path f))%nat ∧
  (f_src f ≠ f_dst f → (2 ≤ length (f_primary_path f))%nat) ∧
  f_backup_path f = None.
Proof.
  apply (active_flow_paths_shape
           (run_op example (OpInjectFlow "h1" "h2" 0 10))).
  - apply reachable_run_op, example_reachable.
  - vm_compute. left.
Defined.

(** C10, as stated, fails: injecting a flow from a node of the live
    subgraph to itself records the one-node path. *)
Lemma inject_flow_self_path_length_one :
  let c := run_op example (OpInjectFlow "s1" "s1" 0 10) in
  reachable c ∧
  ∃ f, f ∈ active_flows c ∧ f_src f = f_dst f ∧
       f_primary_path f = ["s1"] ∧ ¬ (2 ≤ length (f_primary_path f))%nat.
Proof.
  split; [apply reachable_run_op, example_reachable|].
  exists (mkFlow "s1-s1-0" "s1" "s1" ["s1"] None 10 0).
  split; [vm_compute; left|]. simpl. split_and!; [done..|lia].
Qed.

(** * Properties of the topology store *)

(** C8, as the code has it: in every reachable state, after
    [add_link a b bandwidth] the link between [a] and [b] exists, read from
    either end, with the given bandwidth, utilization 0 and [available]
    true, whatever link was there before; the nodes registered before keep
    their attributes, and an endpoint that was not registered is now a
    node without a ['type'] attribute. *)
Theorem add_link_creates_link c a b bandwidth :
  reachable c →
  nx_has_edge (topology (add_link c a b bandwidth)) a b = true ∧
  nx_edge (topology (add_link c a b bandwidth)) a b
  = Some (mkEdge bandwidth 0 true) ∧
  nx_edge (topology (add_link c a b bandwidth)) b a
  = Some (mkEdge bandwidth 0 true) ∧
  ∀ n, od_get n (g_node (topology (add_link c a b bandwidth)))
       = match od_get n (g_node (topology c)) with
         | Some t => Some t
         | None => if decide (n = a ∨ n = b) then Some None else None
         end.
Proof.
  intros Hinv%reachable_inv. pose proof (inv_graph _ Hinv) as Hwf. simpl.
  set (d := mkEdge bandwidth 0 true).
  destruct (nx_add_edge_ref (topology c) a b d b a Hwf)
    as (r & Hab & Hd & _ & Hba).
  rewrite decide_True in Hba by auto.
  split_and!.
  - unfold nx_has_edge. unfold nx_edge_ref in Hab.
    destruct (od_get a (g_adj (nx_add_edge (topology c) a b d))); [|done].
    simpl in Hab. rewrite Hab. by apply bool_decide_eq_true_2.
  - unfold nx_edge. by rewrite Hab.
  - unfold nx_edge. by rewrite Hba.
  - intros n. apply nx_add_edge_node.
Qed.

Lemma add_link_creates_link_witness :
  nx_has_edge (topology (add_link example "s1" "h9" 40)) "s1" "h9" = true ∧
  nx_edge (topology (add_link example "s1" "h9" 40)) "s1" "h9"
  = Some (mkEdge 40 0 true) ∧
  nx_edge (topology (add_link example "s1" "h9" 40)) "h9" "s1"
  = Some (mkEdge 40 0 true) ∧
  ∀ n, od_get n (g_node (topology (add_link example "s1" "h9" 40)))
       = match od_get n (g_node (topology example)) with
         | Some t => Some t
         | None => if decide (n = "s1" ∨ n = "h9") then Some None else None
         end.
Proof.
  apply (add_link_creates_link example "s1" "h9" 40).
  apply example_reachable.
Defined.

(** C8, as stated, fails: an endpoint that [add_link] creates has no
    ['type'] attribute, so it is not a node of type ['switch']. *)
Lemma add_link_auto_node_untyped :
  reachable init ∧
  od_get "a" (g_node (topology init)) = None ∧
  od_get "a" (g_node (topology (add_link init "a" "b" 100))) = Some None ∧
  od_get "a" (g_node (topology (add_link init "a" "b" 100)))
  ≠ Some (Some "switch").
Proof. split_and!; [by exists []|done..]. Qed.

(** * Where the code departs from its description *)

(** C4: a critical flow gets no backup path.  On the example topology the
    search finds two disjoint shortest paths from [h1] to [h2], but with
    priority 2 [compute_paths] returns one path only, so [inject_flow]
    records no backup path and installs entries on the switches of the
    primary path only; the links of the primary path gain the bandwidth,
    the others keep their utilization. *)
Theorem inject_flow_critical_no_backup :
  compute_paths example "h1" "h2" 0
  = Ok [["h1"; "s1"; "s2"; "s4"; "h2"]; ["h1"; "s1"; "s3"; "s4"; "h2"]] ∧
  compute_paths example "h1" "h2" 2 = Ok [["h1"; "s1"; "s2"; "s4"; "h2"]] ∧
  (inject_flow example "h1" "h2" 2 10).2 = Ok (Some "h1-h2-0") ∧
  active_flows (inject_flow example "h1" "h2" 2 10).1
  = [mkFlow "h1-h2-0" "h1" "h2" ["h1"; "s1"; "s2"; "s4"; "h2"] None 10 2] ∧
  (λ sw, flow_entry (inject_flow example "h1" "h2" 2 10).1 sw "h1-h2-0")
    <$> ["h1"; "s1"; "s2"; "s3"; "s4"; "h2"]
  = [None; Some (mkAction "forward" ["h1"; "s1"; "s2"; "s4"; "h2"]);
     Some (mkAction "forward" ["h1"; "s1"; "s2"; "s4"; "h2"]); None;
     Some (mkAction "forward" ["h1"; "s1"; "s2"; "s4"; "h2"]); None] ∧
  (λ '(u, v), link_util (inject_flow example "h1" "h2" 2 10).1 u v)
    <$> [("h1", "s1"); ("s1", "s2"); ("s2", "s4"); ("s4", "h2");
         ("s1", "s3"); ("s3", "s4")]
  = [10; 10; 10; 10; 0; 0].
Proof. split_and!; reflexivity. Qed.

(** C6: a source that is not in the live subgraph makes [compute_paths]
    raise [NodeNotFound], which its handler for [NetworkXNoPath] does not
    catch: so it is for [h1] once its only link has failed, and for a node
    that was never added.  A missing destination does give the empty
    list. *)
Theorem compute_paths_absent_source_raises :
  compute_paths (remove_link example "h1" "s1") "h1" "h2" 0
  = Raise NodeNotFound ∧
  compute_paths example "h9" "h2" 0 = Raise NodeNotFound ∧
  compute_paths (remove_link example "h1" "s1") "h2" "h1" 0 = Ok [] ∧
  (inject_flow (remove_link example "h1" "s1") "h1" "h2" 0 10).2
  = Raise NodeNotFound.
Proof. split_and!; reflexivity. Qed.

(** * Link attributes under the operations *)

Lemma nx_edge_update_edge g a b f g' u v :
  graph_wf g → nx_edge_update g a b f = Some g' →
  nx_edge g' u v
  = if decide (same_link a b u v) then f <$> nx_edge g u v else nx_edge g u v.
Proof.
  intros Hwf. unfold nx_edge_update.
  destruct (nx_edge_ref g a b) as [r|] eqn:Hr; [|done].
  destruct (g_attr g !! r) as [d|] eqn:Hd; [|done]. intros [= <-].
  unfold nx_edge at 1. unfold nx_edge_ref. simpl.
  fold (nx_edge_ref g u v). unfold nx_edge.
  destruct (nx_edge_ref g u v) as [r'|] eqn:Hr'; simpl.
  2:{ by case_decide. }
  destruct (decide (same_link a b u v)) as [Hsame|Hdiff].
  - assert (r' = r) as ->.
    { destruct Hsame as [[-> ->]|[-> ->]]; [congruence|].
      apply (wf_sym _ Hwf) in Hr'. congruence. }
    rewrite list_lookup_insert_eq by by eapply lookup_lt_Some.
    by rewrite Hd.
  - rewrite list_lookup_insert_ne; [done|]. intros ->.
    destruct (wf_inj _ Hwf _ _ _ _ _ Hr Hr') as [[-> ->]|[-> ->]];
      apply Hdiff; unfold same_link; auto.
Qed.

Lemma nx_has_edge_ref g a b :
  nx_has_edge g a b = true ↔ is_Some (nx_edge_ref g a b).
Proof.
  unfold nx_has_edge, nx_edge_ref. destruct (od_get a (g_adj g)); simpl.
  - apply bool_decide_eq_true.
  - split; [done|by intros [? ?]].
Qed.

Lemma nx_edge_update_is_Some g a b f :
  graph_wf g → is_Some (nx_edge_ref g a b) → is_Some (nx_edge_update g a b f).
Proof.
  intros Hwf [r Hr]. unfold nx_edge_update. rewrite Hr.
  destruct (lookup_lt_is_Some_2 (g_attr g) r) as [d Hd]; [by eapply wf_ref|].
  rewrite Hd. eauto.
Qed.

Lemma nx_edge_ref_None_sym g a b :
  graph_wf g → nx_edge_ref g a b = None → nx_edge_ref g b a = None.
Proof.
  intros Hwf Hab. destruct (nx_edge_ref g b a) as [r|] eqn:Hba; [|done].
  apply (wf_sym _ Hwf) in Hba. congruence.
Qed.

(** The pattern shared by [remove_link] and [restore_link]. *)
Lemma toggle_link_edge c a b f u v :
  graph_wf (topology c) →
  nx_edge (topology (if nx_has_edge (topology c) a b
                     then match nx_edge_update (topology c) a b f with
                          | Some g => with_topology c g
                          | None => c
                          end
                     else c)) u v
  = if decide (same_link a b u v) then f <$> nx_edge (topology c) u v
    else nx_edge (topology c) u v.
Proof.
  intros Hwf. destruct (nx_has_edge (topology c) a b) eqn:Hhas.
  - apply nx_has_edge_ref in Hhas.
    destruct (nx_edge_update_is_Some _ a b f Hwf Hhas) as [g Hg].
    rewrite Hg. simpl. by apply (nx_edge_update_edge _ a b f).
  - assert (Hab : nx_edge_ref (topology c) a b = None).
    { destruct (nx_edge_ref (topology c) a b) eqn:Hr; [|done].
      assert (nx_has_edge (topology c) a b = true); [|congruence].
      apply nx_has_edge_ref. rewrite Hr. eauto. }
    case_decide as Hsame; [|done].
    assert (nx_edge_ref (topology c) u v = None) as Huv.
    { destruct Hsame as [[-> ->]|[-> ->]]; [done|].
      by apply nx_edge_ref_None_sym. }
    unfold nx_edge. by rewrite Huv.
Qed.

Lemma toggle_link_shape c a b f :
  let c' := if nx_has_edge (topology c) a b
            then match nx_edge_update (topology c) a b f with
                 | Some g => with_topology c g
                 | None => c
                 end
            else c in
  g_node (topology c') = g_node (topology c) ∧
  g_adj (topology c') = g_adj (topology c) ∧
  flow_tables c' = flow_tables c ∧ active_flows c' = active_flows c.
Proof.
  simpl. destruct (nx_has_edge (topology c) a b); [|done].
  destruct (nx_edge_update (topology c) a b f) as [g|] eqn:Hg; [|done].
  apply nx_edge_update_Some in Hg as (? & ? & _). done.
Qed.



Lemma toggle_twice c a b bv bv' :
  let toggle bv c :=
    if nx_has_edge (topology c) a b
    then match nx_edge_update (topology c) a b (set_available bv) with
         | Some g => with_topology c g
         | None => c
         end
    else c in
  toggle bv' (toggle bv c) = toggle bv' c.
Proof.
  cbv beta zeta. destruct (nx_has_edge (topology c) a b) eqn:Hhas; cbn iota;
    [|by rewrite Hhas].
  destruct (nx_edge_update (topology c) a b (set_available bv)) as [g|] eqn:Hg;
    cbn iota.
  2:{ by rewrite ?Hhas. }
  unfold nx_edge_update in Hg.
  destruct (nx_edge_ref (topology c) a b) as [r|] eqn:Hr; [|done].
  destruct (g_attr (topology c) !! r) as [d|] eqn:Hd; [|done].
  injection Hg as <-.
  unfold nx_has_edge, nx_edge_update, nx_edge_ref in *. simpl.
  rewrite Hhas, Hr. simpl. rewrite Hd.
  rewrite list_lookup_insert_eq by by eapply lookup_lt_Some.
  unfold with_topology. simpl. by rewrite list_insert_insert_eq.
Qed.

Lemma toggle_same c a b bv d :
  nx_edge (topology c) a b = Some d → e_available d = bv →
  (if nx_has_edge (topology c) a b
   then match nx_edge_update (topology c) a b (set_available bv) with
        | Some g => with_topology c g
        | None => c
        end
   else c) = c.
Proof.
  intros Hd Hav. destruct (nx_has_edge (topology c) a b); [|done].
  unfold nx_edge in Hd. unfold nx_edge_update.
  destruct (nx_edge_ref (topology c) a b) as [r|]; [|done]. simpl in Hd.
  rewrite Hd. destruct c as [[nodes adj attr] ft fl]. simpl in *.
  unfold with_topology. simpl. do 2 f_equal.
  apply list_insert_id. rewrite Hd. f_equal.
  destruct d. simpl in *. by subst.
Qed.

(** X2: for every controller state, of two successive calls among
    [remove_link a b] and [restore_link a b] the second one decides: the
    outcome is that of the second call alone.  In particular each of the
    two is idempotent. *)
Theorem toggle_link_last_wins c a b :
  remove_link (remove_link c a b) a b = remove_link c a b ∧
  restore_link (restore_link c a b) a b = restore_link c a b ∧
  restore_link (remove_link c a b) a b = restore_link c a b ∧
  remove_link (restore_link c a b) a b = remove_link c a b.
Proof.
  split_and!.
  - apply (toggle_twice c a b false false).
  - apply (toggle_twice c a b true true).
  - apply (toggle_twice c a b false true).
  - apply (toggle_twice c a b true false).
Qed.

(** X3: failing a link that is up and restoring it gives back the very
    state one started from; restoring a link that is up, and failing a
    link that is already down, change nothing. *)
Theorem remove_restore_round_trip c a b :
  link_available c a b = true →
  restore_link (remove_link c a b) a b = c ∧
  restore_link c a b = c ∧
  remove_link (remove_link c a b) a b = remove_link c a b.
Proof.
  intros Hav. unfold link_available in Hav.
  destruct (nx_edge (topology c) a b) as [d|] eqn:Hd; [|done].
  assert (Hid : restore_link c a b = c) by by eapply toggle_same.
  split_and!; [|done|apply (toggle_twice c a b false false)].
  etrans; [apply (toggle_twice c a b false true)|done].
Qed.

Lemma remove_restore_round_trip_witness :
  restore_link (remove_link example "s1" "s2") "s1" "s2" = example ∧
  restore_link example "s1" "s2" = example ∧
  remove_link (remove_link example "s1" "s2") "s1" "s2"
  = remove_link example "s1" "s2".
Proof. apply (remove_restore_round_trip example "s1" "s2"). reflexivity. Defined.

Lemma nx_edge_update_sym g a b f :
  graph_wf g → nx_edge_update g a b f = nx_edge_update g b a f.
Proof.
  intros Hwf. unfold nx_edge_update.
  destruct (nx_edge_ref g a b) as [r|] eqn:Hab.
  - by rewrite (wf_sym _ Hwf _ _ _ Hab).
  - by rewrite (nx_edge_ref_None_sym _ _ _ Hwf Hab).
Qed.

Lemma nx_has_edge_sym g a b :
  graph_wf g → nx_has_edge g a b = nx_has_edge g b a.
Proof.
  intros Hwf. apply eq_true_iff_eq. rewrite !nx_has_edge_ref.
  split; intros [r Hr]; apply (wf_sym _ Hwf) in Hr; eauto.
Qed.

(** X4: in every reachable state the order of the two endpoints given to
    [remove_link] and to [restore_link] is immaterial, and a link is seen
    from both of its ends with the same attributes. *)
Theorem link_operations_symmetric c a b :
  reachable c →
  remove_link c a b = remove_link c b a ∧
  restore_link c a b = restore_link c b a ∧
  nx_has_edge (topology c) a b = nx_has_edge (topology c) b a ∧
  nx_edge (topology c) a b = nx_edge (topology c) b a.
Proof.
  intros Hinv%reachable_inv. pose proof (inv_graph _ Hinv) as Hwf.
  unfold remove_link, restore_link.
  rewrite (nx_has_edge_sym _ a b Hwf), !(nx_edge_update_sym _ a b _ Hwf).
  split_and!; try done. unfold nx_edge.
  destruct (nx_edge_ref (topology c) a b) as [r|] eqn:Hab.
  - by rewrite (wf_sym _ Hwf _ _ _ Hab).
  - by rewrite (nx_edge_ref_None_sym _ _ _ Hwf Hab).
Qed.

Lemma link_operations_symmetric_witness :
  remove_link example "s1" "s2" = remove_link example "s2" "s1" ∧
  restore_link example "s1" "s2" = restore_link example "s2" "s1" ∧
  nx_has_edge (topology example) "s1" "s2"
  = nx_has_edge (topology example) "s2" "s1" ∧
  nx_edge (topology example) "s1" "s2" = nx_edge (topology example) "s2" "s1".
Proof. apply (link_operations_symmetric example), example_reachable. Defined.

(** * What routing depends on *)

Lemma reachable_induction (P : SDNController → Prop) :
  P init → (∀ c o, reachable c → P c → P (run_op c o)) →
  ∀ c, reachable c → P c.
Proof.
  intros Hinit Hstep c [ops ->].
  induction ops as [|o ops IH] using rev_ind; [done|].
  rewrite foldl_app. simpl. apply Hstep; [by eexists|done].
Qed.

Lemma available_edges_shape g g' :
  g_adj g' = g_adj g →
  (∀ r, e_available <$> g_attr g' !! r = e_available <$> g_attr g !! r) →
  available_edges g' = available_edges g.
Proof.
  intros Hadj Hav. unfold available_edges, nx_edges. rewrite Hadj.
  induction (nx_edges_go [] (g_adj g)) as [|[[u v] r] l IH]; [done|].
  csimpl. rewrite IH. specialize (Hav r).
  destruct (g_attr g' !! r) as [d'|], (g_attr g !! r) as [d|];
    simplify_eq/=; try done.
  by rewrite Hav.
Qed.

(** The search sees the graph through its nodes, its adjacency and the
    list of available links only. *)
Lemma all_shortest_paths_shape g g' s t :
  g_node g' = g_node g → g_adj g' = g_adj g →
  available_edges g' = available_edges g →
  all_shortest_paths (edge_subgraph g' (available_edges g')) s t
  = all_shortest_paths (edge_subgraph g (available_edges g)) s t.
Proof.
  intros Hnode Hadj Hav.
  unfold all_shortest_paths, predecessor, view_contains, view_neighbors,
    edge_subgraph, NODE_OK, EDGE_OK. simpl.
  by rewrite Hnode, Hadj, Hav.
Qed.

Lemma add_utilization_attr g hs bw r :
  e_available <$> g_attr (add_utilization g hs bw).1 !! r
  = e_available <$> g_attr g !! r ∧
  e_bandwidth <$> g_attr (add_utilization g hs bw).1 !! r
  = e_bandwidth <$> g_attr g !! r.
Proof.
  revert g. induction hs as [|[u v] hs IH]; intros g; simpl; [done|].
  unfold nx_edge_update.
  destruct (nx_edge_ref g u v) as [r0|]; [|done].
  destruct (g_attr g !! r0) as [d|] eqn:Hd; [|done].
  destruct (IH (mkGraph (g_node g) (g_adj g)
    (<[r0 := mkEdge (e_bandwidth d) (e_utilization d + bw) (e_available d)]>
       (g_attr g)))) as [-> ->]. simpl.
  destruct (decide (r = r0)) as [->|Hne].
  - rewrite list_lookup_insert_eq by by eapply lookup_lt_Some.
    by rewrite Hd.
  - by rewrite list_lookup_insert_ne by done.
Qed.

(** The topology after [inject_flow], whatever its outcome, is the one
    before or the one the utilization loop made of it. *)
Lemma inject_flow_topology c s d prio bw :
  topology (inject_flow c s d prio bw).1 = topology c ∨
  ∃ hs, topology (inject_flow c s d prio bw).1
        = (add_utilization (topology c) hs bw).1.
Proof.
  unfold inject_flow.
  destruct (compute_paths c s d prio) as [[|p ps]|e]; simpl; [by left| |by left].
  right. exists (hops p).
  by destruct (add_utilization (topology c) (hops p) bw) as [g [[]|e]].
Qed.

Lemma inject_flow_shape c s d prio bw :
  g_node (topology (inject_flow c s d prio bw).1) = g_node (topology c) ∧
  g_adj (topology (inject_flow c s d prio bw).1) = g_adj (topology c) ∧
  ∀ r, e_available <$> g_attr (topology (inject_flow c s d prio bw).1) !! r
       = e_available <$> g_attr (topology c) !! r ∧
       e_bandwidth <$> g_attr (topology (inject_flow c s d prio bw).1) !! r
       = e_bandwidth <$> g_attr (topology c) !! r.
Proof.
  destruct (inject_flow_topology c s d prio bw) as [->|[hs ->]]; [done|].
  destruct (add_utilization_shape (topology c) hs bw) as (? & ? & _).
  split_and!; try done. intros r. apply add_utilization_attr.
Qed.

(** X5: whatever its outcome and in whatever state, [inject_flow] changes
    neither the nodes, nor the adjacency, nor the availability or the
    bandwidth of any link; so the routes that [compute_paths] returns for
    a priority that is not positive are the same after it as before. *)
Theorem inject_flow_keeps_balanced_routes c s d prio bw s' d' (prio' : Z) u v :
  (prio' ≤ 0)%Z →
  compute_paths (inject_flow c s d prio bw).1 s' d' prio'
  = compute_paths c s' d' prio' ∧
  link_available (inject_flow c s d prio bw).1 u v = link_available c u v ∧
  e_bandwidth <$> nx_edge (topology (inject_flow c s d prio bw).1) u v
  = e_bandwidth <$> nx_edge (topology c) u v ∧
  g_node (topology (inject_flow c s d prio bw).1) = g_node (topology c) ∧
  g_adj (topology (inject_flow c s d prio bw).1) = g_adj (topology c).
Proof.
  intros Hprio.
  destruct (inject_flow_shape c s d prio bw) as (Hnode & Hadj & Hattr).
  split_and!; try done.
  - unfold compute_paths, live_subgraph.
    rewrite (all_shortest_paths_shape (topology c)); try done.
    + rewrite bool_decide_eq_false_2 by lia. done.
    + apply available_edges_shape; [done|]. intros r. apply Hattr.
  - unfold link_available, nx_edge, nx_edge_ref. rewrite Hadj.
    destruct (od_get u (g_adj (topology c)) ≫= od_get v) as [r|]; [|done].
    simpl. destruct (Hattr r) as [Hav _].
    destruct (g_attr _ !! r), (g_attr (topology c) !! r); by simplify_eq/=.
  - unfold nx_edge, nx_edge_ref. rewrite Hadj.
    destruct (od_get u (g_adj (topology c)) ≫= od_get v) as [r|]; [|done].
    simpl. apply Hattr.
Qed.

Lemma inject_flow_keeps_balanced_routes_witness :
  compute_paths (inject_flow example "h1" "h2" 1 70).1 "h1" "h2" 0
  = compute_paths example "h1" "h2" 0 ∧
  link_available (inject_flow example "h1" "h2" 1 70).1 "s1" "s2"
  = link_available example "s1" "s2" ∧
  e_bandwidth <$> nx_edge (topology (inject_flow example "h1" "h2" 1 70).1)
                    "s1" "s2"
  = e_bandwidth <$> nx_edge (topology example) "s1" "s2" ∧
  g_node (topology (inject_flow example "h1" "h2" 1 70).1)
  = g_node (topology example) ∧
  g_adj (topology (inject_flow example "h1" "h2" 1 70).1)
  = g_adj (topology example).
Proof.
  apply (inject_flow_keeps_balanced_routes example "h1" "h2" 1 70
           "h1" "h2" 0 "s1" "s2").
  lia.
Defined.

(** X6: in every reachable state, after [remove_link a b] no path returned
    by [compute_paths] has a hop between [a] and [b], in either
    direction. *)
Theorem compute_paths_avoids_removed_link c a b src dst priority paths p :
  reachable c →
  compute_paths (remove_link c a b) src dst priority = Ok paths →
  p ∈ paths →
  ((a, b) ∉ hops p) ∧ ((b, a) ∉ hops p).
Proof.
  intros Hreach Hcp Hp.
  pose proof (reachable_run_op c (OpRemoveLink a b) Hreach) as Hreach'.
  simpl in Hreach'. pose proof (reachable_inv _ Hreach') as Hinv'.
  destruct (compute_paths_elem _ src dst priority paths p (inv_graph _ Hinv')
              Hcp Hp) as [(_ & _ & _ & Hav) _].
  assert (Hdown : ∀ u v, same_link a b u v →
            link_available (remove_link c a b) u v = false).
  { intros u v Hsame. unfold link_available, remove_link.
    rewrite toggle_link_edge by apply (reachable_inv _ Hreach).
    rewrite decide_True by done.
    by destruct (nx_edge (topology c) u v). }
  split; intros Hin%Hav; rewrite Hdown in Hin; try done;
    unfold same_link; auto.
Qed.

Lemma compute_paths_avoids_removed_link_witness :
  compute_paths (remove_link example "s1" "s2") "h1" "h2" 0
  = Ok [["h1"; "s1"; "s3"; "s4"; "h2"]] ∧
  (("s1", "s2") ∉ hops ["h1"; "s1"; "s3"; "s4"; "h2"]) ∧
  (("s2", "s1") ∉ hops ["h1"; "s1"; "s3"; "s4"; "h2"]).
Proof.
  split; [reflexivity|].
  apply (compute_paths_avoids_removed_link example "s1" "s2" "h1" "h2" 0
           [["h1"; "s1"; "s3"; "s4"; "h2"]]).
  - apply example_reachable.
  - reflexivity.
  - left.
Defined.

(** * The effect of an injection *)

(** X7: in every reachable state, [inject_flow] returns a flow identifier
    exactly when the live subgraph has a path from the source to the
    destination; the requested bandwidth and the priority play no part in
    it (there is no capacity check). *)
Theorem inject_flow_succeeds_iff_path c src dst priority bandwidth :
  reachable c →
  (∃ flow_id, (inject_flow c src dst priority bandwidth).2
              = Ok (Some flow_id))
  ↔ ∃ p, live_path c src dst p.
Proof.
  intros Hinv%reachable_inv. pose proof (inv_graph _ Hinv) as Hwf.
  rewrite inject_flow_eq by done.
  destruct (compute_paths_outcome c src dst priority Hwf) as [Hraise Hempty].
  destruct (compute_paths c src dst priority) as [[|p ps]|e] eqn:Hcp; simpl.
  - destruct (proj1 Hempty eq_refl) as [_ Hno]. split; [by intros [? ?]|].
    intros [p Hp]. by destruct (Hno p).
  - split; [|eauto]. intros _. exists p.
    eapply compute_paths_elem; [done..|left].
  - split; [by intros [? ?]|]. intros [p [Hs _]].
    pose proof (compute_paths_spec c src dst priority Hwf) as Hspec.
    rewrite Hcp in Hspec. by destruct Hspec as (_ & Hno & _).
Qed.

Lemma inject_flow_succeeds_iff_path_witness :
  (∃ flow_id, (inject_flow example "h1" "h2" 0 100000).2 = Ok (Some flow_id))
  ↔ ∃ p, live_path example "h1" "h2" p.
Proof.
  apply (inject_flow_succeeds_iff_path example "h1" "h2" 0 100000).
  apply example_reachable.
Defined.

(** X8: in every reachable state, a successful [inject_flow] adds the
    requested bandwidth to the utilization of each link of the path it
    chose, read from either end, and leaves the utilization of every other
    link as it was; the path is the first one [compute_paths] returned. *)
Theorem inject_flow_adds_utilization c src dst priority bandwidth flow_id :
  reachable c →
  (inject_flow c src dst priority bandwidth).2 = Ok (Some flow_id) →
  ∃ p ps, compute_paths c src dst priority = Ok (p :: ps) ∧
    ∀ a b, link_util (inject_flow c src dst priority bandwidth).1 a b
           = (link_util c a b
              + if decide ((a, b) ∈ hops p ∨ (b, a) ∈ hops p)
                then bandwidth else 0)%Z.
Proof. apply inject_flow_utilization. Qed.

Lemma inject_flow_adds_utilization_witness :
  ∃ p ps, compute_paths example "h1" "h2" 0 = Ok (p :: ps) ∧
    ∀ a b, link_util (inject_flow example "h1" "h2" 0 10).1 a b
           = (link_util example a b
              + if decide ((a, b) ∈ hops p ∨ (b, a) ∈ hops p)
                then 10 else 0)%Z.
Proof.
  apply (inject_flow_adds_utilization example "h1" "h2" 0 10 "h1-h2-0").
  - apply example_reachable.
  - reflexivity.
Defined.





(** * What the operations keep *)

Lemma nx_add_node_ref g n ty a b :
  graph_wf g → nx_edge_ref (nx_add_node g n ty) a b = nx_edge_ref g a b.
Proof.
  intros Hwf. unfold nx_add_node, nx_edge_ref.
  destruct (od_get n (g_node g)) as [t|] eqn:Hn; simpl; [done|].
  rewrite od_get_set. destruct (decide (a = n)) as [->|?]; [|done]. simpl.
  destruct (od_get n (g_adj g)) as [nb|] eqn:Hadj; [|done].
  assert (is_Some (od_get n (g_node g))) as [? ?]; [|congruence].
  apply (wf_node_adj _ Hwf). eauto.
Qed.

Lemma nx_add_edge_attr g u v d :
  graph_wf g →
  g_attr (nx_add_edge g u v d)
  = match nx_edge_ref g u v with
    | Some r => <[r := d]> (g_attr g)
    | None => g_attr g ++ [d]
    end.
Proof.
  intros Hwf. unfold nx_add_edge.
  fold (nx_edge_ref (nx_touch_node (nx_touch_node g u) v) u v).
  rewrite !nx_touch_node_ref by (try apply nx_touch_node_wf; done).
  destruct (nx_edge_ref g u v); simpl; by rewrite !nx_touch_node_attr.
Qed.

(** The attributes after [add_edge]: the new ones on the link, read from
    either end, and the old ones on every other link. *)
Lemma nx_add_edge_edge g u v d a b :
  graph_wf g →
  nx_edge (nx_add_edge g u v d) a b
  = if decide (same_link u v a b) then Some d else nx_edge g a b.
Proof.
  intros Hwf.
  destruct (nx_add_edge_ref g u v d a b Hwf) as (r & Huv & Hd & Hold & Hab).
  unfold nx_edge. rewrite Hab. unfold same_link.
  destruct (decide ((a = u ∧ b = v) ∨ (a = v ∧ b = u))) as [Hsame|Hdiff];
    [done|].
  destruct (nx_edge_ref g a b) as [r'|] eqn:Hr'; [|done]. simpl.
  rewrite nx_add_edge_attr by done.
  destruct (nx_edge_ref g u v) as [r0|] eqn:Hr0.
  - apply list_lookup_insert_ne. intros ->.
    destruct (wf_inj _ Hwf _ _ _ _ _ Hr' Hr0); naive_solver.
  - apply lookup_app_l. by eapply wf_ref.
Qed.

Lemma run_op_keeps_links c o u v :
  ctrl_inv c →
  is_Some (nx_edge_ref (topology c) u v) →
  is_Some (nx_edge_ref (topology (run_op c o)) u v).
Proof.
  intros Hinv Huv. pose proof (inv_graph _ Hinv) as Hwf.
  destruct o as [n t|a b bw|a b|a b|s d prio bw]; simpl.
  - by rewrite nx_add_node_ref.
  - destruct (nx_add_edge_ref (topology c) a b (mkEdge bw 0 true) u v Hwf)
      as (r & _ & _ & _ & ->).
    by case_decide.
  - unfold nx_edge_ref.
    destruct (toggle_link_shape c a b (set_available false)) as (_ & Hadj & _).
    unfold remove_link. by rewrite Hadj.
  - unfold nx_edge_ref.
    destruct (toggle_link_shape c a b (set_available true)) as (_ & Hadj & _).
    unfold restore_link. by rewrite Hadj.
  - unfold nx_edge_ref.
    destruct (inject_flow_shape c s d prio bw) as (_ & Hadj & _).
    by rewrite Hadj.
Qed.

Lemma run_op_keeps_nodes c o n :
  is_Some (od_get n (g_node (topology c))) →
  is_Some (od_get n (g_node (topology (run_op c o)))).
Proof.
  intros Hn. destruct o as [m t|a b bw|a b|a b|s d prio bw]; simpl.
  - unfold nx_add_node. destruct (od_get m (g_node (topology c))); simpl;
      rewrite od_get_set; by case_decide.
  - rewrite nx_add_edge_node. by destruct Hn as [t ->].
  - destruct (toggle_link_shape c a b (set_available false)) as (Hnode & _).
    unfold remove_link. by rewrite Hnode.
  - destruct (toggle_link_shape c a b (set_available true)) as (Hnode & _).
    unfold restore_link. by rewrite Hnode.
  - destruct (inject_flow_shape c s d prio bw) as (Hnode & _).
    by rewrite Hnode.
Qed.

Lemma run_op_flows_prefix c o :
  active_flows c `prefix_of` active_flows (run_op c o).
Proof.
  destruct o as [m t|a b bw|a b|a b|s d prio bw]; simpl; try done.
  - destruct (toggle_link_shape c a b (set_available false)) as (_ & _ & _ & H).
    unfold remove_link. by rewrite H.
  - destruct (toggle_link_shape c a b (set_available true)) as (_ & _ & _ & H).
    unfold restore_link. by rewrite H.
  - unfold inject_flow.
    destruct (compute_paths c s d prio) as [[|p ps]|e]; simpl; try done.
    destruct (add_utilization (topology c) (hops p) bw) as [g [[]|e]]; simpl;
      [|done].
    by apply prefix_app_r.
Qed.

Lemma run_ops_flows_prefix c ops :
  active_flows c `prefix_of` active_flows (foldl run_op c ops).
Proof.
  revert c. induction ops as [|o ops IH]; intros c; simpl; [done|].
  etrans; [apply run_op_flows_prefix|apply IH].
Qed.

(** X10: the active-flow list only grows at its end: whatever the state
    and the operations run from it, the list before is a prefix of the
    list after, so that no record is ever removed, reordered or
    rewritten. *)
Theorem active_flows_append_only c ops :
  active_flows c `prefix_of` active_flows (foldl run_op c ops).
Proof. apply run_ops_flows_prefix. Qed.

(** X11: nodes and links are never removed.  In every reachable state the
    endpoints of every link are registered nodes, and after any further
    operations every node registered now is still registered and every
    link that exists now still exists. *)
Theorem nodes_and_links_persist c ops a b n :
  reachable c →
  (nx_has_edge (topology c) a b = true →
   is_Some (od_get a (g_node (topology c))) ∧
   is_Some (od_get b (g_node (topology c))) ∧
   nx_has_edge (topology (foldl run_op c ops)) a b = true) ∧
  (is_Some (od_get n (g_node (topology c))) →
   is_Some (od_get n (g_node (topology (foldl run_op c ops))))).
Proof.
  intros Hinv%reachable_inv. split.
  - intros Hab. pose proof (inv_graph _ Hinv) as Hwf. split_and!.
    + apply (wf_node_adj _ Hwf). apply nx_has_edge_ref in Hab as [r Hr].
      unfold nx_edge_ref in Hr. destruct (od_get a _); [eauto|done].
    + apply (wf_node_adj _ Hwf). apply nx_has_edge_ref in Hab as [r Hr].
      apply (wf_sym _ Hwf) in Hr.
      unfold nx_edge_ref in Hr. destruct (od_get b _); [eauto|done].
    + apply nx_has_edge_ref. apply nx_has_edge_ref in Hab.
      clear Hwf. revert c Hinv Hab.
      induction ops as [|o ops IH]; intros c Hinv Hab; simpl; [done|].
      apply IH; [by apply ctrl_inv_run_op|by apply run_op_keeps_links].
  - revert c Hinv. induction ops as [|o ops IH]; intros c Hinv Hn; simpl;
      [done|].
    apply IH; [by apply ctrl_inv_run_op|by apply run_op_keeps_nodes].
Qed.

Lemma nodes_and_links_persist_witness :
  let ops := [OpRemoveLink "s1" "s2"; OpInjectFlow "h1" "h2" 2 5;
              OpAddNode "s1" "host"] in
  (is_Some (od_get "s1" (g_node (topology example))) ∧
   is_Some (od_get "s2" (g_node (topology example))) ∧
   nx_has_edge (topology (foldl run_op example ops)) "s1" "s2" = true) ∧
  is_Some (od_get "h1" (g_node (topology (foldl run_op example ops)))).
Proof.
  intros ops.
  destruct (nodes_and_links_persist example ops "s1" "s2" "h1"
              example_reachable) as [Hlink Hnode].
  split; [apply Hlink|apply Hnode]; vm_compute; eauto.
Defined.

(** * The flow tables and the active flows *)

Lemma run_op_tables c o :
  (∃ s d prio bw, o = OpInjectFlow s d prio bw) ∨
  (flow_tables (run_op c o) = flow_tables c ∧
   active_flows (run_op c o) = active_flows c).
Proof.
  destruct o as [m t|a b bw|a b|a b|s d prio bw]; simpl.
  - by right.
  - by right.
  - right. destruct (toggle_link_shape c a b (set_available false))
      as (_ & _ & ? & ?). done.
  - right. destruct (toggle_link_shape c a b (set_available true))
      as (_ & _ & ? & ?). done.
  - left. eauto.
Qed.


Lemma link_endpoints_registered g a b :
  graph_wf g → is_Some (nx_edge_ref g a b) →
  is_Some (od_get a (g_node g)) ∧ is_Some (od_get b (g_node g)).
Proof.
  intros Hwf [r Hr]. split.
  - apply (wf_node_adj _ Hwf).
    unfold nx_edge_ref in Hr. destruct (od_get a _); [eauto|done].
  - apply (wf_node_adj _ Hwf). apply (wf_sym _ Hwf) in Hr.
    unfold nx_edge_ref in Hr. destruct (od_get b _); [eauto|done].
Qed.

Lemma path_nodes (p : list string) n :
  n ∈ p → p = [n] ∨ ∃ m, (n, m) ∈ hops p ∨ (m, n) ∈ hops p.
Proof.
  induction p as [|x q IH]; intros Hn; [by apply elem_of_nil in Hn|].
  destruct q as [|y q].
  - apply list_elem_of_singleton in Hn. left. by subst.
  - right. apply elem_of_cons in Hn as [->|Hn].
    + exists y. left. simpl. left.
    + destruct (IH Hn) as [Hq|[m Hm]].
      * injection Hq as -> ->. exists x. right. simpl. left.
      * exists m. destruct Hm as [Hm|Hm]; [left|right];
          by apply hops_cons_elem.
Qed.

Lemma flows_on_links c f :
  reachable c → f ∈ active_flows c →
  NoDup (f_primary_path f) ∧
  (∀ n, n ∈ f_primary_path f → is_Some (od_get n (g_node (topology c)))) ∧
  ∀ u v, (u, v) ∈ hops (f_primary_path f) →
         is_Some (nx_edge_ref (topology c) u v).
Proof.
  intros Hc. revert f. pattern c. revert c Hc.
  apply reachable_induction.
  - intros f Hf. by apply elem_of_nil in Hf.
  - intros c o Hc IH f Hf.
    pose proof (reachable_inv _ Hc) as Hinv.
    pose proof (inv_graph _ Hinv) as Hwf.
    assert (f ∈ active_flows c →
            NoDup (f_primary_path f) ∧
            (∀ n, n ∈ f_primary_path f →
                  is_Some (od_get n (g_node (topology (run_op c o))))) ∧
            ∀ u v, (u, v) ∈ hops (f_primary_path f) →
                   is_Some (nx_edge_ref (topology (run_op c o)) u v)) as Hold.
    { intros (Hnd & Hn & Hl)%IH. split_and!; [done|..].
      - intros n Hin. apply run_op_keeps_nodes; auto.
      - intros u v Huv. apply run_op_keeps_links; auto. }
    destruct (run_op_tables c o) as [(s & d & prio & bw & ->)|[_ Hfl]].
    2:{ rewrite Hfl in Hf. auto. }
    revert Hf Hold. simpl.
    pose proof (inject_flow_shape c s d prio bw) as (Hnode & Hadj & _).
    unfold nx_edge_ref. rewrite Hadj, Hnode.
    rewrite (inject_flow_eq c s d prio bw Hwf).
    destruct (compute_paths c s d prio) as [[|p ps]|e] eqn:Hcp; simpl; auto.
    intros [Hf|Hf]%elem_of_app Hold; [auto|].
    apply list_elem_of_singleton in Hf. subst f. simpl.
    assert (shortest_live_path c s d p) as Hp.
    { eapply compute_paths_elem; [apply Hinv|done|left]. }
    assert (∀ u v, link_available c u v = true →
                   is_Some (nx_edge_ref (topology c) u v)) as Href.
    { intros u v Hav. unfold link_available, nx_edge in Hav.
      destruct (nx_edge_ref (topology c) u v); [eauto|done]. }
    split_and!.
    + eapply shortest_live_path_NoDup; [apply Hinv|done].
    + intros n Hn. destruct Hp as [([m Hm] & Hhd & _ & Hav) _].
      destruct (path_nodes _ _ Hn) as [->|[k [Hk|Hk]]].
      * injection Hhd as ->.
        by apply (link_endpoints_registered _ _ m Hwf), Href.
      * by apply (link_endpoints_registered _ _ k Hwf), Href, Hav.
      * by apply (link_endpoints_registered _ k _ Hwf), Href, Hav.
    + intros u v Huv. apply Href. by apply Hp.
Qed.



(** X13: in every reachable state the primary path of every active-flow
    record visits no node twice, all its nodes are registered nodes of the
    topology and each of its hops is a link of the topology (which may
    since have been marked unavailable). *)
Theorem active_flow_paths_on_topology c f :
  reachable c → f ∈ active_flows c →
  NoDup (f_primary_path f) ∧
  (∀ n, n ∈ f_primary_path f → is_Some (od_get n (g_node (topology c)))) ∧
  ∀ u v, (u, v) ∈ hops (f_primary_path f) →
         nx_has_edge (topology c) u v = true ∧
         nx_has_edge (topology c) v u = true.
Proof.
  intros Hc Hf. destruct (flows_on_links c f Hc Hf) as (Hnd & Hn & Hl).
  split_and!; [done..|].
  intros u v Huv. pose proof (Hl u v Huv) as [r Hr].
  pose proof (inv_graph _ (reachable_inv _ Hc)) as Hwf.
  split; apply nx_has_edge_ref; [eauto|].
  exists r. by apply (wf_sym _ Hwf).
Qed.

Lemma active_flow_paths_on_topology_witness :
  let c := remove_link (inject_flow example "h1" "h2" 2 5).1 "s1" "s2" in
  let f := mkFlow "h1-h2-0" "h1" "h2" ["h1"; "s1"; "s2"; "s4"; "h2"] None 5 2 in
  NoDup (f_primary_path f) ∧
  (∀ n, n ∈ f_primary_path f → is_Some (od_get n (g_node (topology c)))) ∧
  ∀ u v, (u, v) ∈ hops (f_primary_path f) →
         nx_has_edge (topology c) u v = true ∧
         nx_has_edge (topology c) v u = true.
Proof.
  intros c f. apply (active_flow_paths_on_topology c f).
  - exact (reachable_run_op _ (OpRemoveLink "s1" "s2")
             (reachable_run_op example (OpInjectFlow "h1" "h2" 2 5)
                example_reachable)).
  - vm_compute. left.
Defined.

(** * Utilization accounting *)

(** X14: in every reachable state [add_link a b] changes nothing but the
    link between [a] and [b]: every other link keeps its attributes (its
    bandwidth, utilization and availability), and the flow tables and the
    active flows stay as they were. *)
Theorem add_link_changes_one_link c a b bandwidth u v :
  reachable c → ¬ same_link a b u v →
  nx_edge (topology (add_link c a b bandwidth)) u v = nx_edge (topology c) u v ∧
  link_util (add_link c a b bandwidth) u v = link_util c u v ∧
  link_available (add_link c a b bandwidth) u v = link_available c u v ∧
  flow_tables (add_link c a b bandwidth) = flow_tables c ∧
  active_flows (add_link c a b bandwidth) = active_flows c.
Proof.
  intros Hc Hdiff. pose proof (inv_graph _ (reachable_inv _ Hc)) as Hwf.
  assert (nx_edge (topology (add_link c a b bandwidth)) u v
          = nx_edge (topology c) u v) as He.
  { simpl. rewrite nx_add_edge_edge by done. by rewrite decide_False. }
  unfold link_util, link_available. by rewrite He.
Qed.

Lemma add_link_changes_one_link_witness :
  let c := (inject_flow example "h1" "h2" 2 5).1 in
  nx_edge (topology (add_link c "s1" "s3" 10)) "s1" "s2"
  = nx_edge (topology c) "s1" "s2" ∧
  link_util (add_link c "s1" "s3" 10) "s1" "s2" = link_util c "s1" "s2" ∧
  link_available (add_link c "s1" "s3" 10) "s1" "s2"
  = link_available c "s1" "s2" ∧
  flow_tables (add_link c "s1" "s3" 10) = flow_tables c ∧
  active_flows (add_link c "s1" "s3" 10) = active_flows c.
Proof.
  intros c. apply (add_link_changes_one_link c "s1" "s3" 10 "s1" "s2").
  - exact (reachable_run_op example (OpInjectFlow "h1" "h2" 2 5)
             example_reachable).
  - intros [[_ ?]|[? _]]; discriminate.
Defined.

Lemma nx_add_node_edge g n ty a b :
  graph_wf g → nx_edge (nx_add_node g n ty) a b = nx_edge g a b.
Proof.
  intros Hwf. unfold nx_edge. rewrite nx_add_node_ref by done.
  unfold nx_add_node. by destruct (od_get n (g_node g)).
Qed.

Lemma flow_load_app fs1 fs2 a b :
  flow_load (fs1 ++ fs2) a b = (flow_load fs1 a b + flow_load fs2 a b)%Z.
Proof.
  unfold flow_load. induction fs1 as [|f fs1 IH]; simpl; [done|].
  rewrite IH. lia.
Qed.

Lemma run_op_link_util c o a b :
  reachable c → relinks a b o = false →
  link_util (run_op c o) a b
  = (link_util c a b
     + flow_load (drop (length (active_flows c)) (active_flows (run_op c o)))
         a b)%Z.
Proof.
  intros Hc Hre. pose proof (inv_graph _ (reachable_inv _ Hc)) as Hwf.
  assert (∀ c', active_flows c' = active_flows c →
                nx_edge (topology c') a b = nx_edge (topology c) a b →
                link_util c' a b
                = (link_util c a b
                   + flow_load (drop (length (active_flows c))
                                  (active_flows c')) a b)%Z) as Hsame.
  { intros c' Hfl He. rewrite Hfl, drop_all. unfold link_util. rewrite He.
    simpl. lia. }
  destruct o as [n t|x y bw|x y|x y|s d prio bw]; simpl in Hre;
    cbn [run_op].
  - apply (Hsame (add_node c n t)); [done|]. simpl.
    by apply nx_add_node_edge.
  - apply (Hsame (add_link c x y bw)); [done|]. simpl.
    rewrite nx_add_edge_edge by done.
    apply bool_decide_eq_false in Hre. by rewrite decide_False.
  - destruct (toggle_link_shape c x y (set_available false)) as (_ & _ & _ & Hfl).
    pose proof (toggle_link_edge c x y (set_available false) a b Hwf) as He.
    fold (remove_link c x y) in Hfl, He. rewrite Hfl, drop_all.
    unfold link_util. rewrite He. simpl.
    case_decide; destruct (nx_edge (topology c) a b); simpl; lia.
  - destruct (toggle_link_shape c x y (set_available true)) as (_ & _ & _ & Hfl).
    pose proof (toggle_link_edge c x y (set_available true) a b Hwf) as He.
    fold (restore_link c x y) in Hfl, He. rewrite Hfl, drop_all.
    unfold link_util. rewrite He. simpl.
    case_decide; destruct (nx_edge (topology c) a b); simpl; lia.
  - pose proof (inject_flow_utilization c s d prio bw
                  (flow_id_of s d (length (active_flows c))) Hc) as Hu.
    revert Hu. rewrite (inject_flow_eq c s d prio bw Hwf).
    destruct (compute_paths c s d prio) as [[|p ps]|e] eqn:Hcp; simpl.
    + intros _. rewrite drop_all. simpl. lia.
    + intros Hu. destruct (Hu eq_refl) as (p' & ps' & [= <- <-] & ->).
      rewrite drop_app_length. unfold flow_load, uses_link. simpl. lia.
    + intros _. rewrite drop_all. simpl. lia.
Qed.

Lemma run_ops_link_util c ops a b :
  reachable c → Forall (λ o, relinks a b o = false) ops →
  link_util (foldl run_op c ops) a b
  = (link_util c a b
     + flow_load (drop (length (active_flows c))
                    (active_flows (foldl run_op c ops))) a b)%Z.
Proof.
  intros Hc Hops. revert c Hc.
  induction Hops as [|o ops Ho Hops IH]; intros c Hc; simpl.
  - rewrite drop_all. simpl. lia.
  - rewrite IH by by apply reachable_run_op.
    rewrite (run_op_link_util c o a b Hc Ho).
    destruct (run_op_flows_prefix c o) as [Y HY].
    destruct (run_ops_flows_prefix (run_op c o) ops) as [X HX].
    rewrite HX, HY, !drop_app_length, <-(assoc_L (++)), drop_app_length.
    rewrite flow_load_app. lia.
Qed.

(** X15: the utilization of a link accounts for the flows routed over it.
    From any reachable state, over operations none of which is an
    [add_link] on the link between [a] and [b], the utilization of that
    link grows by exactly the bandwidths of the flows admitted since whose
    primary path crosses it; removing and restoring links never changes
    it.  Counted from an [add_link a b], which sets it to 0, it is the
    total bandwidth of the flows admitted over the link since then. *)
Theorem link_utilization_accounts_flows c ops a b bandwidth :
  reachable c → Forall (λ o, relinks a b o = false) ops →
  link_util (foldl run_op c ops) a b
  = (link_util c a b
     + flow_load (drop (length (active_flows c))
                    (active_flows (foldl run_op c ops))) a b)%Z ∧
  link_util (foldl run_op (add_link c a b bandwidth) ops) a b
  = flow_load (drop (length (active_flows c))
                 (active_flows (foldl run_op (add_link c a b bandwidth) ops)))
      a b.
Proof.
  intros Hc Hops. split; [by apply run_ops_link_util|].
  rewrite (run_ops_link_util (add_link c a b bandwidth) ops a b);
    [|exact (reachable_run_op c (OpAddLink a b bandwidth) Hc)|done].
  pose proof (inv_graph _ (reachable_inv _ Hc)) as Hwf.
  unfold link_util at 1. simpl. rewrite nx_add_edge_edge by done.
  rewrite decide_True by (by left). simpl. lia.
Qed.

Lemma link_utilization_accounts_flows_witness :
  let ops := [OpInjectFlow "h1" "h2" 2 5; OpRemoveLink "s1" "s2";
              OpAddLink "s1" "s3" 10; OpInjectFlow "h1" "h2" 0 7;
              OpRestoreLink "s1" "s2"; OpInjectFlow "h2" "h1" 1 3] in
  link_util (foldl run_op example ops) "h1" "s1"
  = (link_util example "h1" "s1"
     + flow_load (drop (length (active_flows example))
                    (active_flows (foldl run_op example ops))) "h1" "s1")%Z ∧
  link_util (foldl run_op (add_link example "h1" "s1" 50) ops) "h1" "s1"
  = flow_load (drop (length (active_flows example))
                 (active_flows (foldl run_op (add_link example "h1" "s1" 50) ops)))
      "h1" "s1".
Proof.
  intros ops.
  apply (link_utilization_accounts_flows example ops "h1" "s1" 50).
  - apply example_reachable.
  - repeat constructor.
Defined.

(** * Registering a node *)

Lemma bfs_level_ext nbrs nbrs' k st :
  (∀ v, nbrs v = nbrs' v) → bfs_level nbrs k st = bfs_level nbrs' k st.
Proof.
  intros Hext. unfold bfs_level.
  generalize (mkBfs (bfs_seen st) (bfs_pred st) []).
  induction (bfs_next st) as [|v l IH]; intros st0; simpl; [done|].
  unfold bfs_scan at 2 4. rewrite Hext. apply IH.
Qed.

Lemma bfs_loop_ext nbrs nbrs' fuel k st :
  (∀ v, nbrs v = nbrs' v) →
  bfs_loop nbrs fuel k st = bfs_loop nbrs' fuel k st.
Proof.
  intros Hext. revert k st. induction fuel as [|fuel IH]; intros k st; simpl;
    [done|].
  destruct (bfs_next st); [done|].
  by rewrite (bfs_level_ext nbrs nbrs'), IH.
Qed.

(** Once the frontier is empty, more rounds change nothing. *)
Lemma bfs_loop_fuel nbrs fuel extra k st :
  bfs_next (bfs_loop nbrs fuel k st) = [] →
  bfs_loop nbrs (fuel + extra) k st = bfs_loop nbrs fuel k st.
Proof.
  revert k st. induction fuel as [|fuel IH]; intros k st; simpl.
  - intros Hnil. destruct extra; simpl; [done|]. by rewrite Hnil.
  - destruct (bfs_next st) eqn:Hnext; [done|]. apply IH.
Qed.

(** With as many rounds as there are nodes the search stops on an empty
    frontier. *)
Lemma bfs_loop_finished nbrs source (V : list string) (N : nat) :
  (∀ j w, reach nbrs source j w → w ∈ V) →
  (length V ≤ N)%nat →
  bfs_next (bfs_loop nbrs N 0 (bfs_init source)) = [].
Proof.
  intros HV HN.
  destruct (bfs_loop_inv nbrs source N 0 (bfs_init source)
              (bfs_init_inv nbrs source)) as (k & Hinv & Hk).
  destruct Hk as [Hnil|Hk]; [done|].
  set (st := bfs_loop nbrs N 0 (bfs_init source)) in *.
  destruct (bfs_next st) as [|w l] eqn:Hnext; [done|].
  destruct Hinv as [Hsound _ Hnx _ _ Hsize].
  assert (bfs_seen st !! w = Some k) as Hw.
  { apply Hnx. rewrite Hnext. left. }
  apply Hsize in Hw.
  assert (size (bfs_seen st) ≤ N)%nat; [|lia].
  etrans; [|exact HN]. rewrite <-size_dom.
  etrans; [|apply size_list_to_set_le].
  apply subseteq_size. intros x [d Hd]%elem_of_dom.
  apply elem_of_list_to_set. apply Hsound in Hd as [Hd _]. by eapply HV.
Qed.

Section odict_more.
Context {V : Type}.

Lemma od_set_new (d : list (string * V)) k v :
  od_get k d = None → od_set k v d = d ++ [(k, v)].
Proof.
  induction d as [|[k' v'] d IH]; simpl; [done|].
  case_decide; [done|]. intros Hk. by rewrite IH.
Qed.

Lemma od_get_app (d d' : list (string * V)) k :
  od_get k (d ++ d')
  = match od_get k d with Some v => Some v | None => od_get k d' end.
Proof.
  induction d as [|[k' v'] d IH]; simpl; [done|]. by case_decide.
Qed.
End odict_more.

Lemma nx_edges_go_isolated seen adj n :
  nx_edges_go seen (adj ++ [(n, [])]) = nx_edges_go seen adj.
Proof.
  revert seen. induction adj as [|[m nbrs] adj IH]; intros seen; simpl;
    [done|].
  by rewrite IH.
Qed.

Lemma mapM_result_ext {A B} (f g : A → result B) (l : list A) :
  (∀ x, f x = g x) → mapM f l = mapM g l.
Proof.
  intros Hext. induction l as [|x l IH]; simpl; [done|].
  by rewrite Hext, IH.
Qed.

Lemma add_node_all_shortest_paths g n ty s t :
  graph_wf g →
  let g' := nx_add_node g n ty in
  all_shortest_paths (edge_subgraph g' (available_edges g')) s t
  = all_shortest_paths (edge_subgraph g (available_edges g)) s t.
Proof.
  intros Hwf g'. subst g'. unfold nx_add_node.
  destruct (od_get n (g_node g)) as [old|] eqn:Hn.
  - unfold all_shortest_paths, predecessor, view_contains, available_edges,
      nx_edges. simpl.
    replace (bool_decide (is_Some (od_get s (od_set n (Some ty) (g_node g)))))
      with (bool_decide (is_Some (od_get s (g_node g)))); [done|].
    apply bool_decide_ext. rewrite od_get_set. case_decide; [|done].
    subst. rewrite Hn. split; eauto.
  - assert (od_get n (g_adj g) = None) as Hadj.
    { destruct (od_get n (g_adj g)) eqn:Ha; [|done].
      assert (is_Some (od_get n (g_node g))) as [? ?]; [|congruence].
      apply (wf_node_adj _ Hwf). eauto. }
    set (g' := mkGraph _ _ _).
    assert (available_edges g' = available_edges g) as Hes.
    { unfold available_edges, nx_edges. subst g'. simpl.
      by rewrite (od_set_new _ _ _ Hadj), nx_edges_go_isolated. }
    rewrite Hes. set (es := available_edges g) in *.
    assert (NODE_OK (edge_subgraph g es) n = false) as Hnot.
    { apply bool_decide_eq_false. simpl.
      intros [m Hm]%elem_of_endpoints.
      assert (∃ d, nx_edge g n m = Some d ∧ e_available d = true)
        as (d & Hd & _).
      { apply available_edges_spec; [done|]. exact Hm. }
      unfold nx_edge in Hd.
      destruct (nx_edge_ref g n m) as [r|] eqn:Hr; [|done].
      destruct (link_endpoints_registered g n m Hwf) as [[? ?] _]; [eauto|].
      congruence. }
    assert (∀ v, view_neighbors (edge_subgraph g' es) v
                 = view_neighbors (edge_subgraph g es) v) as Hnb.
    { intros v. unfold view_neighbors. subst g'. simpl.
      rewrite (od_set_new _ _ _ Hadj), od_get_app.
      destruct (od_get v (g_adj g)); [done|]. simpl.
      case_decide; [|done]. by destruct (NODE_OK _ v). }
    assert (view_contains (edge_subgraph g' es) s
            = view_contains (edge_subgraph g es) s) as Hvc.
    { unfold view_contains, NODE_OK, edge_subgraph in *. subst g'.
      cbn [v_nodes v_graph g_node] in *. rewrite od_get_set.
      destruct (decide (s = n)) as [Hs|Hs]; [|done]. subst s.
      rewrite Hnot, !andb_false_r. done. }
    unfold all_shortest_paths, predecessor. rewrite Hvc.
    destruct (view_contains (edge_subgraph g es) s) eqn:Hs; [|done].
    replace (length (g_adj (v_graph (edge_subgraph g' es))))
      with (length (g_adj g) + 1)%nat.
    2:{ subst g'. simpl. rewrite (od_set_new _ _ _ Hadj), length_app. done. }
    rewrite (bfs_loop_ext _ _ _ _ _ Hnb). simpl v_graph.
    rewrite bfs_loop_fuel; [done|].
    apply (bfs_loop_finished _ _ (od_keys (g_adj g))).
    + intros j w. by apply live_reach_keys.
    + unfold od_keys. by rewrite length_fmap.
Qed.

Lemma add_node_compute_paths c n ty s d prio :
  graph_wf (topology c) →
  compute_paths (add_node c n ty) s d prio = compute_paths c s d prio.
Proof.
  intros Hwf. unfold compute_paths, live_subgraph. simpl topology.
  rewrite (add_node_all_shortest_paths _ n ty s d Hwf).
  destruct (all_shortest_paths _ s d) as [all|e]; [|done].
  case_bool_decide; [|done].
  unfold py_min.
  rewrite (mapM_result_ext (_path_utilization (add_node c n ty))
             (_path_utilization c)); [done|].
  intros p. unfold _path_utilization. simpl topology.
  generalize (Ok 0 : result Z).
  induction (hops p) as [|[u v] hs IH]; intros acc; simpl; [done|].
  rewrite nx_add_node_edge by done. apply IH.
Qed.

(** X16: registering a node never changes routing.  In every reachable
    state, after [add_node] (of a new node or of one that exists, whose
    type it overwrites) every link has the attributes it had,
    [compute_paths] returns for every request what it returned before,
    and [inject_flow] has the same outcome. *)
Theorem add_node_keeps_routes c n ty src dst priority bandwidth u v :
  reachable c →
  nx_edge (topology (add_node c n ty)) u v = nx_edge (topology c) u v ∧
  compute_paths (add_node c n ty) src dst priority
  = compute_paths c src dst priority ∧
  (inject_flow (add_node c n ty) src dst priority bandwidth).2
  = (inject_flow c src dst priority bandwidth).2.
Proof.
  intros Hc. pose proof (inv_graph _ (reachable_inv _ Hc)) as Hwf.
  assert (graph_wf (topology (add_node c n ty))) as Hwf'.
  { exact (inv_graph _ (reachable_inv _
             (reachable_run_op c (OpAddNode n ty) Hc))). }
  split_and!.
  - simpl. by apply nx_add_node_edge.
  - by apply add_node_compute_paths.
  - rewrite (inject_flow_eq _ _ _ _ _ Hwf'), (inject_flow_eq _ _ _ _ _ Hwf).
    rewrite add_node_compute_paths by done.
    by destruct (compute_paths c src dst priority) as [[|p ps]|e].
Qed.

Lemma add_node_keeps_routes_witness :
  nx_edge (topology (add_node example "h3" "host")) "s1" "s2"
  = nx_edge (topology example) "s1" "s2" ∧
  compute_paths (add_node example "h3" "host") "h1" "h2" 0
  = compute_paths example "h1" "h2" 0 ∧
  (inject_flow (add_node example "h3" "host") "h1" "h2" 0 5).2
  = (inject_flow example "h1" "h2" 0 5).2.
Proof.
  apply (add_node_keeps_routes example "h3" "host" "h1" "h2" 0 5 "s1" "s2").
  apply example_reachable.
Defined.

(** * Edge cases of path computation *)

Lemma live_node_contains_iff c n :
  graph_wf (topology c) →
  view_contains (live_subgraph c) n = true ↔ live_node c n.
Proof.
  intros Hwf. unfold live_subgraph. rewrite live_contains by done.
  unfold live_node. split.
  - intros (m & d & Hd & Hav). exists m. unfold link_available.
    by rewrite Hd.
  - intros [m Hm]. exists m. unfold link_available in Hm.
    destruct (nx_edge (topology c) n m) as [d|]; [eauto|done].
Qed.

Lemma all_shortest_paths_self c s :
  graph_wf (topology c) → live_node c s →
  all_shortest_paths (live_subgraph c) s s = Ok [[s]].
Proof.
  intros Hwf Hs. apply live_node_contains_iff in Hs; [|done].
  pose proof (live_bfs_done (topology c) s Hwf Hs) as Hdone.
  unfold all_shortest_paths, predecessor. rewrite Hs.
  unfold live_subgraph in *. simpl in Hdone |- *.
  set (st := bfs_loop _ _ _ _) in *.
  destruct (done_min _ _ _ _ Hdone s 0%nat) as (d0 & Hseen & Hd0);
    [constructor|].
  assert (d0 = 0%nat) as -> by lia.
  destruct (done_pred _ _ _ _ Hdone s 0%nat Hseen) as (ps & Hps & Hin).
  assert (ps = []) as ->.
  { destruct ps as [|v ps]; [done|].
    destruct (proj1 (Hin v)) as (d' & ? & _); [left|done]. }
  unfold _build_paths_from_predecessors. rewrite Hps.
  destruct (size (bfs_pred st)) as [|fuel] eqn:Hsize.
  { apply map_size_empty_inv in Hsize. rewrite Hsize in Hps.
    by rewrite lookup_empty in Hps. }
  simpl. rewrite Hps. simpl. rewrite decide_True by left. done.
Qed.

Lemma compute_paths_self c s prio :
  graph_wf (topology c) → live_node c s →
  compute_paths c s s prio = Ok [[s]].
Proof.
  intros Hwf Hs. unfold compute_paths.
  rewrite all_shortest_paths_self by done.
  by case_bool_decide.
Qed.

(** X17: a flow from a node to itself.  In every reachable state, when
    [s] is an endpoint of an available link, [compute_paths s s] returns
    the single one-node path [[s]] for every priority, and [inject_flow s
    s] admits the flow: it appends a record with that path and returns its
    identifier, and changes neither the topology (no link carries the
    flow) nor the flow tables (no switch gets an entry). *)
Theorem self_flow_is_admitted c s priority bandwidth :
  reachable c → live_node c s →
  compute_paths c s s priority = Ok [[s]] ∧
  inject_flow c s s priority bandwidth
  = (mkController (topology c) (flow_tables c)
       (active_flows c
        ++ [mkFlow (flow_id_of s s (length (active_flows c))) s s [s] None
              bandwidth priority]),
     Ok (Some (flow_id_of s s (length (active_flows c))))).
Proof.
  intros Hc Hs. pose proof (inv_graph _ (reachable_inv _ Hc)) as Hwf.
  split; [by apply compute_paths_self|].
  rewrite inject_flow_eq, compute_paths_self by done. done.
Qed.

Lemma self_flow_is_admitted_witness :
  compute_paths example "s1" "s1" 3 = Ok [["s1"]] ∧
  inject_flow example "s1" "s1" 3 10
  = (mkController (topology example) (flow_tables example)
       (active_flows example
        ++ [mkFlow (flow_id_of "s1" "s1" (length (active_flows example)))
              "s1" "s1" ["s1"] None 10 3]),
     Ok (Some (flow_id_of "s1" "s1" (length (active_flows example))))).
Proof.
  apply (self_flow_is_admitted example "s1" 3 10).
  - apply example_reachable.
  - exists "s2". vm_compute. reflexivity.
Defined.

(** X18: the outcomes of [compute_paths].  In every reachable state the
    call is left by [NodeNotFound] exactly when the source is not an
    endpoint of an available link, and by no other exception; it returns
    the empty list exactly when the source is such an endpoint and no path
    of available links leads to the destination; in every other case it
    returns one path for a positive priority and one or two otherwise,
    each of them a shortest path of available links from the source to
    the destination. *)
Theorem compute_paths_outcomes c src dst priority :
  reachable c →
  match compute_paths c src dst priority with
  | Raise e => e = NodeNotFound ∧ ¬ live_node c src
  | Ok [] => live_node c src ∧ ∀ p, ¬ live_path c src dst p
  | Ok (p :: ps) =>
      live_node c src ∧
      (∀ q, q ∈ p :: ps → shortest_live_path c src dst q) ∧
      (length ps ≤ 1)%nat ∧ (priority > 0 → ps = [])
  end.
Proof.
  intros Hc. pose proof (inv_graph _ (reachable_inv _ Hc)) as Hwf.
  pose proof (compute_paths_spec c src dst priority Hwf) as Hspec.
  pose proof (compute_paths_outcome c src dst priority Hwf) as [_ Hnil].
  destruct (compute_paths c src dst priority) as [[|p ps]|e] eqn:Hcp.
  - by apply Hnil.
  - assert (∀ q, q ∈ p :: ps → shortest_live_path c src dst q) as Hall.
    { intros q Hq. by eapply compute_paths_elem. }
    split_and!; [|done|..].
    + destruct (Hall p) as [[Hlive _] _]; [left|done].
    + destruct (all_shortest_paths (live_subgraph c) src dst) as [all|e].
      * destruct Hspec as (_ & _ & Hps). case_bool_decide.
        -- destruct Hps as (m & [= -> ->] & _). simpl. lia.
        -- assert (length (p :: ps) ≤ 2)%nat; [|simpl in *; lia].
           rewrite Hps, length_take. lia.
      * by destruct Hspec as (_ & [=] & _).
    + intros Hprio.
      destruct (all_shortest_paths (live_subgraph c) src dst) as [all|e].
      * destruct Hspec as (_ & _ & Hps).
        rewrite bool_decide_true in Hps by done.
        by destruct Hps as (m & [= -> ->] & _).
      * by destruct Hspec as (_ & [=] & _).
  - by destruct Hspec as (-> & ? & _).
Qed.

Lemma compute_paths_outcomes_witness :
  match compute_paths example "h1" "h2" 0 with
  | Raise e => e = NodeNotFound ∧ ¬ live_node example "h1"
  | Ok [] => live_node example "h1" ∧ ∀ p, ¬ live_path example "h1" "h2" p
  | Ok (p :: ps) =>
      live_node example "h1" ∧
      (∀ q, q ∈ p :: ps → shortest_live_path example "h1" "h2" q) ∧
      (length ps ≤ 1)%nat ∧ (0 > 0 → ps = [])
  end.
Proof.
  apply (compute_paths_outcomes example "h1" "h2" 0). apply example_reachable.
Defined.

Lemma path_utilization_fold g hs (t : Z) :
  graph_wf g →
  foldl (λ total '(u, v),
           t ← total;
           match nx_edge g u v with
           | Some d => Ok (t + e_utilization d)
           | None => Raise KeyError
           end) (Ok t) hs
  = if forallb (λ '(u, v), nx_has_edge g u v) hs
    then Ok (foldl (λ total h,
                      (total + match nx_edge g h.1 h.2 with
                               | Some d => e_utilization d
                               | None => 0
                               end)%Z) t hs)
    else Raise KeyError.
Proof.
  intros Hwf. revert t. induction hs as [|[u v] hs IH]; intros t; [done|].
  cbn [foldl forallb andb]. simpl mbind.
  destruct (nx_has_edge g u v) eqn:Hhas.
  - apply nx_has_edge_ref in Hhas as [r Hr].
    pose proof (wf_ref _ Hwf _ _ _ Hr) as Hlt.
    apply lookup_lt_is_Some in Hlt as [d Hd].
    assert (nx_edge g u v = Some d) as He.
    { unfold nx_edge. rewrite Hr. done. }
    simpl. rewrite He. apply IH.
  - assert (nx_edge g u v = None) as He.
    { unfold nx_edge. destruct (nx_edge_ref g u v) eqn:Hr; [|done].
      assert (nx_has_edge g u v = true); [|congruence].
      apply nx_has_edge_ref. eauto. }
    rewrite He. simpl. clear. induction hs as [|[a b] hs IH]; [done|].
    simpl. apply IH.
Qed.

(** X19: [_path_utilization] adds up the utilization of the hops of the
    path, whether the links are available or not, and is left by
    [KeyError] when some hop is not a link of the topology.  A path of
    fewer than two nodes has utilization 0. *)
Theorem path_utilization_sum_or_KeyError c path :
  reachable c →
  _path_utilization c path
  = if forallb (λ '(u, v), nx_has_edge (topology c) u v) (hops path)
    then Ok (total_utilization c path)
    else Raise KeyError.
Proof.
  intros Hc. pose proof (inv_graph _ (reachable_inv _ Hc)) as Hwf.
  unfold _path_utilization. by rewrite path_utilization_fold.
Qed.

Lemma path_utilization_sum_or_KeyError_witness :
  let c := remove_link (inject_flow example "h1" "h2" 2 5).1 "s1" "s2" in
  _path_utilization c ["h1"; "s1"; "s2"; "s3"]
  = if forallb (λ '(u, v), nx_has_edge (topology c) u v)
         (hops ["h1"; "s1"; "s2"; "s3"])
    then Ok (total_utilization c ["h1"; "s1"; "s2"; "s3"])
    else Raise KeyError.
Proof.
  intros c. apply (path_utilization_sum_or_KeyError c).
  exact (reachable_run_op _ (OpRemoveLink "s1" "s2")
           (reachable_run_op example (OpInjectFlow "h1" "h2" 2 5)
              example_reachable)).
Defined.

(** * Installing flow-table entries *)

(** X20: [install_flow] is a write to [flow_tables[switch][flow]]: the
    entry reads back as the action written, every other entry of every
    switch reads as before (a switch without a table gets one), and a
    second write under the same key replaces the first. *)
Theorem install_flow_lookup ft switch flow action action' switch' flow' :
  (install_flow ft switch flow action !! switch' ≫= (λ t, t !! flow')
   = if decide (switch' = switch ∧ flow' = flow) then Some action
     else ft !! switch' ≫= (λ t, t !! flow')) ∧
  install_flow (install_flow ft switch flow action) switch flow action'
  = install_flow ft switch flow action'.
Proof.
  split; [apply install_flow_entry|].
  unfold install_flow. rewrite lookup_insert_eq. simpl.
  by rewrite insert_insert_eq, insert_insert_eq.
Qed.

(** * The paths of a search are pairwise distinct *)

Lemma preds_in_NoDup P w : NoDup P → NoDup (preds_in P w).
Proof.
  intros HP. unfold preds_in. apply NoDup_fmap_2_strong.
  - intros [v1 w1] [v2 w2] [Hw1 _]%list_elem_of_filter
      [Hw2 _]%list_elem_of_filter Hv.
    simpl in *. by subst.
  - by apply NoDup_filter.
Qed.

Lemma scanned_NoDup nbrs l :
  (∀ v, NoDup (nbrs v)) → NoDup l → NoDup (scanned nbrs l).
Proof.
  intros Hnb Hl. unfold scanned. apply NoDup_bind; [|
    |done].
  - intros v1 v2 [v w] _ _ (? & [= -> ->] & _)%list_elem_of_fmap
      (? & [= -> _] & _)%list_elem_of_fmap. done.
  - intros v _. apply NoDup_fmap_2; [|apply Hnb]. by intros ?? [=].
Qed.

(** The frontier under construction never lists a node twice: a node
    enters it when the search meets it for the first time. *)
Lemma bfs_visit_next_NoDup L (P : list (string * string)) st :
  NoDup (bfs_next st) →
  (∀ x, x ∈ bfs_next st → is_Some (bfs_seen st !! x)) →
  NoDup (bfs_next (foldl (λ st p, bfs_visit L p.1 st p.2) st P)).
Proof.
  revert st. induction P as [|[v w] P IH]; intros st Hnd Hseen; [done|].
  simpl. apply IH; unfold bfs_visit.
  - destruct (bfs_seen st !! w) as [l|] eqn:Hw; [by case_decide|]. simpl.
    apply NoDup_app. split_and!; [done| |apply NoDup_singleton].
    intros x Hx ->%list_elem_of_singleton.
    destruct (Hseen _ Hx). congruence.
  - destruct (bfs_seen st !! w) as [l|] eqn:Hw; [by case_decide|]. simpl.
    intros x [Hx| ->%list_elem_of_singleton]%elem_of_app.
    + destruct (decide (x = w)) as [->|?].
      * rewrite lookup_insert_eq. eauto.
      * rewrite lookup_insert_ne by done. auto.
    + rewrite lookup_insert_eq. eauto.
Qed.

Lemma bfs_level_NoDup nbrs source k st :
  (∀ v, NoDup (nbrs v)) →
  bfs_inv nbrs source k st →
  NoDup (bfs_next st) →
  (∀ w ps, bfs_pred st !! w = Some ps → NoDup ps) →
  NoDup (bfs_next (bfs_level nbrs (S k) st)) ∧
  ∀ w ps, bfs_pred (bfs_level nbrs (S k) st) !! w = Some ps → NoDup ps.
Proof.
  intros Hnb Hinv Hnext Hpred. unfold bfs_level. rewrite bfs_scan_pairs.
  split.
  - apply bfs_visit_next_NoDup; simpl; [constructor|].
    intros x Hx. by apply elem_of_nil in Hx.
  - destruct (bfs_visit_pairs nbrs (S k) (bfs_seen st) (bfs_pred st)
                (scanned nbrs (bfs_next st))) as (_ & Hp & _).
    { intros w d Hw ->. apply (inv_sound _ _ _ _ Hinv) in Hw as [_ ?]. lia. }
    intros w ps. rewrite Hp.
    destruct (bfs_seen st !! w); [apply Hpred|].
    case_decide; [apply Hpred|]. intros [= <-].
    apply preds_in_NoDup. by apply scanned_NoDup.
Qed.

Lemma bfs_loop_NoDup nbrs source fuel k st :
  (∀ v, NoDup (nbrs v)) →
  bfs_inv nbrs source k st →
  NoDup (bfs_next st) →
  (∀ w ps, bfs_pred st !! w = Some ps → NoDup ps) →
  ∀ w ps, bfs_pred (bfs_loop nbrs fuel k st) !! w = Some ps → NoDup ps.
Proof.
  intros Hnb. revert k st.
  induction fuel as [|fuel IH]; intros k st Hinv Hnext Hpred; simpl; [done|].
  destruct (bfs_next st) eqn:Hn; [done|].
  destruct (bfs_level_NoDup nbrs source k st) as [Hnext' Hpred'];
    [done|done|by rewrite Hn|done|].
  apply (IH (S k)); [by apply bfs_level_inv|done..].
Qed.

Lemma view_neighbors_NoDup g es v :
  graph_wf g → NoDup (view_neighbors (edge_subgraph g es) v).
Proof.
  intros Hwf. unfold view_neighbors. simpl.
  destruct (od_get v (g_adj g)) as [nbrs|] eqn:Hv; [|constructor].
  destruct (NODE_OK _ v); [|constructor].
  apply NoDup_filter. by eapply wf_nbr_keys.
Qed.

Lemma elem_of_flat_map {A B} (f : A → list B) (l : list A) (y : B) :
  y ∈ flat_map f l ↔ ∃ x, x ∈ l ∧ y ∈ f x.
Proof.
  rewrite list_elem_of_In, in_flat_map. split; intros (x & Hx & Hy);
    exists x; by rewrite ?list_elem_of_In in *.
Qed.

Lemma NoDup_flat_map {A B} (f : A → list B) (l : list A) :
  NoDup l → (∀ x, x ∈ l → NoDup (f x)) →
  (∀ x1 x2 y, x1 ∈ l → x2 ∈ l → y ∈ f x1 → y ∈ f x2 → x1 = x2) →
  NoDup (flat_map f l).
Proof.
  induction 1 as [|x l Hx Hl IH]; intros Hf Hdisj; simpl; [constructor|].
  apply NoDup_app. split_and!.
  - apply Hf. left.
  - intros y Hy (x' & Hx' & Hy')%elem_of_flat_map.
    assert (x = x') as <-; [|done].
    apply (Hdisj x x' y); [left|by right|done..].
  - apply IH.
    + intros x' Hx'. apply Hf. by right.
    + intros x1 x2 y H1 H2. apply Hdisj; by right.
Qed.

(** Every stack that the enumeration yields extends the stack it was
    started with. *)
Lemma build_paths_suffix fuel pred sources stack p :
  p ∈ build_paths fuel pred sources stack → stack `suffix_of` p.
Proof.
  revert stack. induction fuel as [|fuel IH]; intros stack; simpl.
  { destruct stack; intros Hp; by apply elem_of_nil in Hp. }
  destruct stack as [|node rest]; [intros Hp; by apply elem_of_nil in Hp|].
  assert (∀ q, q ∈ (if decide (node ∈ sources) then [node :: rest] else [])
               → node :: rest `suffix_of` q) as Hhere.
  { intros q. case_decide; [|by intros ?%elem_of_nil].
    by intros ->%list_elem_of_singleton. }
  intros [(next & _ & [Hp|Hp]%elem_of_app)%elem_of_flat_map|Hp]%elem_of_app;
    [by apply Hhere| |by apply Hhere].
  case_decide; [by apply elem_of_nil in Hp|].
  apply IH in Hp. by eapply suffix_cons_l.
Qed.

Lemma build_paths_NoDup fuel pred s stack :
  pred !! s = Some [] →
  (∀ w ps, pred !! w = Some ps → NoDup ps) →
  NoDup (build_paths fuel pred [s] stack).
Proof.
  intros Hs Hpred. revert stack.
  induction fuel as [|fuel IH]; intros stack; simpl.
  { destruct stack; constructor. }
  destruct stack as [|node rest]; [constructor|].
  case_decide as Hnode.
  - apply list_elem_of_singleton in Hnode. subst node. rewrite Hs. simpl.
    apply NoDup_singleton.
  - rewrite app_nil_r. simpl. apply NoDup_flat_map.
    + destruct (pred !! node) as [ps|] eqn:Hps; simpl; [eauto|constructor].
    + intros next _. case_decide; [constructor|apply IH].
    + intros x1 x2 y _ _ H1 H2.
      destruct (decide (x1 ∈ node :: rest)); [by apply elem_of_nil in H1|].
      destruct (decide (x2 ∈ node :: rest)); [by apply elem_of_nil in H2|].
      apply build_paths_suffix in H1, H2.
      destruct H1 as [k1 H1], H2 as [k2 H2]. rewrite H1 in H2.
      apply app_inj_2 in H2 as [_ [= ->]]; done.
Qed.

Lemma all_shortest_paths_NoDup g s t all :
  graph_wf g →
  all_shortest_paths (edge_subgraph g (available_edges g)) s t = Ok all →
  NoDup all.
Proof.
  intros Hwf. unfold all_shortest_paths, predecessor.
  destruct (view_contains _ s) eqn:Hs; [|done]. simpl.
  pose proof (live_bfs_done g s Hwf Hs) as Hdone. simpl in Hdone.
  set (G := edge_subgraph g (available_edges g)) in *.
  set (st := bfs_loop _ _ _ _) in *.
  unfold _build_paths_from_predecessors.
  destruct (bfs_pred st !! t); [|done]. intros [= <-].
  apply build_paths_NoDup.
  - destruct (done_min _ _ _ _ Hdone s 0%nat) as (d0 & Hseen & Hd0);
      [constructor|].
    assert (d0 = 0%nat) as -> by lia.
    destruct (done_pred _ _ _ _ Hdone s 0%nat Hseen) as (ps & Hps & Hin).
    destruct ps as [|v ps]; [done|].
    destruct (proj1 (Hin v)) as (d' & ? & _); [left|done].
  - apply (bfs_loop_NoDup _ s).
    + intros v. by apply view_neighbors_NoDup.
    + apply bfs_init_inv.
    + apply NoDup_singleton.
    + intros w ps. unfold bfs_init. simpl.
      intros [_ <-]%lookup_singleton_Some. constructor.
Qed.

(** X21: [compute_paths] never returns a path twice.  In every reachable
    state the paths of its result are pairwise distinct, so that a call
    with a priority of 0 or less returns two different shortest paths
    whenever two different shortest paths of available links exist. *)
Theorem compute_paths_distinct c src dst (priority : Z) paths :
  reachable c →
  compute_paths c src dst priority = Ok paths →
  NoDup paths ∧
  ∀ p q, shortest_live_path c src dst p → shortest_live_path c src dst q →
         p ≠ q → (priority ≤ 0)%Z → length paths = 2%nat.
Proof.
  intros Hc Hcp. pose proof (inv_graph _ (reachable_inv _ Hc)) as Hwf.
  pose proof (compute_paths_spec c src dst priority Hwf) as Hspec.
  rewrite Hcp in Hspec. unfold live_subgraph in Hspec.
  destruct (all_shortest_paths _ src dst) as [all|e] eqn:Hall.
  - destruct Hspec as (_ & Hmem & Hps).
    apply all_shortest_paths_NoDup in Hall; [|done].
    case_bool_decide as Hprio.
    + destruct Hps as (m & -> & _). split; [apply NoDup_singleton|]. lia.
    + subst paths. split.
      * eapply sublist_NoDup; [exact Hall|apply sublist_take].
      * intros p q Hp%Hmem Hq%Hmem Hpq _. rewrite length_take.
        assert (2 ≤ length all)%nat; [|lia].
        destruct all as [|a [|b all]]; simpl; [|exfalso|lia].
        -- by apply elem_of_nil in Hp.
        -- apply list_elem_of_singleton in Hp, Hq. congruence.
  - destruct Hspec as (_ & -> & _ & Hno). split; [constructor|].
    intros p q [Hp _] _ _ _. by destruct (Hno p).
Qed.

Lemma compute_paths_distinct_witness :
  let paths := [["h1"; "s1"; "s2"; "s4"; "h2"]; ["h1"; "s1"; "s3"; "s4"; "h2"]] in
  NoDup paths ∧
  ∀ p q, shortest_live_path example "h1" "h2" p →
         shortest_live_path example "h1" "h2" q →
         p ≠ q → (0 ≤ 0)%Z → length paths = 2%nat.
Proof.
  intros paths. apply (compute_paths_distinct example "h1" "h2" 0 paths).
  - apply example_reachable.
  - vm_compute. reflexivity.
Defined.
